(** * GPS-Calc: coordinate parser, converter, distance engine and unit formatter

    A shallow embedding of the computational core of the GPS-Calc code base
    (coordinate-parser.js, coordinate-converter.js, distance-calculator.js and
    the dynamic unit formatter of script.js), together with the properties
    stated about it.

    JavaScript numbers are IEEE-754 binary64 values and are modelled by Rocq's
    primitive floats, so that every concrete evaluation below is bit-exact.
    [null] is modelled by [None]; objects are records; arrays are lists. *)

From Stdlib Require Import ZArith Bool String Ascii DecimalString Lia Floats Sorted
  List.
Import ListNotations.

Set Warnings "-inexact-float".

(** ** JavaScript numbers and the built-ins the sources call *)

Module JS.

Local Open Scope float_scope.

Definition isNaN (x : float) : bool := is_nan x.
Definition isFinite (x : float) : bool := negb (is_nan x || is_infinity x).

(** [x > y] and [x >= y]. *)
Definition gtb (x y : float) : bool := y <? x.
Definition geb (x y : float) : bool := y <=? x.

(** The number nearest to an integer (round to nearest, ties to even). *)
Definition of_Z (z : Z) : float := SF2Prim (binary_normalize prec emax z 0 false).

(** The number nearest to the rational [± num / den]. *)
Definition of_ratio (neg : bool) (num den : positive) : float :=
  SF2Prim (SFdiv prec emax (S754_finite neg num 0) (S754_finite false den 0)).

Definition Math_PI : float := 3.141592653589793.
Definition Math_abs (x : float) : float := abs x.
Definition Math_sqrt (x : float) : float := sqrt x.

(** [Math.floor]: the value of a finite number is [± m * 2^e]. *)
Definition Math_floor (x : float) : float :=
  match Prim2SF x with
  | S754_finite s m e =>
      if (0 <=? e)%Z then x
      else
        let q := Z.shiftr (Zpos m) (- e) in
        let exact := (Z.shiftl q (- e) =? Zpos m)%Z in
        if s then - of_Z (if exact then q else q + 1) else of_Z q
  | _ => x
  end.

(** [Number.prototype.toFixed] picks the integer [n] for which [n / 10^d] is
    closest to the (non-negative) value [m * 2^e], the larger one on a tie. *)
Definition toFixed_digits (d : nat) (m : positive) (e : Z) : Z :=
  let p := (10 ^ Z.of_nat d)%Z in
  if (0 <=? e)%Z then (Zpos m * 2 ^ e * p)%Z
  else ((2 * (Zpos m * p) + 2 ^ (- e)) / (2 * 2 ^ (- e)))%Z.

(** [parseFloat(x.toFixed(d))], the idiom the sources use to round to [d]
    decimal places. [toFixed] prints "NaN" and "Infinity" as such, prints
    numbers from 1e21 on like [toString], drops the sign of a zero and keeps
    the sign of a negative number that rounds to zero; [parseFloat] reads the
    decimal numeral back to the nearest number. *)
Definition toFixed_parse (d : nat) (x : float) : float :=
  match Prim2SF x with
  | S754_nan => nan
  | S754_infinity s => x
  | S754_zero _ => 0
  | S754_finite s m e =>
      if 1e21 <=? abs x then x
      else
        match toFixed_digits d m e with
        | Zpos n => of_ratio s n (Z.to_pos (10 ^ Z.of_nat d))
        | _ => if s then -0 else 0
        end
  end.

End JS.

(** ** Strings: [parseFloat], [trim] and regular expressions *)

Module Str.

Definition is_digit (c : ascii) : bool :=
  let n := nat_of_ascii c in ((48 <=? n) && (n <=? 57))%nat.

(** The ASCII part of the white space that [\s] and [trim] recognise. *)
Definition is_space (c : ascii) : bool :=
  match nat_of_ascii c with
  | 9 | 10 | 11 | 12 | 13 | 32 => true
  | _ => false
  end.

Definition digit_val (c : ascii) : Z := Z.of_nat (nat_of_ascii c - 48).

Definition digits_val (ds : list ascii) : Z :=
  fold_left (fun acc c => 10 * acc + digit_val c)%Z ds 0%Z.

Fixpoint span (p : ascii -> bool) (s : list ascii) : list ascii * list ascii :=
  match s with
  | c :: s' => if p c then let (a, b) := span p s' in (c :: a, b) else ([], s)
  | [] => ([], [])
  end.

Fixpoint dropWhile (p : ascii -> bool) (s : list ascii) : list ascii :=
  match s with
  | c :: s' => if p c then dropWhile p s' else s
  | [] => []
  end.

Fixpoint is_prefix (p s : list ascii) : bool :=
  match p, s with
  | [], _ => true
  | a :: p', b :: s' => Ascii.eqb a b && is_prefix p' s'
  | _ :: _, [] => false
  end.

(** [String.prototype.trim]. *)
Definition trim (s : string) : string :=
  string_of_list_ascii
    (rev (dropWhile is_space (rev (dropWhile is_space (list_ascii_of_string s))))).

(** The exponent part of a decimal literal, 0 when there is none. *)
Definition exponent_part (s : list ascii) : Z :=
  match s with
  | c :: r =>
      if Ascii.eqb c "e" || Ascii.eqb c "E" then
        let '(neg, r') :=
          match r with
          | "-"%char :: t => (true, t)
          | "+"%char :: t => (false, t)
          | _ => (false, r)
          end in
        match fst (span is_digit r') with
        | [] => 0%Z
        | ds => if neg then (- digits_val ds)%Z else digits_val ds
        end
      else 0%Z
  | [] => 0%Z
  end.

(** [parseFloat]: skips leading white space, reads the longest prefix that is
    a decimal literal and returns the nearest number, NaN when there is no
    such prefix. *)
Definition parseFloat (str : string) : float :=
  let s := dropWhile is_space (list_ascii_of_string str) in
  let '(neg, s) :=
    match s with
    | "-"%char :: r => (true, r)
    | "+"%char :: r => (false, r)
    | _ => (false, s)
    end in
  if is_prefix (list_ascii_of_string "Infinity") s then
    (if neg then neg_infinity else infinity)
  else
    let '(ip, s1) := span is_digit s in
    let '(fp, s2) :=
      match s1 with
      | "."%char :: r => span is_digit r
      | _ => ([], s1)
      end in
    match ip ++ fp with
    | [] => nan
    | ds =>
        let k := (exponent_part s2 - Z.of_nat (length fp))%Z in
        match digits_val ds with
        | Zpos m =>
            if (0 <=? k)%Z then JS.of_ratio neg (m * Z.to_pos (10 ^ k)) 1
            else JS.of_ratio neg m (Z.to_pos (10 ^ (- k)))
        | _ => if neg then (-0)%float else 0%float
        end
    end.

(** Regular expressions with capture groups, matched by backtracking with
    the greedy, leftmost semantics of JavaScript. *)
Inductive regex : Type :=
| Eps
| Bol
| Eol
| Chr (p : ascii -> bool)
| Seq (r1 r2 : regex)
| Alt (r1 r2 : regex)
| Star (r : regex)
| Group (i : nat) (r : regex).

Definition captures := list (nat * list ascii).
Definition cont := nat -> list ascii -> captures -> option captures.

Fixpoint rmatch (fuel : nat) (r : regex) (pos : nat) (s : list ascii)
    (caps : captures) (k : cont) {struct fuel} : option captures :=
  match fuel with
  | O => None
  | S fuel' =>
      (fix go (r : regex) (pos : nat) (s : list ascii) (caps : captures)
           (k : cont) {struct r} : option captures :=
         match r with
         | Eps => k pos s caps
         | Bol => if (pos =? 0)%nat then k pos s caps else None
         | Eol => match s with [] => k pos s caps | _ :: _ => None end
         | Chr p =>
             match s with
             | c :: s' => if p c then k (S pos) s' caps else None
             | [] => None
             end
         | Seq r1 r2 =>
             go r1 pos s caps (fun pos' s' caps' => go r2 pos' s' caps' k)
         | Alt r1 r2 =>
             match go r1 pos s caps k with
             | Some c => Some c
             | None => go r2 pos s caps k
             end
         | Star r1 =>
             match go r1 pos s caps
                     (fun pos' s' caps' =>
                        if (length s' <? length s)%nat
                        then rmatch fuel' (Star r1) pos' s' caps' k
                        else None) with
             | Some c => Some c
             | None => k pos s caps
             end
         | Group i r1 =>
             go r1 pos s caps
               (fun pos' s' caps' =>
                  k pos' s' ((i, firstn (pos' - pos) s) :: caps'))
         end) r pos s caps k
  end.

Fixpoint search (fuel : nat) (r : regex) (pos : nat) (s : list ascii)
    : option captures :=
  match rmatch fuel r pos s [] (fun _ _ c => Some c) with
  | Some c => Some c
  | None =>
      match s with
      | [] => None
      | _ :: s' => search fuel r (S pos) s'
      end
  end.

(** [RegExp.prototype.exec]: the captures of the leftmost match. *)
Definition exec (r : regex) (s : string) : option captures :=
  let l := list_ascii_of_string s in search (length l + 2) r 0 l.

Fixpoint group (i : nat) (c : captures) : string :=
  match c with
  | (j, s) :: c' => if (i =? j)%nat then string_of_list_ascii s else group i c'
  | [] => EmptyString
  end.

(** Building blocks of the patterns. *)
Definition plus (r : regex) : regex := Seq r (Star r).
Definition opt (r : regex) : regex := Alt r Eps.
Definition chr (c : ascii) : regex := Chr (Ascii.eqb c).
Definition lit (s : string) : regex :=
  fold_right (fun c r => Seq (chr c) r) Eps (list_ascii_of_string s).
Definition oneof (s : string) : regex :=
  Chr (fun c => existsb (Ascii.eqb c) (list_ascii_of_string s)).
Definition seqs (rs : list regex) : regex := fold_right Seq Eps rs.
Definition d : regex := Chr is_digit.
Definition ws : regex := Chr is_space.

(** [\d+(?:\.\d+)?] and [-?\d+(?:\.\d+)?]. *)
Definition unsigned_decimal : regex := Seq (plus d) (opt (Seq (chr ".") (plus d))).
Definition signed_decimal : regex := Seq (opt (chr "-")) unsigned_decimal.

(** [s.toUpperCase() === c] for a one-letter upper-case [c]. *)
Definition upper_is (c : ascii) (s : string) : bool :=
  match s with
  | String a EmptyString =>
      Ascii.eqb a c || (nat_of_ascii a =? nat_of_ascii c + 32)%nat
  | _ => false
  end.

End Str.

(** ** coordinate-parser.js *)

Record LatLon : Type := mkLatLon { lat : float; lon : float }.

Module CoordinateParser.

Import Str.
Local Open Scope float_scope.

(** The degree sign and the straight and typographic minute and second marks,
    as the UTF-8 bytes of the source text. *)
Definition degree : regex := lit "°".
Definition minute_mark : regex := Alt (chr "'") (lit "′").
Definition second_mark : regex := Alt (chr (ascii_of_nat 34)) (lit "″").

(** [this.patterns]; the patterns flagged [i] list both cases of a letter. *)
Definition dmsWithSymbols : regex :=
  seqs [Group 1 signed_decimal; degree; Star ws;
        Group 2 unsigned_decimal; minute_mark; Star ws;
        Group 3 unsigned_decimal; second_mark; Star ws;
        Group 4 (opt (oneof "NSns")); Star ws; opt (chr ","); Star ws;
        Group 5 signed_decimal; degree; Star ws;
        Group 6 unsigned_decimal; minute_mark; Star ws;
        Group 7 unsigned_decimal; second_mark; Star ws;
        Group 8 (opt (oneof "EWew"))].

Definition dmsWithCardinal : regex :=
  seqs [Group 1 (oneof "NSns"); Group 2 unsigned_decimal; degree; Star ws;
        Group 3 unsigned_decimal; minute_mark; Star ws;
        Group 4 unsigned_decimal; second_mark; Star ws; opt (chr ","); Star ws;
        Group 5 (oneof "EWew"); Group 6 unsigned_decimal; degree; Star ws;
        Group 7 unsigned_decimal; minute_mark; Star ws;
        Group 8 unsigned_decimal; second_mark].

Definition decimalDegrees : regex :=
  seqs [Bol; Group 1 signed_decimal; plus ws; Group 2 signed_decimal; Eol].

Definition decimalWithCardinal : regex :=
  seqs [Group 1 (oneof "NSns"); Group 2 unsigned_decimal; Star ws;
        opt (chr ","); Star ws;
        Group 3 (oneof "EWew"); Group 4 unsigned_decimal].

Definition dmsSpaceSeparated : regex :=
  seqs [Bol; Group 1 (Seq (opt (chr "-")) (plus d)); plus ws;
        Group 2 (plus d); plus ws;
        Group 3 unsigned_decimal; plus ws;
        Group 4 (Seq (opt (chr "-")) (plus d)); plus ws;
        Group 5 (plus d); plus ws;
        Group 6 unsigned_decimal; Eol].

(** [dmsToDecimal(degrees, minutes, seconds)] of the parser. *)
Definition dmsToDecimal (degrees minutes seconds : float) : float :=
  let sign := if degrees <? 0 then -1 else 1 in
  sign * (JS.Math_abs degrees + minutes / 60 + seconds / 3600).

Definition parseDMSSpaceSeparated (m : captures) : LatLon :=
  let lat := dmsToDecimal (parseFloat (group 1 m)) (parseFloat (group 2 m))
                          (parseFloat (group 3 m)) in
  let lon := dmsToDecimal (parseFloat (group 4 m)) (parseFloat (group 5 m))
                          (parseFloat (group 6 m)) in
  {| lat := lat; lon := lon |}.

Definition parseDMSWithCardinal (m : captures) : LatLon :=
  let lat := dmsToDecimal (parseFloat (group 2 m)) (parseFloat (group 3 m))
                          (parseFloat (group 4 m)) in
  let lon := dmsToDecimal (parseFloat (group 6 m)) (parseFloat (group 7 m))
                          (parseFloat (group 8 m)) in
  let lat := if upper_is "S" (group 1 m) then - lat else lat in
  let lon := if upper_is "W" (group 5 m) then - lon else lon in
  {| lat := lat; lon := lon |}.

Definition parseDMSWithSymbols (m : captures) : LatLon :=
  let lat := dmsToDecimal (parseFloat (group 1 m)) (parseFloat (group 2 m))
                          (parseFloat (group 3 m)) in
  let lon := dmsToDecimal (parseFloat (group 5 m)) (parseFloat (group 6 m))
                          (parseFloat (group 7 m)) in
  let lat := if upper_is "S" (group 4 m) then - lat else lat in
  let lon := if upper_is "W" (group 8 m) then - lon else lon in
  {| lat := lat; lon := lon |}.

Definition parseDecimalWithCardinal (m : captures) : LatLon :=
  let lat := parseFloat (group 2 m) in
  let lon := parseFloat (group 4 m) in
  let lat := if upper_is "S" (group 1 m) then - lat else lat in
  let lon := if upper_is "W" (group 3 m) then - lon else lon in
  {| lat := lat; lon := lon |}.

Definition parseDecimalDegrees (m : captures) : LatLon :=
  {| lat := parseFloat (group 1 m); lon := parseFloat (group 2 m) |}.

(** [parseCoordinate]: the patterns are tried in the order of the source. *)
Definition parseCoordinate (input : string) : option LatLon :=
  match input with
  | EmptyString => None
  | _ =>
      let trimmedInput := trim input in
      match exec dmsSpaceSeparated trimmedInput with
      | Some m => Some (parseDMSSpaceSeparated m)
      | None =>
      match exec dmsWithCardinal trimmedInput with
      | Some m => Some (parseDMSWithCardinal m)
      | None =>
      match exec dmsWithSymbols trimmedInput with
      | Some m => Some (parseDMSWithSymbols m)
      | None =>
      match exec decimalWithCardinal trimmedInput with
      | Some m => Some (parseDecimalWithCardinal m)
      | None =>
      match exec decimalDegrees trimmedInput with
      | Some m => Some (parseDecimalDegrees m)
      | None => None
      end end end end end
  end.

(** [validateCoordinates], the range and finiteness predicate. *)
Definition validateCoordinates (lat lon : float) : bool :=
  JS.geb lat (-90) && (lat <=? 90) && JS.geb lon (-180) && (lon <=? 180)
  && negb (JS.isNaN lat) && negb (JS.isNaN lon)
  && JS.isFinite lat && JS.isFinite lon.

End CoordinateParser.

(** ** coordinate-converter.js *)

(** A [while (cond(x)) x = body(x);] loop on one variable. The loop runs at
    most [fuel] tests of its condition; [None] means that the condition still
    held after that many. *)
Fixpoint while (fuel : nat) (cond : float -> bool) (body : float -> float)
    (x : float) : option float :=
  match fuel with
  | O => None
  | S fuel' => if cond x then while fuel' cond body (body x) else Some x
  end.

Module CoordinateConverter.

Local Open Scope string_scope.
Local Open Scope float_scope.

Definition decimalPrecision : nat := 10.
Definition dmsPrecision : nat := 5.

Record DMS : Type := mkDMS {
  degrees : float;
  minutes : float;
  seconds : float;
  cardinal : string
}.

Definition decimalToDMS (decimalDegrees : float) (includeCardinal : bool)
    : option DMS :=
  if JS.isNaN decimalDegrees || negb (JS.isFinite decimalDegrees) then None
  else
    let isNegative := decimalDegrees <? 0 in
    let absDegrees := JS.Math_abs decimalDegrees in
    let degrees := JS.Math_floor absDegrees in
    let minutesFloat := (absDegrees - degrees) * 60 in
    let minutes := JS.Math_floor minutesFloat in
    let seconds := (minutesFloat - minutes) * 60 in
    let cardinal :=
      if includeCardinal then (if isNegative then "S" else "N") else "" in
    Some {| degrees := if isNegative then - degrees else degrees;
            minutes := minutes;
            seconds := JS.toFixed_parse dmsPrecision seconds;
            cardinal := cardinal |}.

Definition dmsToDecimal (degrees minutes seconds : float) (cardinal : string)
    : option float :=
  if JS.isNaN degrees || JS.isNaN minutes || JS.isNaN seconds then None
  else
    let isNegative :=
      (degrees <? 0) || Str.upper_is "S" cardinal || Str.upper_is "W" cardinal in
    let absDegrees := JS.Math_abs degrees in
    let decimal := absDegrees + minutes / 60 + seconds / 3600 in
    Some (if isNegative then - decimal else decimal).

(** [validateAndNormalize]. The outer [option] is the termination of the two
    wrapping loops within [fuel] iterations each, the inner one is the
    [null] of the source. *)
Definition validateAndNormalize (fuel : nat) (lat lon : float)
    : option (option LatLon) :=
  if JS.isNaN lat || JS.isNaN lon || negb (JS.isFinite lat)
     || negb (JS.isFinite lon)
  then Some None
  else
    match while fuel (fun l => JS.gtb l 180) (fun l => l - 360) lon with
    | None => None
    | Some lon1 =>
        match while fuel (fun l => l <? -180) (fun l => l + 360) lon1 with
        | None => None
        | Some normalizedLon =>
            if (lat <? -90) || JS.gtb lat 90 then Some None
            else Some (Some {| lat := lat; lon := normalizedLon |})
        end
    end.

End CoordinateConverter.

(** ** distance-calculator.js *)

(** The functions of the [Math] object that ECMAScript leaves to the
    implementation (their results are approximations it does not fix). *)
Record MathObject : Type := mkMath {
  Math_sin : float -> float;
  Math_cos : float -> float;
  Math_atan2 : float -> float -> float;
  Math_pow : float -> float -> float
}.

(** [a[i] = v] for an index within the array. *)
Fixpoint update {A : Type} (i : nat) (v : A) (l : list A) : list A :=
  match l, i with
  | [], _ => []
  | _ :: l', O => v :: l'
  | x :: l', S i' => x :: update i' v l'
  end.

Module DistanceCalculator.

Local Open Scope float_scope.

Record Coordinate : Type := mkCoordinate {
  lat : float;
  lon : float;
  elevation : option float
}.

Record DistanceValue : Type := mkDistance { km : float; miles : float }.

Record Statistics : Type := mkStatistics {
  min : float;
  max : float;
  average : float;
  count : nat
}.

Record Segment : Type := mkSegment {
  from : nat;
  to : nat;
  distance : DistanceValue
}.

Record Cumulative : Type := mkCumulative {
  totalKm : float;
  totalMiles : float;
  segments : list Segment
}.

(** A matrix cell is a distance or [null]; a cell that was never assigned is
    read as [null] too. *)
Definition Matrix : Type := list (list (option DistanceValue)).

Record MatrixResult : Type := mkResult {
  matrix2D : option Matrix;
  matrix3D : option Matrix;
  statistics2D : option Statistics;
  statistics3D : option Statistics;
  cumulative2D : option Cumulative;
  cumulative3D : option Cumulative;
  coordinates : list (Coordinate * string)
}.

Definition earthRadiusKm : float := 6371.
Definition earthRadiusMiles : float := 3959.

Definition validateCoordinates (lat lon : float) : bool :=
  JS.geb lat (-90) && (lat <=? 90) && JS.geb lon (-180) && (lon <=? 180)
  && negb (JS.isNaN lat) && negb (JS.isNaN lon)
  && JS.isFinite lat && JS.isFinite lon.

Definition toRadians (degrees : float) : float := degrees * (JS.Math_PI / 180).

(** [coord.elevation || 0]: [null], NaN and both zeros give 0. *)
Definition elevation_or_0 (c : Coordinate) : float :=
  match elevation c with
  | Some e => if JS.isNaN e || (e =? 0) then 0 else e
  | None => 0
  end.

Definition createEmptyMatrix (size : nat) : Matrix := repeat (repeat None size) size.

(** [matrix[i][j] = v]. *)
Definition set_cell (i j : nat) (v : option DistanceValue) (m : Matrix) : Matrix :=
  match nth_error m i with
  | Some row => update i (update j v row) m
  | None => m
  end.

Definition get_cell (m : Matrix) (i j : nat) : option (option DistanceValue) :=
  match nth_error m i with
  | Some row => nth_error row j
  | None => None
  end.

(** [distances.sort((a, b) => a - b)] as a stable insertion sort driven by the
    comparator. *)
Fixpoint insert_sorted (x : float) (l : list float) : list float :=
  match l with
  | [] => [x]
  | y :: l' => if 0 <? y - x then x :: l else y :: insert_sorted x l'
  end.

Definition sort (l : list float) : list float :=
  fold_left (fun acc x => insert_sorted x acc) l [].

Definition calculateStatistics (distances : list float) : option Statistics :=
  match distances with
  | [] => None
  | _ :: _ =>
      let sorted := sort distances in
      let sum := fold_left (fun acc val => acc + val) distances 0 in
      let average := sum / JS.of_Z (Z.of_nat (length distances)) in
      Some {| min := JS.toFixed_parse 6 (hd nan sorted);
              max := JS.toFixed_parse 6 (last sorted nan);
              average := JS.toFixed_parse 6 average;
              count := length distances |}
  end.

(** ["Point " + (index + 1)]. *)
Definition label (index : nat) : string :=
  ("Point " ++ NilEmpty.string_of_uint (Nat.to_uint (index + 1)))%string.

Section Engine.

Variable M : MathObject.

Definition calculate2DDistance (lat1 lon1 lat2 lon2 : float)
    : option DistanceValue :=
  if negb (validateCoordinates lat1 lon1) || negb (validateCoordinates lat2 lon2)
  then None
  else
    let lat1Rad := toRadians lat1 in
    let lon1Rad := toRadians lon1 in
    let lat2Rad := toRadians lat2 in
    let lon2Rad := toRadians lon2 in
    let deltaLat := lat2Rad - lat1Rad in
    let deltaLon := lon2Rad - lon1Rad in
    let a := Math_sin M (deltaLat / 2) * Math_sin M (deltaLat / 2)
             + Math_cos M lat1Rad * Math_cos M lat2Rad
               * Math_sin M (deltaLon / 2) * Math_sin M (deltaLon / 2) in
    let c := 2 * Math_atan2 M (JS.Math_sqrt a) (JS.Math_sqrt (1 - a)) in
    let distanceKm := earthRadiusKm * c in
    let distanceMiles := earthRadiusMiles * c in
    Some {| km := JS.toFixed_parse 6 distanceKm;
            miles := JS.toFixed_parse 6 distanceMiles |}.

Definition calculate3DDistance (lat1 lon1 elev1 lat2 lon2 elev2 : float)
    : option DistanceValue :=
  match calculate2DDistance lat1 lon1 lat2 lon2 with
  | None => None
  | Some distance2D =>
      if JS.isNaN elev1 || JS.isNaN elev2 || negb (JS.isFinite elev1)
         || negb (JS.isFinite elev2)
      then Some distance2D
      else
        let elevationDiff := JS.Math_abs (elev1 - elev2) in
        let distance2DMeters := km distance2D * 1000 in
        let distance3DMeters :=
          JS.Math_sqrt (Math_pow M distance2DMeters 2 + Math_pow M elevationDiff 2) in
        let distance3DKm := distance3DMeters / 1000 in
        let distance3DMiles := distance3DKm * 0.621371 in
        Some {| km := JS.toFixed_parse 6 distance3DKm;
                miles := JS.toFixed_parse 6 distance3DMiles |}
  end.

(** The state of [calculateCumulativeDistance]'s loop and one iteration. *)
Record CumulativeState : Type := mkCumState {
  totalDistanceKm : float;
  totalDistanceMiles : float;
  segmentDistances : list Segment
}.

Definition cumulative_step (coordinates : list Coordinate) (include3D : bool)
    (st : CumulativeState) (i : nat) : CumulativeState :=
  match nth_error coordinates i, nth_error coordinates (i + 1) with
  | Some coord1, Some coord2 =>
      let distance :=
        if include3D then
          calculate3DDistance (lat coord1) (lon coord1) (elevation_or_0 coord1)
                              (lat coord2) (lon coord2) (elevation_or_0 coord2)
        else
          calculate2DDistance (lat coord1) (lon coord1) (lat coord2) (lon coord2) in
      match distance with
      | Some dv =>
          {| totalDistanceKm := totalDistanceKm st + km dv;
             totalDistanceMiles := totalDistanceMiles st + miles dv;
             segmentDistances :=
               segmentDistances st
               ++ [{| from := i + 1; to := i + 2; distance := dv |}] |}
      | None => st
      end
  | _, _ => st
  end.

Definition calculateCumulativeDistance (coordinates : list Coordinate)
    (include3D : bool) : option Cumulative :=
  if (length coordinates <? 2)%nat then None
  else
    let st := fold_left (cumulative_step coordinates include3D)
                (seq 0 (length coordinates - 1))
                {| totalDistanceKm := 0; totalDistanceMiles := 0;
                   segmentDistances := [] |} in
    Some {| totalKm := JS.toFixed_parse 6 (totalDistanceKm st);
            totalMiles := JS.toFixed_parse 6 (totalDistanceMiles st);
            segments := segmentDistances st |}.

(** The state of [calculateDistanceMatrix]'s nested loops and the body of the
    inner one. *)
Record MatrixState : Type := mkMatState {
  st_matrix2D : option Matrix;
  st_matrix3D : option Matrix;
  distances2D : list float;
  distances3D : list float
}.

Definition zeroDistance : DistanceValue := {| km := 0; miles := 0 |}.

Definition matrix_step2D (coord1 coord2 : Coordinate) (i j : nat)
    (st : MatrixState) : MatrixState :=
  match st_matrix2D st with
  | Some m =>
      let dist2D := calculate2DDistance (lat coord1) (lon coord1)
                                        (lat coord2) (lon coord2) in
      {| st_matrix2D := Some (set_cell i j dist2D m);
         st_matrix3D := st_matrix3D st;
         distances2D := match dist2D with
                        | Some dv => distances2D st ++ [km dv]
                        | None => distances2D st
                        end;
         distances3D := distances3D st |}
  | None => st
  end.

Definition matrix_step3D (coord1 coord2 : Coordinate) (i j : nat)
    (st : MatrixState) : MatrixState :=
  match st_matrix3D st with
  | Some m =>
      let dist3D :=
        calculate3DDistance (lat coord1) (lon coord1) (elevation_or_0 coord1)
                            (lat coord2) (lon coord2) (elevation_or_0 coord2) in
      {| st_matrix2D := st_matrix2D st;
         st_matrix3D := Some (set_cell i j dist3D m);
         distances2D := distances2D st;
         distances3D := match dist3D with
                        | Some dv => distances3D st ++ [km dv]
                        | None => distances3D st
                        end |}
  | None => st
  end.

Definition matrix_step (coordinates : list Coordinate) (i : nat)
    (st : MatrixState) (j : nat) : MatrixState :=
  if (i =? j)%nat then
    {| st_matrix2D := option_map (set_cell i j (Some zeroDistance)) (st_matrix2D st);
       st_matrix3D := option_map (set_cell i j (Some zeroDistance)) (st_matrix3D st);
       distances2D := distances2D st;
       distances3D := distances3D st |}
  else
    match nth_error coordinates i, nth_error coordinates j with
    | Some coord1, Some coord2 =>
        matrix_step3D coord1 coord2 i j (matrix_step2D coord1 coord2 i j st)
    | _, _ => st
    end.

Definition matrix_loops (coordinates : list Coordinate) (st : MatrixState)
    : MatrixState :=
  let n := length coordinates in
  fold_left (fun st i => fold_left (matrix_step coordinates i) (seq 0 n) st)
            (seq 0 n) st.

Definition calculateDistanceMatrix (coordinates : list Coordinate)
    (include2D include3D : bool) : option MatrixResult :=
  if (length coordinates <? 2)%nat then None
  else
    let n := length coordinates in
    let st := matrix_loops coordinates
                {| st_matrix2D := if include2D then Some (createEmptyMatrix n) else None;
                   st_matrix3D := if include3D then Some (createEmptyMatrix n) else None;
                   distances2D := [];
                   distances3D := [] |} in
    let stats2D := if include2D then calculateStatistics (distances2D st) else None in
    let stats3D := if include3D then calculateStatistics (distances3D st) else None in
    let cumulative2D :=
      if include2D then calculateCumulativeDistance coordinates false else None in
    let cumulative3D :=
      if include3D then calculateCumulativeDistance coordinates true else None in
    Some {| matrix2D := st_matrix2D st;
            matrix3D := st_matrix3D st;
            statistics2D := stats2D;
            statistics3D := stats3D;
            cumulative2D := cumulative2D;
            cumulative3D := cumulative3D;
            coordinates :=
              map (fun ic => (snd ic, label (fst ic)))
                  (combine (seq 0 n) coordinates) |}.

End Engine.

End DistanceCalculator.

(** ** script.js: dynamic unit scaling *)

Module UnitFormatter.

Local Open Scope string_scope.
Local Open Scope float_scope.

Record FormattedDistance : Type := mkFormatted { value : float; unit : string }.

Definition getDefaultUnit (unitSystem : string) : string :=
  if String.eqb unitSystem "feet" then "ft"
  else if String.eqb unitSystem "survey-feet" then "ft"
  else "m".

Definition formatInMeters (kmValue : float) : FormattedDistance :=
  let meters := kmValue * 1000 in
  let centimeters := meters * 100 in
  let millimeters := centimeters * 10 in
  if JS.geb millimeters 0.1 && (millimeters <? 10) then
    {| value := JS.toFixed_parse 3 millimeters; unit := "mm" |}
  else if JS.geb millimeters 10 && (millimeters <? 1000) then
    {| value := JS.toFixed_parse 4 (millimeters / 10); unit := "cm" |}
  else if JS.geb centimeters 100 && (centimeters <? 10000) then
    {| value := JS.toFixed_parse 3 (centimeters / 100); unit := "m" |}
  else if JS.geb meters 0.001 && (meters <? 1000) then
    if meters <? 1 then
      {| value := JS.toFixed_parse 6 meters; unit := "m" |}
    else
      {| value := JS.toFixed_parse 3 meters; unit := "m" |}
  else
    {| value := JS.toFixed_parse 6 kmValue; unit := "km" |}.

Definition formatInFeet (kmValue : float) : FormattedDistance :=
  let meters := kmValue * 1000 in
  let feet := meters / 0.3048 in
  let inches := feet * 12 in
  let miles := feet / 5280 in
  if JS.geb inches 0.1 && (inches <? 12) then
    {| value := JS.toFixed_parse 3 inches; unit := "in" |}
  else if JS.geb feet 1 && (feet <? 5280) then
    {| value := JS.toFixed_parse 3 feet; unit := "ft" |}
  else
    {| value := JS.toFixed_parse 6 miles; unit := "mi" |}.

Definition formatInSurveyFeet (kmValue : float) : FormattedDistance :=
  let meters := kmValue * 1000 in
  let surveyFeet := meters / 0.30480061 in
  let inches := surveyFeet * 12 in
  let miles := surveyFeet / 5280 in
  if JS.geb inches 0.1 && (inches <? 12) then
    {| value := JS.toFixed_parse 3 inches; unit := "in" |}
  else if JS.geb surveyFeet 1 && (surveyFeet <? 5280) then
    {| value := JS.toFixed_parse 3 surveyFeet; unit := "ft" |}
  else
    {| value := JS.toFixed_parse 6 miles; unit := "mi" |}.

Definition formatDistanceWithDynamicUnits (kmValue : float) (unitSystem : string)
    : FormattedDistance :=
  if JS.isNaN kmValue || negb (JS.isFinite kmValue) || (kmValue <? 0) then
    {| value := 0; unit := getDefaultUnit unitSystem |}
  else if String.eqb unitSystem "feet" then formatInFeet kmValue
  else if String.eqb unitSystem "survey-feet" then formatInSurveyFeet kmValue
  else formatInMeters kmValue.

End UnitFormatter.

(** ** A reference [Math] object

    Statements about the distance engine hold for every [MathObject]; to
    evaluate the engine at concrete coordinates one is needed. This one
    computes the sine, the cosine and the arc tangent from the exact value
    of their arguments, by their power series in fixed-point arithmetic with
    256 binary places, and rounds the sum once to the nearest number: it is
    an engine whose functions are accurate far beyond the last bit. *)

Module ReferenceMath.

Local Open Scope Z_scope.

(** Fixed-point numbers with [p] binary places: the integer [v] stands for
    [v / 2^p]. *)
Definition fmul (p a b : Z) : Z := Z.shiftr (a * b) p.
Definition fdiv (p a b : Z) : Z := Z.shiftl a p / b.

(** [u - u^3/3 + u^5/5 - ...], from the term [term / (2k+1)] on. *)
Fixpoint atan_series (p : Z) (fuel : nat) (u2 term k : Z) : Z :=
  match fuel with
  | O => 0
  | S fuel' =>
      if term =? 0 then 0
      else term / (2 * k + 1) - atan_series p fuel' u2 (fmul p term u2) (k + 1)
  end.

(** The arc tangent of a fixed-point number between -1/2 and 1/2. *)
Definition atan_small (p u : Z) : Z := atan_series p 2000 (fmul p u u) u 0.

(** Pi with 1280 binary places, by Machin's formula; the argument of a sine
    is reduced with all of them, whatever its size. *)
Definition pi_1280 : Z :=
  Eval vm_compute in
    16 * atan_small 1280 (2 ^ 1280 / 5) - 4 * atan_small 1280 (2 ^ 1280 / 239).

(** The series are summed with 256 binary places. *)
Definition one : Z := 2 ^ 256.
Definition pi : Z := Eval vm_compute in Z.shiftr pi_1280 1024.

(** The arc tangent of a fixed-point number between 0 and 1. *)
Definition atan_unit (t : Z) : Z :=
  if 2 * t <=? one then atan_small 256 t
  else pi / 4 + atan_small 256 (fdiv 256 (t - one) (t + one)).

(** [term - term x^2/((k+1)(k+2)) + ...]: the sine series from [term = x],
    [k = 1], the cosine series from [term = 1], [k = 0]. *)
Fixpoint alternating_series (fuel : nat) (x2 term k : Z) : Z :=
  match fuel with
  | O => 0
  | S fuel' =>
      if term =? 0 then 0
      else term
           - alternating_series fuel' x2
               (fmul 256 term x2 / ((k + 1) * (k + 2))) (k + 2)
  end.

(** [m * 2^e] reduced to [-pi, pi], with 256 binary places. *)
Definition reduce (m : positive) (e : Z) : Z :=
  let r := Z.shiftl (Zpos m) (e + 1280) mod (2 * pi_1280) in
  Z.shiftr (if pi_1280 <? r then r - 2 * pi_1280 else r) 1024.

Definition sin_fixed (m : positive) (e : Z) : Z :=
  let r := reduce m e in alternating_series 2000 (fmul 256 r r) r 1.

Definition cos_fixed (m : positive) (e : Z) : Z :=
  let r := reduce m e in alternating_series 2000 (fmul 256 r r) one 0.

(** The number nearest to a fixed-point value, with a sign. *)
Definition of_fixed (neg : bool) (v : Z) : float :=
  match v with
  | Zpos p => JS.of_ratio neg p (Z.to_pos one)
  | _ => if neg then (-0)%float else 0%float
  end.

(** Below 2^-30 the sine of [x] rounds to [x] and its cosine to 1. *)
Definition tiny (m : positive) (e : Z) : bool := Zpos (digits2_pos m) + e <=? -30.

Definition sin (x : float) : float :=
  match Prim2SF x with
  | S754_finite s m e =>
      if tiny m e then x
      else
        let v := sin_fixed m e in
        if v <? 0 then of_fixed (negb s) (- v) else of_fixed s v
  | S754_infinity _ => nan
  | _ => x
  end.

Definition cos (x : float) : float :=
  match Prim2SF x with
  | S754_finite s m e =>
      if tiny m e then 1%float
      else
        let v := cos_fixed m e in
        if v <? 0 then of_fixed true (- v) else of_fixed false v
  | S754_zero _ => 1%float
  | _ => nan
  end.

(** The angle in (0, pi/2) whose tangent is [a / b]. *)
Definition angle (a b : Z) : Z :=
  if a <=? b then atan_unit (fdiv 256 a b)
  else pi / 2 - atan_unit (fdiv 256 b a).

Definition atan2 (y x : float) : float :=
  match Prim2SF y, Prim2SF x with
  | S754_nan, _ | _, S754_nan => nan
  | S754_zero sy, (S754_zero sx | S754_infinity sx | S754_finite sx _ _) =>
      if sx then of_fixed sy pi else y
  | S754_finite sy _ _, S754_zero _ => of_fixed sy (pi / 2)
  | S754_finite sy _ _, S754_infinity sx =>
      if sx then of_fixed sy pi else of_fixed sy 0
  | S754_finite sy my ey, S754_finite sx mx ex =>
      let a := Zpos my * 2 ^ Z.max 0 (ey - ex) in
      let b := Zpos mx * 2 ^ Z.max 0 (ex - ey) in
      if negb sx && (Z.shiftl a 60 <? b) then JS.of_ratio sy (Z.to_pos a) (Z.to_pos b)
      else of_fixed sy (if sx then pi - angle a b else angle a b)
  | S754_infinity sy, S754_infinity sx =>
      of_fixed sy (if sx then 3 * pi / 4 else pi / 4)
  | S754_infinity sy, _ => of_fixed sy (pi / 2)
  end.

(** [Math.pow(x, 2)] is one multiplication; the engine uses no other
    exponent, and this object answers NaN for those it does not know. *)
Definition pow (x y : float) : float :=
  if (y =? 2)%float then (x * x)%float
  else if (y =? 1)%float then x
  else if (y =? 0)%float then 1%float
  else nan.

Definition math : MathObject :=
  {| Math_sin := sin; Math_cos := cos; Math_atan2 := atan2; Math_pow := pow |}.

End ReferenceMath.

(** ** Closed forms of the matrix loops

    What [calculateDistanceMatrix]'s nested loops compute, stated without
    loops: the entry stored in each cell and the list of km observations that
    feeds the statistics. *)

Module MatrixSpec.

Import DistanceCalculator.

Section Entries.

Variable M : MathObject.
Variable coordinates : list Coordinate.

Definition entry2D (i j : nat) : option DistanceValue :=
  if (i =? j)%nat then Some zeroDistance
  else
    match nth_error coordinates i, nth_error coordinates j with
    | Some coord1, Some coord2 =>
        calculate2DDistance M (lat coord1) (lon coord1) (lat coord2) (lon coord2)
    | _, _ => None
    end.

Definition entry3D (i j : nat) : option DistanceValue :=
  if (i =? j)%nat then Some zeroDistance
  else
    match nth_error coordinates i, nth_error coordinates j with
    | Some coord1, Some coord2 =>
        calculate3DDistance M (lat coord1) (lon coord1) (elevation_or_0 coord1)
                              (lat coord2) (lon coord2) (elevation_or_0 coord2)
    | _, _ => None
    end.

End Entries.

(** The observation that cell [i][j] contributes: none on the diagonal and
    none for a [null] distance. *)
Definition observation (entry : nat -> nat -> option DistanceValue) (i j : nat)
    : list float :=
  if (i =? j)%nat then []
  else match entry i j with
       | Some dv => [km dv]
       | None => []
       end.

(** All observations, row by row. *)
Definition observations (entry : nat -> nat -> option DistanceValue) (n : nat)
    : list float :=
  flat_map (fun i => flat_map (observation entry i) (seq 0 n)) (seq 0 n).

Definition table (entry : nat -> nat -> option DistanceValue) (n : nat) : Matrix :=
  map (fun i => map (entry i) (seq 0 n)) (seq 0 n).

(** The writes of the nested loops on one matrix. *)
Definition fill (entry : nat -> nat -> option DistanceValue) (n : nat) (m : Matrix)
    : Matrix :=
  fold_left (fun m i => fold_left (fun m j => set_cell i j (entry i j) m) (seq 0 n) m)
            (seq 0 n) m.

(** The haversine term [a] of [calculate2DDistance], which is let-bound
    there. *)
Definition haversine_a (M : MathObject) (lat1 lon1 lat2 lon2 : float) : float :=
  let lat1Rad := toRadians lat1 in
  let lon1Rad := toRadians lon1 in
  let lat2Rad := toRadians lat2 in
  let lon2Rad := toRadians lon2 in
  let deltaLat := (lat2Rad - lat1Rad)%float in
  let deltaLon := (lon2Rad - lon1Rad)%float in
  (Math_sin M (deltaLat / 2) * Math_sin M (deltaLat / 2)
   + Math_cos M lat1Rad * Math_cos M lat2Rad
     * Math_sin M (deltaLon / 2) * Math_sin M (deltaLon / 2))%float.

(** The coordinate passes the range and finiteness predicate. *)
Definition valid (c : Coordinate) : Prop :=
  validateCoordinates (lat c) (lon c) = true.

(** The km values of the consecutive pairs of a path, in order. *)
Fixpoint consecutive_km (M : MathObject) (path : list Coordinate) : list float :=
  match path with
  | coord1 :: ((coord2 :: _) as rest) =>
      match calculate2DDistance M (lat coord1) (lon coord1) (lat coord2) (lon coord2) with
      | Some dv => km dv :: consecutive_km M rest
      | None => consecutive_km M rest
      end
  | _ => []
  end.

End MatrixSpec.

(** ** The round trip through degrees, minutes and seconds

    [decimalToDMS] followed by [dmsToDecimal] on its four components. *)
Definition dms_roundtrip (value : float) (includeCardinal : bool) : option float :=
  match CoordinateConverter.decimalToDMS value includeCardinal with
  | Some dms =>
      CoordinateConverter.dmsToDecimal
        (CoordinateConverter.degrees dms) (CoordinateConverter.minutes dms)
        (CoordinateConverter.seconds dms) (CoordinateConverter.cardinal dms)
  | None => None
  end.

(** ** Magnitudes and the guard of the formatter *)

(** The magnitude of [m * 2^e]: the number of binary digits of [m] plus [e],
    so that [2^(mag - 1) <= m * 2^e < 2^mag]. *)
Definition mag (m : positive) (e : Z) : Z := (Zpos (digits2_pos m) + e)%Z.

(** The guard of [formatDistanceWithDynamicUnits]: NaN, an infinity or a
    negative number. *)
Definition invalid_distance (kmValue : float) : bool :=
  JS.isNaN kmValue || negb (JS.isFinite kmValue) || (kmValue <? 0)%float.

(** ** Numbers as text: [Number::toString] and [Number.prototype.toFixed] *)

Module NumberText.

Local Open Scope string_scope.
Local Open Scope Z_scope.

(** The character of a digit from 0 to 9. *)
Definition digit_char (d : Z) : ascii := ascii_of_nat (48 + Z.to_nat d).

(** The decimal digits of a non-negative integer, most significant first;
    an integer below [2^fuel] has at most [fuel] of them. *)
Fixpoint digits_acc (fuel : nat) (z : Z) (acc : list ascii) : list ascii :=
  match fuel with
  | O => acc
  | S fuel' =>
      let acc' := digit_char (z mod 10) :: acc in
      if z <? 10 then acc' else digits_acc fuel' (z / 10) acc'
  end.

Definition digit_list (z : Z) : list ascii :=
  digits_acc (S (Z.to_nat (Z.log2 z))) z [].

Definition digits (z : Z) : string := string_of_list_ascii (digit_list z).

(** The last [f] decimal digits of a non-negative integer. *)
Fixpoint fraction (f : nat) (r : Z) : list ascii :=
  match f with
  | O => []
  | S f' => fraction f' (r / 10) ++ [digit_char (r mod 10)]
  end.

Fixpoint zeros (n : nat) : string :=
  match n with
  | O => ""
  | S n' => String "0" (zeros n')
  end.

(** The value [a / b * 10^j] as a ratio of integers. *)
Definition scale (a b j : Z) : Z * Z :=
  if 0 <=? j then (a * 10 ^ j, b) else (a, b * 10 ^ (- j)).

(** The positive value [m * 2^e] as a ratio of integers. *)
Definition ratio (m : positive) (e : Z) : Z * Z :=
  if 0 <=? e then (Zpos m * 2 ^ e, 1) else (Zpos m, 2 ^ (- e)).

(** The first [n] from [n0] on with [a / b < 10^n]. *)
Fixpoint first_above (fuel : nat) (a b n0 : Z) : Z :=
  match fuel with
  | O => n0
  | S fuel' =>
      let '(p, q) := scale 1 1 n0 in
      if a * q <? p * b then n0 else first_above fuel' a b (n0 + 1)
  end.

(** The integer [n] with [10^(n-1) <= a / b < 10^n]. *)
Definition decimal_exponent (a b : Z) : Z :=
  first_above 8 a b (((Z.log2 a - Z.log2 b) * 30103) / 100000 - 2).

(** Whether the number nearest to [s * 10^j] is the positive number [x]. *)
Definition reads_back (x : float) (s j : Z) : bool :=
  let '(p, q) := scale s 1 j in
  PrimFloat.eqb (JS.of_ratio false (Z.to_pos p) (Z.to_pos q)) x.

(** The digits [s], their number [k] and the exponent [n] of
    [Number::toString]: [s * 10^(n-k)] reads back as [x] with [k] as small
    as possible, [s] closest to [x] and even when two are as close. *)
Fixpoint shortest (fuel : nat) (x : float) (a b n0 : Z) (k : Z) : Z * Z * Z :=
  let '(num, den) := scale a b (k - n0) in
  let lo := num / den in
  let hi := lo + 1 in
  let up := if hi <? 10 ^ k then (hi, n0) else (10 ^ (k - 1), n0 + 1) in
  let ok_lo := reads_back x lo (n0 - k) in
  let ok_hi := reads_back x (fst up) (snd up - k) in
  let below := num - lo * den in
  let above := hi * den - num in
  let pick_lo := (lo, k, n0) in
  let pick_hi := (fst up, k, snd up) in
  match fuel with
  | O => if above <? below then pick_hi else pick_lo
  | S fuel' =>
      if ok_lo && ok_hi then
        if below <? above then pick_lo
        else if above <? below then pick_hi
        else if Z.even lo then pick_lo else pick_hi
      else if ok_lo then pick_lo
      else if ok_hi then pick_hi
      else shortest fuel' x a b n0 (k + 1)
  end.

(** Steps 6 to 10 of [Number::toString]: the layout of the digits. *)
Definition layout (s k n : Z) : string :=
  let ds := digits s in
  if (k <=? n) && (n <=? 21) then ds ++ zeros (Z.to_nat (n - k))
  else if (0 <? n) && (n <=? 21) then
    substring 0 (Z.to_nat n) ds ++ "." ++ substring (Z.to_nat n) (Z.to_nat (k - n)) ds
  else if (-6 <? n) && (n <=? 0) then "0." ++ zeros (Z.to_nat (- n)) ++ ds
  else
    let e := n - 1 in
    let c := if e <? 0 then "-" else "+" in
    if k =? 1 then ds ++ "e" ++ c ++ digits (Z.abs e)
    else substring 0 1 ds ++ "." ++ substring 1 (Z.to_nat (k - 1)) ds
         ++ "e" ++ c ++ digits (Z.abs e).

(** [String(x)], as in a template literal. *)
Definition toString (x : float) : string :=
  match Prim2SF x with
  | S754_nan => "NaN"
  | S754_zero _ => "0"
  | S754_infinity s => if s then "-Infinity" else "Infinity"
  | S754_finite s m e =>
      let '(a, b) := ratio m e in
      let '(d, k, n) := shortest 17 (abs x) a b (decimal_exponent a b) 1 in
      (if s then "-" else "") ++ layout d k n
  end.

(** The integer [n] of [toFixed] laid out with [f] digits after the point:
    the digits of [n], padded on the left with zeros to [f + 1] digits, with
    the point before the last [f]. *)
Definition fixed_point (f : nat) (n : Z) : string :=
  let p := 10 ^ Z.of_nat f in
  match f with
  | O => digits n
  | _ => digits (n / p) ++ "." ++ string_of_list_ascii (fraction f (n mod p))
  end.

(** [x.toFixed(f)] for [f] from 0 to 100. *)
Definition toFixed (f : nat) (x : float) : string :=
  match Prim2SF x with
  | S754_nan => "NaN"
  | S754_infinity s => if s then "-Infinity" else "Infinity"
  | S754_zero _ => fixed_point f 0
  | S754_finite s m e =>
      if (1e21 <=? abs x)%float then toString x
      else (if s then "-" else "") ++ fixed_point f (JS.toFixed_digits f m e)
  end.

End NumberText.

(** ** Arrays of strings: [split], [filter], [slice] and [join] *)

Module Text.

Import Str.

(** [s.split(sep)] for a pattern [sep] that matches the non-empty runs of
    the characters of one class: the pieces between the runs, the empty
    pieces at both ends included. *)
Fixpoint split_runs (sep : ascii -> bool) (s cur : list ascii) (skipping : bool)
    : list string :=
  match s with
  | [] => [string_of_list_ascii (rev cur)]
  | c :: s' =>
      if sep c then
        if skipping then split_runs sep s' [] true
        else string_of_list_ascii (rev cur) :: split_runs sep s' [] true
      else split_runs sep s' (c :: cur) false
  end.

(** [s.split(c)] for a one-character string [c]. *)
Fixpoint split_char (c0 : ascii) (s cur : list ascii) : list string :=
  match s with
  | [] => [string_of_list_ascii (rev cur)]
  | c :: s' =>
      if Ascii.eqb c c0 then string_of_list_ascii (rev cur) :: split_char c0 s' []
      else split_char c0 s' (c :: cur)
  end.

(** A string is truthy when it is not empty. *)
Definition truthy (s : string) : bool :=
  match s with
  | EmptyString => false
  | String _ _ => true
  end.

(** [parts.join(' ')]. *)
Definition join (parts : list string) : string := String.concat " " parts.

(** [parts.slice(i, j)]. *)
Definition slice (i j : nat) (parts : list string) : list string :=
  firstn (j - i) (skipn i parts).

(** [re.test(s)]. *)
Definition test (r : regex) (s : string) : bool :=
  match exec r s with
  | Some _ => true
  | None => false
  end.

End Text.

(** ** coordinate-parser.js: lines of text *)

Module CoordinateLines.

Import Str Text CoordinateParser.
Local Open Scope string_scope.

Record Parsed : Type := mkParsed {
  lat : float;
  lon : float;
  elevation : option float
}.

(** The class of [/[\s,;|\t]+/]. *)
Definition is_delimiter (c : ascii) : bool :=
  is_space c || Ascii.eqb c "," || Ascii.eqb c ";" || Ascii.eqb c "|"
  || Ascii.eqb c (ascii_of_nat 9).

(** [input.split(/[\s,;|\t]+/).filter(part => part.trim())]. *)
Definition parts_of (input : string) : list string :=
  filter (fun part => truthy (trim part))
         (split_runs is_delimiter (list_ascii_of_string input) [] false).

(** The inner loop of the search for a coordinate among more than three
    parts: the first window of [count] parts, from index [i] on, that
    [parseCoordinate] accepts, with the part after it read as the
    elevation. *)
Fixpoint find_window (fuel : nat) (parts : list string) (count i : nat)
    : option (string * option float) :=
  match fuel with
  | O => None
  | S fuel' =>
      let testStr := join (slice i (i + count) parts) in
      match parseCoordinate testStr with
      | Some _ =>
          Some (testStr,
                if (i + count <? length parts)%nat
                then Some (parseFloat (nth (i + count) parts ""))
                else None)
      | None => find_window fuel' parts count (S i)
      end
  end.

(** [for (let i = 0; i <= parts.length - count; i++)], entered when
    [parts.length >= count]. *)
Definition search_windows (parts : list string) (count : nat)
    : option (string * option float) :=
  if (count <=? length parts)%nat
  then find_window (length parts - count + 1) parts count 0
  else None.

(** [parseCoordinateWithElevation]: [None] is [null]; the elevation is
    [null] or a number (NaN when the part does not read as one). *)
Definition parseCoordinateWithElevation (input : string) : option Parsed :=
  let parts := parts_of input in
  if (length parts <? 2)%nat then None
  else
    let '(coordinateStr, elevation) :=
      if (length parts =? 2)%nat then (join parts, None)
      else if (length parts =? 3)%nat then
        (join (slice 0 2 parts), Some (parseFloat (nth 2 parts "")))
      else
        match search_windows parts 6 with
        | Some found => found
        | None =>
            match search_windows parts 2 with
            | Some found => found
            | None =>
                (join (slice 0 2 parts), Some (parseFloat (nth 2 parts "")))
            end
        end in
    match parseCoordinate coordinateStr with
    | None => None
    | Some coordinate =>
        let (latitude, longitude) := coordinate in
        Some {| lat := latitude; lon := longitude; elevation := elevation |}
    end.

(** The loop of [parseMultipleCoordinates] over the lines. *)
Fixpoint parse_lines (lines : list string) : list Parsed :=
  match lines with
  | [] => []
  | line :: rest =>
      let trimmedLine := trim line in
      if negb (truthy trimmedLine) then parse_lines rest
      else
        match parseCoordinateWithElevation trimmedLine with
        | Some coordWithElevation => coordWithElevation :: parse_lines rest
        | None => parse_lines rest
        end
  end.

Definition parseMultipleCoordinates (input : string) : list Parsed :=
  if negb (truthy input) then []
  else
    let lines :=
      filter (fun line => truthy (trim line))
             (split_char (ascii_of_nat 10) (list_ascii_of_string input) []) in
    parse_lines lines.

(** [detectFormat]. *)
Definition detectFormat (input : string) : string :=
  if negb (truthy input) then "unknown"
  else
    let trimmedInput := trim input in
    if test dmsWithCardinal trimmedInput || test dmsWithSymbols trimmedInput
       || test dmsSpaceSeparated trimmedInput
    then "dms"
    else if test decimalWithCardinal trimmedInput || test decimalDegrees trimmedInput
    then "decimal"
    else "unknown".

End CoordinateLines.

(** ** coordinate-converter.js: formatting *)

Module ConverterText.

Import CoordinateConverter.
Local Open Scope string_scope.
Local Open Scope float_scope.

Definition quote : string := String (ascii_of_nat 34) EmptyString.

(** [formatDMS(dms, includeSymbols)]; [dms] is [null] or an object. *)
Definition formatDMS (dms : option DMS) (includeSymbols : bool) : string :=
  match dms with
  | None => ""
  | Some dms =>
      let tail := if Text.truthy (cardinal dms) then " " ++ cardinal dms else "" in
      if includeSymbols then
        NumberText.toString (JS.Math_abs (degrees dms)) ++ "° "
        ++ NumberText.toString (minutes dms) ++ "' "
        ++ NumberText.toFixed dmsPrecision (seconds dms) ++ quote ++ tail
      else
        NumberText.toString (JS.Math_abs (degrees dms)) ++ " "
        ++ NumberText.toString (minutes dms) ++ " "
        ++ NumberText.toFixed dmsPrecision (seconds dms) ++ tail
  end.

(** [formatDecimal(decimalDegrees, precision)]. *)
Definition formatDecimal (decimalDegrees : float) (precision : nat) : string :=
  if JS.isNaN decimalDegrees || negb (JS.isFinite decimalDegrees) then ""
  else NumberText.toFixed precision decimalDegrees.

Record TextPair : Type := mkTextPair { lat_text : string; lon_text : string }.

Definition convertToDMS (lat lon : float) : TextPair :=
  let latDMS := decimalToDMS lat true in
  let lonDMS := decimalToDMS lon true in
  {| lat_text := formatDMS latDMS true; lon_text := formatDMS lonDMS true |}.

Definition convertToDecimal (latStr lonStr : string) : LatLon :=
  {| lat := Str.parseFloat latStr; lon := Str.parseFloat lonStr |}.

Definition tab : string := String (ascii_of_nat 9) EmptyString.

Definition formatForClipboard (lat lon : float) : string :=
  formatDecimal lat decimalPrecision ++ tab ++ formatDecimal lon decimalPrecision.

Definition formatForDisplay (lat lon : float) (separator : string) : string :=
  formatDecimal lat decimalPrecision ++ separator ++ formatDecimal lon decimalPrecision.

Definition convertWithElevation (lat lon elevation : float) (elevationUnit : string)
    : DistanceCalculator.Coordinate :=
  let elevationInMeters :=
    if String.eqb elevationUnit "feet" then elevation * 0.3048
    else if String.eqb elevationUnit "survey-feet" then elevation * 0.30480061
    else if String.eqb elevationUnit "ellipsoidal" then elevation
    else elevation in
  DistanceCalculator.mkCoordinate lat lon (Some elevationInMeters).

End ConverterText.

(** ** distance-calculator.js: units and display *)

Module CalculatorUnits.

Local Open Scope string_scope.
Local Open Scope float_scope.

Definition toDegrees (radians : float) : float := radians * (180 / JS.Math_PI).

(** [formatDistance(distance, unit, precision)]. *)
Definition formatDistance (distance : float) (unit : string) (precision : nat)
    : string :=
  if JS.isNaN distance || negb (JS.isFinite distance) then "N/A"
  else NumberText.toFixed precision distance ++ " " ++ unit.

(** [convertElevation(elevation, fromUnit, toUnit)]. *)
Definition convertElevation (elevation : float) (fromUnit toUnit : string) : float :=
  if String.eqb fromUnit toUnit then elevation
  else
    let meters :=
      if String.eqb fromUnit "meters" then Some elevation
      else if String.eqb fromUnit "feet" then Some (elevation * 0.3048)
      else if String.eqb fromUnit "survey-feet" then Some (elevation * 0.30480061)
      else None in
    match meters with
    | None => elevation
    | Some meters =>
        if String.eqb toUnit "meters" then meters
        else if String.eqb toUnit "feet" then meters / 0.3048
        else if String.eqb toUnit "survey-feet" then meters / 0.30480061
        else meters
    end.

End CalculatorUnits.

(** ** script.js: the application *)

Module App.

Import DistanceCalculator.
Local Open Scope string_scope.
Local Open Scope float_scope.

(** [getDistanceAssessment(horizontal, vertical)]. *)
Definition getDistanceAssessment (horizontal vertical : float) : string :=
  let total := JS.Math_sqrt (horizontal * horizontal + vertical * vertical) in
  if total <? 0.001 then
    "Exceptional precision — sub-millimeter accuracy (First Order Survey)"
  else if total <? 0.003 then
    "Excellent precision — sub-3mm accuracy (First Order Survey)"
  else if total <? 0.01 then
    "High precision — sub-1cm accuracy (Second Order Class I)"
  else if total <? 0.03 then
    "Good precision — sub-3cm accuracy (Second Order Class II)"
  else if total <? 0.1 then
    "Acceptable precision — sub-10cm accuracy (Third Order)"
  else if total <? 0.3 then
    "Moderate precision — sub-30cm accuracy (Third Order)"
  else if total <? 1 then
    "Low precision — sub-1m accuracy (Fourth Order)"
  else
    "Poor precision — 1m+ accuracy (Below survey standards)".

(** The text inputs of one row of the manual table, and the value of the
    checked elevation-unit radio button, if one is checked. *)
Record Row : Type := mkRow {
  nameInput : string;
  latInput : string;
  lonInput : string;
  elevInput : string;
  elevUnit : option string
}.

(** An element of [this.coordinates]: [lat], [lon] and [elevation] are
    [null] or numbers. *)
Record Entry : Type := mkEntry {
  name : option string;
  lat : option float;
  lon : option float;
  elevation : option float
}.

(** [parseFloat(text) || null]: NaN and both zeros are falsy. *)
Definition number_or_null (text : string) : option float :=
  let v := Str.parseFloat text in
  if JS.isNaN v || (v =? 0) then None else Some v.

(** The body of the [forEach] of [updateCoordinatesFromManual]. *)
Definition entry_of_row (index : nat) (row : Row) : Entry :=
  let name := Str.trim (nameInput row) in
  let lat := number_or_null (latInput row) in
  let lon := number_or_null (lonInput row) in
  let elevation := number_or_null (elevInput row) in
  let elevation :=
    match elevation, elevUnit row with
    | Some e, Some unit => Some (CalculatorUnits.convertElevation e unit "meters")
    | _, _ => elevation
    end in
  {| name := Some (if Text.truthy name then name else label index);
     lat := lat; lon := lon; elevation := elevation |}.

Fixpoint entries_from (index : nat) (rows : list Row) : list Entry :=
  match rows with
  | [] => []
  | row :: rest => entry_of_row index row :: entries_from (S index) rest
  end.

(** [updateCoordinatesFromManual]: the new value of [this.coordinates]. *)
Definition updateCoordinatesFromManual (rows : list Row) : list Entry :=
  entries_from 0 rows.

(** The filter of [handleDistanceCalculation] and of
    [handleParseCoordinates]; an entry that passes has numbers for [lat]
    and [lon]. *)
Definition usable (coord : Entry) : option Coordinate :=
  match lat coord, lon coord with
  | Some lat, Some lon =>
      if negb (JS.isNaN lat) && negb (JS.isNaN lon)
         && JS.isFinite lat && JS.isFinite lon
      then Some (mkCoordinate lat lon (elevation coord))
      else None
  | _, _ => None
  end.

Fixpoint validCoordinates (coordinates : list Entry) : list Coordinate :=
  match coordinates with
  | [] => []
  | coord :: rest =>
      match usable coord with
      | Some c => c :: validCoordinates rest
      | None => validCoordinates rest
      end
  end.

(** What [handleDistanceCalculation] shows: an error message or the
    results. *)
Definition handleDistanceCalculation (M : MathObject) (rows : list Row)
    (show2D show3D : bool) : string + MatrixResult :=
  let validCoordinates := validCoordinates (updateCoordinatesFromManual rows) in
  if (length validCoordinates <? 2)%nat then
    inl "At least 2 valid coordinates are required for distance calculation. Please check your input values."
  else if negb show2D && negb show3D then
    inl "Please select at least one distance type (2D or 3D)."
  else
    match calculateDistanceMatrix M validCoordinates show2D show3D with
    | None => inl "Error calculating distances. Please check your coordinates."
    | Some results => inr results
    end.

End App.

(** ** Closed form of the cumulative loop *)

Module PathSpec.

Import DistanceCalculator.

(** The segment that iteration [i] of [calculateCumulativeDistance] adds:
    none when the distance between points [i] and [i + 1] is [null]. *)
Definition segment_at (M : MathObject) (coordinates : list Coordinate)
    (include3D : bool) (i : nat) : list Segment :=
  match nth_error coordinates i, nth_error coordinates (i + 1) with
  | Some coord1, Some coord2 =>
      match (if include3D then
               calculate3DDistance M (lat coord1) (lon coord1) (elevation_or_0 coord1)
                                     (lat coord2) (lon coord2) (elevation_or_0 coord2)
             else
               calculate2DDistance M (lat coord1) (lon coord1) (lat coord2) (lon coord2))
      with
      | Some dv => [{| from := i + 1; to := i + 2; distance := dv |}]
      | None => []
      end
  | _, _ => []
  end.

End PathSpec.

(** ** The value of a number

    A finite binary64 number is a multiple of [2^-1074]; [scaled] is that
    multiple, so that numbers compare like their [scaled] integers. The
    infinities are given a magnitude beyond every finite one. *)

Module FloatValue.

Local Open Scope Z_scope.

Definition scaled (x : spec_float) : Z :=
  match x with
  | S754_zero _ | S754_nan => 0
  | S754_infinity s => cond_Zopp s (2 ^ 2100)
  | S754_finite s m e => cond_Zopp s (Zpos m * 2 ^ (e + 1074))
  end.

Definition not_nan (x : spec_float) : Prop := x <> S754_nan.

(** The value of a number, and the order of the values. *)
Definition key (x : float) : Z := scaled (Prim2SF x).

Definition key_le (x y : float) : Prop := key x <= key y.

(** A number is finite: zero or a finite non-zero number. *)
Definition finite (x : spec_float) : Prop :=
  match x with
  | S754_zero _ | S754_finite _ _ _ => True
  | _ => False
  end.

(** The magnitude of a finite number is at most [2^t]. *)
Definition within (t : Z) (x : spec_float) : Prop :=
  finite x /\ Z.abs (scaled x) <= 2 ^ (t + 1074).

End FloatValue.

(** ** What a pattern can consume *)

Module RegexSpec.

Import Str.

(** Every character that [r] can consume satisfies [q]. *)
Fixpoint consumes_only (q : ascii -> bool) (r : regex) : Prop :=
  match r with
  | Chr p => forall c, p c = true -> q c = true
  | Seq r1 r2 | Alt r1 r2 => consumes_only q r1 /\ consumes_only q r2
  | Star r1 | Group _ r1 => consumes_only q r1
  | _ => True
  end.

(** The continuation that ends a match. *)
Definition accept : cont := fun _ _ c => Some c.

(** The characters of a decimal numeral and of the white space between two
    of them. *)
Definition plain (c : ascii) : bool :=
  is_digit c || Ascii.eqb "-" c || Ascii.eqb "." c || is_space c.

(** A decimal numeral with a fraction: an optional minus sign, digits, a
    point and digits. *)
Definition numeral (neg : bool) (I F : list ascii) : list ascii :=
  (if neg then ["-"%char] else []) ++ I ++ "."%char :: F.

End RegexSpec.

(** * Properties *)

(** ** Algebra of binary64 operations used below *)

Section FloatAlgebra.

Local Open Scope float_scope.

Lemma SFopp_binary_round_aux (s : bool) (m e : Z) (l : location) :
  SFopp (binary_round_aux prec emax s m e l)
  = binary_round_aux prec emax (negb s) m e l.
Proof.
  unfold binary_round_aux.
  destruct (shr_fexp prec emax m e l) as [mrs' e'].
  destruct (shr_fexp prec emax _ e' loc_Exact) as [mrs'' e''].
  destruct (shr_m mrs''); [reflexivity | | reflexivity].
  destruct (Z.leb e'' (emax - prec)); reflexivity.
Qed.

Lemma SFopp_binary_round (s : bool) (m : positive) (e : Z) :
  SFopp (binary_round prec emax s m e) = binary_round prec emax (negb s) m e.
Proof.
  unfold binary_round.
  destruct (shl_align m e _) as [mz ez]. apply SFopp_binary_round_aux.
Qed.

Lemma SFmul_comm (x y : spec_float) : SFmul prec emax x y = SFmul prec emax y x.
Proof.
  destruct x as [sx|sx| |sx mx ex], y as [sy|sy| |sy my ey]; simpl;
    try rewrite (xorb_comm sx sy); try reflexivity.
  now rewrite Pos.mul_comm, Z.add_comm.
Qed.

Lemma SFmul_opp_l (x y : spec_float) :
  SFmul prec emax (SFopp x) y = SFopp (SFmul prec emax x y).
Proof.
  destruct x as [sx|sx| |sx mx ex], y as [sy|sy| |sy my ey]; simpl;
    rewrite ?SFopp_binary_round_aux; try rewrite negb_xorb_l; reflexivity.
Qed.

Lemma SFdiv_opp_l (x y : spec_float) :
  SFdiv prec emax (SFopp x) y = SFopp (SFdiv prec emax x y).
Proof.
  destruct x as [sx|sx| |sx mx ex], y as [sy|sy| |sy my ey]; simpl;
    try rewrite negb_xorb_l; try reflexivity.
  destruct (SFdiv_core_binary prec emax _ ex _ ey) as [[mz ez] lz].
  now rewrite SFopp_binary_round_aux, negb_xorb_l.
Qed.

Lemma SFopp_involutive (x : spec_float) : SFopp (SFopp x) = x.
Proof. destruct x; simpl; rewrite ?negb_involutive; reflexivity. Qed.

Lemma binary_normalize_opp (z e : Z) :
  z <> 0%Z ->
  binary_normalize prec emax (- z) e false
  = SFopp (binary_normalize prec emax z e false).
Proof.
  destruct z; simpl; intros H; [congruence | |];
    now rewrite SFopp_binary_round.
Qed.

(** Swapping the operands of a subtraction negates the result, except that
    equal operands give [+0] both ways. *)
Lemma SFsub_swap (x y : spec_float) :
  SFsub prec emax y x = SFopp (SFsub prec emax x y)
  \/ (SFsub prec emax y x = S754_zero false
      /\ SFsub prec emax x y = S754_zero false).
Proof.
  destruct x as [sx|sx| |sx mx ex], y as [sy|sy| |sy my ey]; simpl;
    try (destruct sx, sy; simpl; auto; fail);
    try (rewrite ?negb_involutive; auto; fail).
  rewrite (Z.min_comm ey ex).
  set (a := cond_Zopp sx _). set (b := cond_Zopp sy _).
  destruct (Z.eq_dec (a - b) 0) as [E|E].
  - right. replace (b - a)%Z with 0%Z by lia. rewrite E. auto.
  - left. replace (b - a)%Z with (- (a - b))%Z by lia.
    now apply binary_normalize_opp.
Qed.

Lemma mul_comm (x y : float) : x * y = y * x.
Proof. apply Prim2SF_inj. rewrite !mul_spec. apply SFmul_comm. Qed.

Lemma mul_opp_l (x y : float) : (- x) * y = - (x * y).
Proof.
  apply Prim2SF_inj. rewrite opp_spec, !mul_spec, opp_spec. apply SFmul_opp_l.
Qed.

Lemma mul_opp_r (x y : float) : x * (- y) = - (x * y).
Proof. now rewrite mul_comm, mul_opp_l, mul_comm. Qed.

Lemma opp_involutive (x : float) : - (- x) = x.
Proof. apply Prim2SF_inj. rewrite !opp_spec. apply SFopp_involutive. Qed.

Lemma mul_opp_opp (x y : float) : (- x) * (- y) = x * y.
Proof. now rewrite mul_opp_l, mul_opp_r, opp_involutive. Qed.

Lemma div_opp_l (x y : float) : (- x) / y = - (x / y).
Proof.
  apply Prim2SF_inj. rewrite opp_spec, !div_spec, opp_spec. apply SFdiv_opp_l.
Qed.

Lemma sub_swap (x y : float) : y - x = - (x - y) \/ (y - x = 0 /\ x - y = 0).
Proof.
  destruct (SFsub_swap (Prim2SF x) (Prim2SF y)) as [H|[H1 H2]].
  - left. apply Prim2SF_inj. now rewrite opp_spec, !sub_spec.
  - right. split; apply Prim2SF_inj; rewrite sub_spec; assumption.
Qed.

End FloatAlgebra.

(** The reference sine is an odd function, as the sine of the usual engines. *)
Lemma SF2Prim_opp (r : spec_float) : SF2Prim (SFopp r) = (- SF2Prim r)%float.
Proof.
  destruct r as [[|]|[|]| |[|] m e]; simpl; try reflexivity.
  now rewrite opp_involutive.
Qed.

Lemma of_ratio_negb (s : bool) (n d : positive) :
  JS.of_ratio (negb s) n d = (- JS.of_ratio s n d)%float.
Proof.
  unfold JS.of_ratio. rewrite <- SF2Prim_opp, <- SFdiv_opp_l. reflexivity.
Qed.

Lemma of_fixed_negb (s : bool) (v : Z) :
  ReferenceMath.of_fixed (negb s) v = (- ReferenceMath.of_fixed s v)%float.
Proof.
  unfold ReferenceMath.of_fixed. destruct v; try (destruct s; reflexivity).
  apply of_ratio_negb.
Qed.

Lemma reference_sin_odd (x : float) :
  ReferenceMath.sin (- x)%float = (- ReferenceMath.sin x)%float.
Proof.
  unfold ReferenceMath.sin. rewrite opp_spec.
  destruct (Prim2SF x) as [s|s| |s m e] eqn:E; cbn [SFopp]; try reflexivity.
  destruct (ReferenceMath.tiny m e); [reflexivity|].
  destruct (ReferenceMath.sin_fixed m e <? 0)%Z; apply of_fixed_negb.
Qed.

(** Two numbers that a comparison tells apart are different. *)
Ltac float_neq :=
  let H := fresh in
  intros H;
  match type of H with
  | ?a = ?b => apply (f_equal (fun x => PrimFloat.eqb x b)) in H
  end;
  vm_compute in H; discriminate.

(** ** Lists updated by index *)

Section ListUpdate.
Context {A : Type}.

Lemma length_update (i : nat) (v : A) (l : list A) : length (update i v l) = length l.
Proof.
  revert i; induction l as [|x l IH]; intros [|i]; simpl; auto.
Qed.

Lemma nth_error_update_eq (i : nat) (v : A) (l : list A) :
  i < length l -> nth_error (update i v l) i = Some v.
Proof.
  revert i; induction l as [|x l IH]; intros [|i]; simpl; intros H; try lia; auto.
  apply IH; lia.
Qed.

Lemma nth_error_update_ne (i j : nat) (v : A) (l : list A) :
  i <> j -> nth_error (update i v l) j = nth_error l j.
Proof.
  revert i j; induction l as [|x l IH]; intros [|i] [|j]; simpl; intros H; try lia; auto.
Qed.

Lemma update_update (i : nat) (v w : A) (l : list A) :
  update i v (update i w l) = update i v l.
Proof.
  revert i; induction l as [|x l IH]; intros [|i]; simpl; auto. now rewrite IH.
Qed.

Lemma update_app_r (v : A) (l1 l2 : list A) :
  update (length l1) v (l1 ++ l2) = l1 ++ update 0 v l2.
Proof.
  induction l1 as [|x l1 IH]; simpl; [reflexivity|].
  destruct l2; simpl in *; now rewrite IH.
Qed.

Lemma skipn_cons_nth (k : nat) (l : list A) (x : A) :
  nth_error l k = Some x -> skipn k l = x :: skipn (S k) l.
Proof.
  revert l; induction k as [|k IH]; intros [|y l]; simpl; intros H; try discriminate.
  - now inversion H.
  - now apply IH.
Qed.

(** Writing [g j] at every index [j < k], in increasing order. *)
Lemma fold_update_seq (g : nat -> A) (k : nat) (l : list A) :
  k <= length l ->
  fold_left (fun l j => update j (g j) l) (seq 0 k) l = map g (seq 0 k) ++ skipn k l.
Proof.
  induction k as [|k IH]; intros Hk; [reflexivity|].
  rewrite seq_S, fold_left_app, IH by lia. simpl.
  destruct (nth_error l k) as [x|] eqn:E.
  2:{ apply nth_error_None in E. lia. }
  rewrite (skipn_cons_nth _ _ _ E).
  replace k with (length (map g (seq 0 k))) at 1 by now rewrite length_map, length_seq.
  rewrite update_app_r. simpl. rewrite map_app. simpl. now rewrite <- app_assoc.
Qed.

Lemma fold_update_all (g : nat -> A) (l : list A) :
  fold_left (fun l j => update j (g j) l) (seq 0 (length l)) l = map g (seq 0 (length l)).
Proof.
  rewrite fold_update_seq by lia. now rewrite skipn_all, app_nil_r.
Qed.

(** Two loop bodies that agree on the states satisfying an invariant give the
    same result. *)
Lemma fold_left_inv {S I : Type} (P : S -> Prop) (f g : S -> I -> S) (l : list I) (s : S) :
  P s ->
  (forall s i, P s -> In i l -> f s i = g s i /\ P (g s i)) ->
  fold_left f l s = fold_left g l s /\ P (fold_left g l s).
Proof.
  revert s; induction l as [|i l IH]; intros s Hs H; simpl; [auto|].
  destruct (H s i Hs (or_introl eq_refl)) as [E Hp]. rewrite E.
  apply IH; [assumption|]. intros s' i' Hs' Hi'. apply H; [assumption | now right].
Qed.

End ListUpdate.

(** ** Facts about the distance engine *)

Module DistanceFacts.

Import DistanceCalculator.
Local Open Scope float_scope.

(** *** The great-circle distance does not depend on the order of its points *)

Section Symmetry.

Variable M : MathObject.
Hypothesis sin_odd : forall x, Math_sin M (- x) = - Math_sin M x.

Lemma sin_half_swap (x y : float) :
  Math_sin M ((y - x) / 2) = - Math_sin M ((x - y) / 2)
  \/ Math_sin M ((y - x) / 2) = Math_sin M ((x - y) / 2).
Proof.
  destruct (sub_swap x y) as [E|[E1 E2]].
  - left. now rewrite E, div_opp_l, sin_odd.
  - right. now rewrite E1, E2.
Qed.

Lemma haversine_term_swap (u x y : float) :
  u * Math_sin M ((y - x) / 2) * Math_sin M ((y - x) / 2)
  = u * Math_sin M ((x - y) / 2) * Math_sin M ((x - y) / 2).
Proof.
  destruct (sin_half_swap x y) as [E|E]; rewrite E; [|reflexivity].
  now rewrite (mul_opp_r u), mul_opp_opp.
Qed.

Lemma sin_square_swap (x y : float) :
  Math_sin M ((y - x) / 2) * Math_sin M ((y - x) / 2)
  = Math_sin M ((x - y) / 2) * Math_sin M ((x - y) / 2).
Proof.
  destruct (sin_half_swap x y) as [E|E]; rewrite E; [|reflexivity].
  apply mul_opp_opp.
Qed.

Lemma calculate2DDistance_sym (lat1 lon1 lat2 lon2 : float) :
  calculate2DDistance M lat1 lon1 lat2 lon2
  = calculate2DDistance M lat2 lon2 lat1 lon1.
Proof.
  unfold calculate2DDistance.
  rewrite (orb_comm (negb (validateCoordinates lat1 lon1))).
  destruct (negb (validateCoordinates lat2 lon2) || negb (validateCoordinates lat1 lon1));
    [reflexivity|].
  cbv zeta.
  rewrite (sin_square_swap (toRadians lat1) (toRadians lat2)).
  rewrite (haversine_term_swap _ (toRadians lon1) (toRadians lon2)).
  rewrite (mul_comm (Math_cos M (toRadians lat1))).
  reflexivity.
Qed.

End Symmetry.

Section Engine.

Variable M : MathObject.

Lemma calculate2DDistance_valid (lat1 lon1 lat2 lon2 : float) :
  validateCoordinates lat1 lon1 = true ->
  validateCoordinates lat2 lon2 = true ->
  exists d, calculate2DDistance M lat1 lon1 lat2 lon2 = Some d.
Proof.
  intros H1 H2. unfold calculate2DDistance. rewrite H1, H2. simpl. eauto.
Qed.

Lemma calculate2DDistance_invalid (lat1 lon1 lat2 lon2 : float) :
  validateCoordinates lat1 lon1 = false \/ validateCoordinates lat2 lon2 = false ->
  calculate2DDistance M lat1 lon1 lat2 lon2 = None.
Proof.
  intros [H|H]; unfold calculate2DDistance; rewrite H; simpl;
    [reflexivity | now rewrite orb_true_r].
Qed.

(** The result for two valid points, in terms of the haversine term. *)
Lemma calculate2DDistance_haversine (lat1 lon1 lat2 lon2 : float) :
  validateCoordinates lat1 lon1 = true ->
  validateCoordinates lat2 lon2 = true ->
  calculate2DDistance M lat1 lon1 lat2 lon2
  = let a := MatrixSpec.haversine_a M lat1 lon1 lat2 lon2 in
    let c := 2 * Math_atan2 M (JS.Math_sqrt a) (JS.Math_sqrt (1 - a)) in
    Some {| km := JS.toFixed_parse 6 (earthRadiusKm * c);
            miles := JS.toFixed_parse 6 (earthRadiusMiles * c) |}.
Proof.
  intros H1 H2. unfold calculate2DDistance. rewrite H1, H2. reflexivity.
Qed.

Lemma calculate3DDistance_valid (lat1 lon1 e1 lat2 lon2 e2 : float) :
  validateCoordinates lat1 lon1 = true ->
  validateCoordinates lat2 lon2 = true ->
  exists d, calculate3DDistance M lat1 lon1 e1 lat2 lon2 e2 = Some d.
Proof.
  intros H1 H2. unfold calculate3DDistance.
  destruct (calculate2DDistance_valid _ _ _ _ H1 H2) as [d ->].
  destruct (_ || _); eauto.
Qed.

End Engine.

End DistanceFacts.

Module MatrixFacts.

Import DistanceCalculator MatrixSpec DistanceFacts.

Lemma createEmptyMatrix_shape (n : nat) :
  length (createEmptyMatrix n) = n
  /\ Forall (fun row => length row = n) (createEmptyMatrix n).
Proof.
  unfold createEmptyMatrix. split; [apply repeat_length|].
  apply Forall_forall. intros row H. apply repeat_spec in H. subst.
  apply repeat_length.
Qed.

(** The inner loop rewrites row [i] cell by cell. *)
Lemma fill_row (g : nat -> option DistanceValue) (i : nat) (js : list nat)
    (m : Matrix) (row : list (option DistanceValue)) :
  nth_error m i = Some row ->
  fold_left (fun m j => set_cell i j (g j) m) js m
  = update i (fold_left (fun r j => update j (g j) r) js row) m.
Proof.
  revert m row; induction js as [|j js IH]; intros m row Hrow; simpl.
  - revert i Hrow; induction m as [|x m IHm]; intros [|i]; simpl; intros H;
      try discriminate.
    + now inversion H.
    + f_equal. now apply IHm.
  - assert (Hi : i < length m) by (apply nth_error_Some; congruence).
    unfold set_cell at 2. rewrite Hrow.
    rewrite (IH _ (update j (g j) row)) by now apply nth_error_update_eq.
    apply update_update.
Qed.

Lemma fill_table (entry : nat -> nat -> option DistanceValue) (n : nat) (m : Matrix) :
  length m = n -> Forall (fun row => length row = n) m ->
  fill entry n m = table entry n.
Proof.
  intros Hlen Hrows. unfold fill, table.
  pose (P := fun m : Matrix => length m = n /\ Forall (fun row => length row = n) m).
  destruct (fold_left_inv P
              (fun m i => fold_left (fun m j => set_cell i j (entry i j) m) (seq 0 n) m)
              (fun m i => update i (map (entry i) (seq 0 n)) m)
              (seq 0 n) m) as [E _].
  - split; assumption.
  - intros m' i [Hl Hr] Hi. apply in_seq in Hi.
    destruct (nth_error m' i) as [row|] eqn:Er.
    2:{ apply nth_error_None in Er. lia. }
    assert (Hrow : length row = n).
    { rewrite Forall_forall in Hr. apply Hr. eapply nth_error_In; eauto. }
    split.
    + rewrite (fill_row _ _ _ _ _ Er). f_equal.
      rewrite <- Hrow at 1. rewrite fold_update_all. now rewrite Hrow.
    + split; [now rewrite length_update|].
      apply Forall_forall. intros r Hin.
      apply In_nth_error in Hin. destruct Hin as [k Hk].
      destruct (Nat.eq_dec i k) as [->|Hne].
      * rewrite nth_error_update_eq in Hk by lia. inversion Hk.
        now rewrite length_map, length_seq.
      * rewrite nth_error_update_ne in Hk by assumption.
        rewrite Forall_forall in Hr. apply Hr. eapply nth_error_In; eauto.
  - rewrite E. rewrite <- Hlen. apply fold_update_all.
Qed.

Lemma table_cell (entry : nat -> nat -> option DistanceValue) (n i j : nat) :
  i < n -> j < n -> get_cell (table entry n) i j = Some (entry i j).
Proof.
  intros Hi Hj. unfold get_cell, table.
  rewrite nth_error_map, nth_error_seq.
  destruct (Nat.ltb_spec i n); [simpl | lia].
  rewrite nth_error_map, nth_error_seq.
  destruct (Nat.ltb_spec j n); [reflexivity | lia].
Qed.

Lemma table_shape (entry : nat -> nat -> option DistanceValue) (n : nat) :
  length (table entry n) = n
  /\ Forall (fun row => length row = n) (table entry n).
Proof.
  unfold table. split; [now rewrite length_map, length_seq|].
  apply Forall_forall. intros row H. apply in_map_iff in H.
  destruct H as [i [<- _]]. now rewrite length_map, length_seq.
Qed.

(** A state component that the loop body updates like one matrix and one
    list of observations is, after the loops, the filled matrix and all the
    observations. *)
Lemma loops_projection {S : Type} (pm : S -> option Matrix) (pd : S -> list float)
    (step : nat -> S -> nat -> S) (entry : nat -> nat -> option DistanceValue)
    (n : nat) :
  (forall i j st m, i < n -> j < n -> pm st = Some m ->
     pm (step i st j) = Some (set_cell i j (entry i j) m)
     /\ pd (step i st j) = pd st ++ observation entry i j) ->
  forall st m, pm st = Some m ->
    pm (fold_left (fun st i => fold_left (step i) (seq 0 n) st) (seq 0 n) st)
    = Some (fill entry n m)
    /\ pd (fold_left (fun st i => fold_left (step i) (seq 0 n) st) (seq 0 n) st)
       = pd st ++ observations entry n.
Proof.
  intros Hstep.
  assert (Hinner : forall i js, i < n -> Forall (fun j => j < n) js ->
            forall st m, pm st = Some m ->
              pm (fold_left (step i) js st)
              = Some (fold_left (fun m j => set_cell i j (entry i j) m) js m)
              /\ pd (fold_left (step i) js st)
                 = pd st ++ flat_map (observation entry i) js).
  { intros i js Hi. induction js as [|j js IH]; intros Hjs st m Hm; simpl.
    - now rewrite app_nil_r.
    - inversion Hjs as [|? ? Hj Hjs']; subst.
      destruct (Hstep i j st m Hi Hj Hm) as [Hm' Hd'].
      destruct (IH Hjs' _ _ Hm') as [Hm'' Hd''].
      split; [assumption|]. now rewrite Hd'', Hd', <- app_assoc. }
  assert (Hseq : Forall (fun j => j < n) (seq 0 n)).
  { apply Forall_forall. intros j Hj. apply in_seq in Hj. lia. }
  assert (Houter : forall rs, Forall (fun i => i < n) rs ->
            forall st m, pm st = Some m ->
              pm (fold_left (fun st i => fold_left (step i) (seq 0 n) st) rs st)
              = Some (fold_left
                        (fun m i => fold_left (fun m j => set_cell i j (entry i j) m)
                                              (seq 0 n) m) rs m)
              /\ pd (fold_left (fun st i => fold_left (step i) (seq 0 n) st) rs st)
                 = pd st ++ flat_map (fun i => flat_map (observation entry i) (seq 0 n)) rs).
  { induction rs as [|i rs IH]; intros Hrs st m Hm; simpl.
    - now rewrite app_nil_r.
    - inversion Hrs as [|? ? Hi Hrs']; subst.
      destruct (Hinner i (seq 0 n) Hi Hseq st m Hm) as [Hm' Hd'].
      destruct (IH Hrs' _ _ Hm') as [Hm'' Hd''].
      split; [assumption|]. now rewrite Hd'', Hd', <- app_assoc. }
  intros st m Hm. exact (Houter (seq 0 n) Hseq st m Hm).
Qed.

End MatrixFacts.

Module LoopFacts.

Import DistanceCalculator MatrixSpec DistanceFacts MatrixFacts.
Local Open Scope float_scope.

Section Loops.

Variable M : MathObject.
Variable coordinates : list Coordinate.

Let n := length coordinates.

Lemma matrix_step_2D (i j : nat) (st : MatrixState) (m : Matrix) :
  (i < n)%nat -> (j < n)%nat -> st_matrix2D st = Some m ->
  st_matrix2D (matrix_step M coordinates i st j)
  = Some (set_cell i j (entry2D M coordinates i j) m)
  /\ distances2D (matrix_step M coordinates i st j)
     = distances2D st ++ observation (entry2D M coordinates) i j.
Proof.
  intros Hi Hj Hm. unfold matrix_step, entry2D, observation.
  destruct (i =? j)%nat; simpl.
  - now rewrite Hm, app_nil_r.
  - destruct (nth_error coordinates i) as [c1|] eqn:E1.
    2:{ apply nth_error_None in E1. subst n. lia. }
    destruct (nth_error coordinates j) as [c2|] eqn:E2.
    2:{ apply nth_error_None in E2. subst n. lia. }
    unfold matrix_step3D, matrix_step2D. rewrite Hm.
    destruct (st_matrix3D st); simpl;
      (split; [reflexivity|]);
      destruct (calculate2DDistance M _ _ _ _); now rewrite ?app_nil_r.
Qed.

Lemma matrix_step_3D (i j : nat) (st : MatrixState) (m : Matrix) :
  (i < n)%nat -> (j < n)%nat -> st_matrix3D st = Some m ->
  st_matrix3D (matrix_step M coordinates i st j)
  = Some (set_cell i j (entry3D M coordinates i j) m)
  /\ distances3D (matrix_step M coordinates i st j)
     = distances3D st ++ observation (entry3D M coordinates) i j.
Proof.
  intros Hi Hj Hm. unfold matrix_step, entry3D, observation.
  destruct (i =? j)%nat; simpl.
  - now rewrite Hm, app_nil_r.
  - destruct (nth_error coordinates i) as [c1|] eqn:E1.
    2:{ apply nth_error_None in E1. subst n. lia. }
    destruct (nth_error coordinates j) as [c2|] eqn:E2.
    2:{ apply nth_error_None in E2. subst n. lia. }
    unfold matrix_step3D, matrix_step2D.
    destruct (st_matrix2D st); simpl; rewrite Hm; simpl;
      (split; [reflexivity|]);
      destruct (calculate3DDistance M _ _ _ _ _ _); now rewrite ?app_nil_r.
Qed.

Lemma matrix_loops_2D (st : MatrixState) :
  st_matrix2D st = Some (createEmptyMatrix n) ->
  st_matrix2D (matrix_loops M coordinates st) = Some (table (entry2D M coordinates) n)
  /\ distances2D (matrix_loops M coordinates st)
     = distances2D st ++ observations (entry2D M coordinates) n.
Proof.
  intros Hm. unfold matrix_loops. fold n.
  destruct (loops_projection st_matrix2D distances2D (matrix_step M coordinates)
              (entry2D M coordinates) n matrix_step_2D st _ Hm) as [H1 H2].
  destruct (createEmptyMatrix_shape n) as [Hl Hr].
  now rewrite H1, H2, fill_table.
Qed.

Lemma matrix_loops_3D (st : MatrixState) :
  st_matrix3D st = Some (createEmptyMatrix n) ->
  st_matrix3D (matrix_loops M coordinates st) = Some (table (entry3D M coordinates) n)
  /\ distances3D (matrix_loops M coordinates st)
     = distances3D st ++ observations (entry3D M coordinates) n.
Proof.
  intros Hm. unfold matrix_loops. fold n.
  destruct (loops_projection st_matrix3D distances3D (matrix_step M coordinates)
              (entry3D M coordinates) n matrix_step_3D st _ Hm) as [H1 H2].
  destruct (createEmptyMatrix_shape n) as [Hl Hr].
  now rewrite H1, H2, fill_table.
Qed.

(** The 2D half of the result of [calculateDistanceMatrix]. *)
Lemma calculateDistanceMatrix_2D (include3D : bool) :
  (2 <= n)%nat ->
  exists r, calculateDistanceMatrix M coordinates true include3D = Some r
    /\ matrix2D r = Some (table (entry2D M coordinates) n)
    /\ statistics2D r = calculateStatistics (observations (entry2D M coordinates) n).
Proof.
  intros Hn. unfold calculateDistanceMatrix. fold n.
  destruct (Nat.ltb_spec n 2); [lia|].
  eexists; split; [reflexivity|]. simpl.
  match goal with |- context [matrix_loops M coordinates ?s] =>
    destruct (matrix_loops_2D s eq_refl) as [H1 H2] end.
  now rewrite H1, H2.
Qed.

(** The 3D half. *)
Lemma calculateDistanceMatrix_3D (include2D : bool) :
  (2 <= n)%nat ->
  exists r, calculateDistanceMatrix M coordinates include2D true = Some r
    /\ matrix3D r = Some (table (entry3D M coordinates) n)
    /\ statistics3D r = calculateStatistics (observations (entry3D M coordinates) n).
Proof.
  intros Hn. unfold calculateDistanceMatrix. fold n.
  destruct (Nat.ltb_spec n 2); [lia|].
  eexists; split; [reflexivity|]. simpl.
  match goal with |- context [matrix_loops M coordinates ?s] =>
    destruct (matrix_loops_3D s eq_refl) as [H1 H2] end.
  now rewrite H1, H2.
Qed.

Lemma entry2D_valid (i j : nat) :
  Forall valid coordinates -> (i < n)%nat -> (j < n)%nat ->
  exists dv, entry2D M coordinates i j = Some dv.
Proof.
  intros Hv Hi Hj. unfold entry2D. destruct (i =? j)%nat; [eauto|].
  destruct (nth_error coordinates i) as [c1|] eqn:E1.
  2:{ apply nth_error_None in E1. subst n. lia. }
  destruct (nth_error coordinates j) as [c2|] eqn:E2.
  2:{ apply nth_error_None in E2. subst n. lia. }
  rewrite Forall_forall in Hv.
  apply calculate2DDistance_valid; apply Hv; eapply nth_error_In; eauto.
Qed.

Lemma entry3D_valid (i j : nat) :
  Forall valid coordinates -> (i < n)%nat -> (j < n)%nat ->
  exists dv, entry3D M coordinates i j = Some dv.
Proof.
  intros Hv Hi Hj. unfold entry3D. destruct (i =? j)%nat; [eauto|].
  destruct (nth_error coordinates i) as [c1|] eqn:E1.
  2:{ apply nth_error_None in E1. subst n. lia. }
  destruct (nth_error coordinates j) as [c2|] eqn:E2.
  2:{ apply nth_error_None in E2. subst n. lia. }
  rewrite Forall_forall in Hv.
  apply calculate3DDistance_valid; apply Hv; eapply nth_error_In; eauto.
Qed.

End Loops.

(** Counting the observations: one per ordered pair of distinct indices. *)
Section Counting.

Variable entry : nat -> nat -> option DistanceValue.
Variable n : nat.
Hypothesis entry_some : forall i j, (i < n)%nat -> (j < n)%nat -> exists dv, entry i j = Some dv.

Lemma row_observations_length (i k a : nat) :
  (a + k <= n)%nat -> (i < n)%nat ->
  (length (flat_map (observation entry i) (seq a k))
   + (if (a <=? i)%nat && (i <? a + k)%nat then 1 else 0) = k)%nat.
Proof.
  revert a; induction k as [|k IH]; intros a Ha Hi; simpl.
  - destruct (Nat.leb_spec a i), (Nat.ltb_spec i (a + 0)); simpl; lia.
  - rewrite length_app. specialize (IH (S a) ltac:(lia) Hi).
    unfold observation at 1.
    destruct (entry_some i a Hi ltac:(lia)) as [dv ->].
    destruct (Nat.eqb_spec i a);
      destruct (Nat.leb_spec a i), (Nat.ltb_spec i (a + S k));
      destruct (Nat.leb_spec (S a) i), (Nat.ltb_spec i (S a + k));
      simpl in *; lia.
Qed.

Lemma observations_length : length (observations entry n) = (n * (n - 1))%nat.
Proof.
  unfold observations.
  assert (H : forall rs, Forall (fun i => i < n)%nat rs ->
            length (flat_map (fun i => flat_map (observation entry i) (seq 0 n)) rs)
            = (length rs * (n - 1))%nat).
  { induction rs as [|i rs IH]; intros Hrs; simpl; [reflexivity|].
    inversion Hrs as [|? ? Hi Hrs']; subst.
    rewrite length_app, IH by assumption.
    pose proof (row_observations_length i n 0 ltac:(lia) Hi) as Hrow.
    destruct (Nat.leb_spec 0 i), (Nat.ltb_spec i (0 + n)); simpl in Hrow; lia. }
  rewrite H.
  - now rewrite length_seq.
  - apply Forall_forall. intros i Hi. apply in_seq in Hi. lia.
Qed.

End Counting.

Lemma calculateStatistics_count (distances : list float) :
  distances <> [] ->
  exists s, calculateStatistics distances = Some s /\ count s = length distances.
Proof.
  destruct distances; [congruence|]. intros _. eexists; split; reflexivity.
Qed.

End LoopFacts.

Module CumulativeFacts.

Import DistanceCalculator MatrixSpec DistanceFacts.
Local Open Scope float_scope.

Section Path.

Variable M : MathObject.
Variable coordinates : list Coordinate.
Hypothesis all_valid : Forall valid coordinates.

(** After [k] iterations the running total is the sum, in input order, of
    the km of the first [k] consecutive pairs. *)
Lemma cumulative_loop (k : nat) (st : CumulativeState) :
  (k <= length coordinates - 1)%nat ->
  exists ds : list DistanceValue,
    length ds = k
    /\ (forall i, (i < k)%nat ->
          exists coord1 coord2 dv,
            nth_error coordinates i = Some coord1
            /\ nth_error coordinates (i + 1) = Some coord2
            /\ nth_error ds i = Some dv
            /\ calculate2DDistance M (lat coord1) (lon coord1) (lat coord2) (lon coord2)
               = Some dv)
    /\ totalDistanceKm (fold_left (cumulative_step M coordinates false) (seq 0 k) st)
       = fold_left (fun acc dv => acc + km dv) ds (totalDistanceKm st).
Proof.
  induction k as [|k IH]; intros Hk.
  - exists []. repeat split; try reflexivity. intros i Hi; lia.
  - destruct (IH ltac:(lia)) as [ds [Hlen [Hds Htot]]].
    destruct (nth_error coordinates k) as [c1|] eqn:E1.
    2:{ apply nth_error_None in E1. lia. }
    destruct (nth_error coordinates (k + 1)) as [c2|] eqn:E2.
    2:{ apply nth_error_None in E2. lia. }
    assert (V1 : valid c1).
    { rewrite Forall_forall in all_valid. apply all_valid. eapply nth_error_In; eauto. }
    assert (V2 : valid c2).
    { rewrite Forall_forall in all_valid. apply all_valid. eapply nth_error_In; eauto. }
    destruct (calculate2DDistance_valid M _ _ _ _ V1 V2) as [dv Hdv].
    exists (ds ++ [dv]). split; [rewrite length_app; simpl; lia|]. split.
    + intros i Hi. destruct (Nat.eq_dec i k) as [->|Hne].
      * exists c1, c2, dv. repeat split; try assumption.
        rewrite nth_error_app2 by lia. now rewrite Hlen, Nat.sub_diag.
      * destruct (Hds i ltac:(lia)) as [a [b [dv' [Ha [Hb [Hn Hc]]]]]].
        exists a, b, dv'. repeat split; try assumption.
        rewrite nth_error_app1 by lia. assumption.
    + rewrite seq_S, !fold_left_app. simpl.
      unfold cumulative_step at 1. rewrite E1, E2, Hdv. simpl.
      now rewrite Htot.
Qed.

End Path.

End CumulativeFacts.

(** ** Rounding: magnitudes of quotients and of decimal roundings *)

Module Rounding.

Local Open Scope Z_scope.

Lemma fexp_eq (x : Z) : fexp prec emax x = Z.max (x - 53) (-1074).
Proof. reflexivity. Qed.

Lemma digits2_pos_size (p : positive) : digits2_pos p = Pos.size p.
Proof. induction p; simpl; congruence. Qed.

Lemma Zdigits2_log2 (p : positive) : Zpos (digits2_pos p) = Z.log2 (Zpos p) + 1.
Proof.
  rewrite digits2_pos_size. destruct p; simpl; try reflexivity; lia.
Qed.

(** The number of binary digits of a non-negative integer. *)
Lemma Zdigits2_nonneg (z : Z) : 0 <= z ->
  Zdigits2 z = if z =? 0 then 0 else Z.log2 z + 1.
Proof.
  destruct z; simpl; intros H; try reflexivity; try lia. apply Zdigits2_log2.
Qed.

Lemma digits_bounds (p : positive) :
  2 ^ (Zpos (digits2_pos p) - 1) <= Zpos p < 2 ^ Zpos (digits2_pos p).
Proof.
  rewrite Zdigits2_log2.
  replace (Z.log2 (Zpos p) + 1 - 1) with (Z.log2 (Zpos p)) by lia.
  replace (Z.log2 (Zpos p) + 1) with (Z.succ (Z.log2 (Zpos p))) by lia.
  apply Z.log2_spec. lia.
Qed.

Lemma shr_1_m (mrs : shr_record) : 0 <= shr_m mrs -> shr_m (shr_1 mrs) = shr_m mrs / 2.
Proof.
  destruct mrs as [m r s]. simpl. intros H.
  destruct m as [|[p|p|]|p]; simpl; try reflexivity; try lia.
  - rewrite Pos2Z.inj_xI. apply Z.div_unique with (r := 1); lia.
  - rewrite Pos2Z.inj_xO. apply Z.div_unique with (r := 0); lia.
Qed.

Lemma pow2_xO (p : positive) : 2 ^ Zpos p~0 = 2 ^ Zpos p * 2 ^ Zpos p.
Proof. rewrite Pos2Z.inj_xO, <- Z.pow_add_r by lia. f_equal. lia. Qed.

Lemma pow2_xI (p : positive) : 2 ^ Zpos p~1 = 2 * (2 ^ Zpos p * 2 ^ Zpos p).
Proof.
  rewrite Pos2Z.inj_xI, <- Z.pow_add_r by lia.
  replace (2 * Zpos p + 1) with (Z.succ (Zpos p + Zpos p)) by lia.
  now rewrite Z.pow_succ_r by lia.
Qed.

Lemma iter_shr_1_m (p : positive) (mrs : shr_record) :
  0 <= shr_m mrs ->
  shr_m (iter_pos shr_1 p mrs) = shr_m mrs / 2 ^ Zpos p.
Proof.
  revert mrs; induction p as [p IH|p IH|]; intros mrs H; simpl iter_pos.
  - assert (H1 : 0 <= shr_m (shr_1 mrs)) by (rewrite shr_1_m by lia; apply Z.div_pos; lia).
    assert (H2 : 0 <= shr_m (iter_pos shr_1 p (shr_1 mrs)))
      by (rewrite IH by lia; apply Z.div_pos; lia).
    rewrite IH, IH, shr_1_m by lia.
    rewrite !Z.div_div by lia. now rewrite pow2_xI.
  - assert (H2 : 0 <= shr_m (iter_pos shr_1 p mrs))
      by (rewrite IH by lia; apply Z.div_pos; lia).
    rewrite IH, IH by lia.
    rewrite !Z.div_div by lia. now rewrite pow2_xO.
  - rewrite shr_1_m by lia. reflexivity.
Qed.

Lemma shr_record_of_loc_m (m : Z) (l : location) : shr_m (shr_record_of_loc m l) = m.
Proof. destruct l as [|[]]; reflexivity. Qed.

(** [shr_fexp] divides the mantissa by the power of two that brings the
    exponent up to the target one. *)
Lemma shr_fexp_spec (m e : Z) (l : location) :
  0 <= m ->
  let k := Z.max 0 (fexp prec emax (Zdigits2 m + e) - e) in
  shr_m (fst (shr_fexp prec emax m e l)) = m / 2 ^ k
  /\ snd (shr_fexp prec emax m e l) = e + k.
Proof.
  intros H k. unfold shr_fexp, shr. subst k.
  destruct (fexp prec emax (Zdigits2 m + e) - e) as [|p|p] eqn:E; simpl fst; simpl snd.
  - rewrite shr_record_of_loc_m. simpl. rewrite Z.div_1_r. lia.
  - rewrite iter_shr_1_m by (rewrite shr_record_of_loc_m; lia).
    rewrite shr_record_of_loc_m. rewrite Z.max_r by lia. lia.
  - rewrite shr_record_of_loc_m. rewrite Z.max_l by lia. simpl.
    rewrite Z.div_1_r. lia.
Qed.

Lemma round_nearest_even_range (m : Z) (l : location) :
  m <= round_nearest_even m l <= m + 1.
Proof.
  unfold round_nearest_even. destruct l as [|[]]; try destruct (Z.even m); lia.
Qed.

(** Digits of a quotient by a power of two. *)
Lemma log2_div_pow2 (m k : Z) : 0 < m -> 0 <= k -> k <= Z.log2 m ->
  Z.log2 (m / 2 ^ k) = Z.log2 m - k.
Proof.
  intros Hm Hk Hl. rewrite <- Z.shiftr_div_pow2 by lia.
  rewrite Z.log2_shiftr by lia. lia.
Qed.

Lemma log2_between (m t : Z) : 0 < m -> 0 <= t -> 2 ^ t <= m < 2 ^ (t + 1) -> Z.log2 m = t.
Proof. intros Hm Ht H. apply Z.log2_unique; [lia|]. now replace (Z.succ t) with (t + 1) by lia. Qed.

(** Rounding a positive integer mantissa that carries enough digits, above
    the underflow threshold: the result is an infinity or a valid number
    of at least the same magnitude. *)
Lemma binary_round_aux_pos (s : bool) (q : positive) (e : Z) (l : location) :
  let D := Zpos (digits2_pos q) + e in
  e <= fexp prec emax D -> -1074 < D ->
  binary_round_aux prec emax s (Zpos q) e l = S754_infinity s
  \/ exists m e',
       binary_round_aux prec emax s (Zpos q) e l = S754_finite s m e'
       /\ bounded prec emax m e' = true
       /\ D <= Zpos (digits2_pos m) + e'.
Proof.
  intros D Hprec Hmag. unfold binary_round_aux.
  pose proof (shr_fexp_spec (Zpos q) e l ltac:(lia)) as [Hm1 He1].
  destruct (shr_fexp prec emax (Zpos q) e l) as [mrs1 e1]. cbn [fst snd] in Hm1, He1.
  change (Zdigits2 (Zpos q)) with (Zpos (digits2_pos q)) in Hm1, He1.
  unfold D in *. rewrite Zdigits2_log2 in *.
  set (L := Z.log2 (Zpos q)) in *.
  assert (HL : 0 <= L) by apply Z.log2_nonneg.
  rewrite fexp_eq in *.
  set (k := Z.max 0 (Z.max (L + 1 + e - 53) (-1074) - e)) in *.
  assert (Hk : 0 <= k <= L) by lia.
  assert (Hm1pos : 0 < shr_m mrs1).
  { rewrite Hm1. apply Z.div_str_pos. split; [apply Z.pow_pos_nonneg; lia|].
    transitivity (2 ^ L); [apply Z.pow_le_mono_r; lia|].
    apply (Z.log2_spec (Zpos q)). lia. }
  assert (Hl1 : Z.log2 (shr_m mrs1) = L - k).
  { rewrite Hm1. apply log2_div_pow2; lia. }
  pose proof (round_nearest_even_range (shr_m mrs1) (loc_of_shr_record mrs1)) as Hr.
  set (m2 := round_nearest_even (shr_m mrs1) (loc_of_shr_record mrs1)) in *.
  assert (Hl2 : L - k <= Z.log2 m2 <= L - k + 1).
  { split.
    - rewrite <- Hl1. apply Z.log2_le_mono. lia.
    - pose proof (Z.log2_spec (shr_m mrs1) Hm1pos) as [_ Hup].
      rewrite Hl1 in Hup.
      assert (m2 <= 2 ^ (L - k + 1)) by (replace (L - k + 1) with (Z.succ (L - k)) by lia; lia).
      transitivity (Z.log2 (2 ^ (L - k + 1))); [apply Z.log2_le_mono; lia|].
      rewrite Z.log2_pow2 by lia. lia. }
  pose proof (shr_fexp_spec m2 e1 loc_Exact ltac:(lia)) as [Hm3 He3].
  destruct (shr_fexp prec emax m2 e1 loc_Exact) as [mrs2 e2]. cbn [fst snd] in Hm3, He3.
  rewrite Zdigits2_nonneg in Hm3, He3 by lia.
  destruct (Z.eqb_spec m2 0) as [E|_]; [lia|].
  rewrite fexp_eq in *.
  set (k2 := Z.max 0 (Z.max (Z.log2 m2 + 1 + e1 - 53) (-1074) - e1)) in *.
  assert (Hk2 : 0 <= k2 <= Z.log2 m2) by lia.
  assert (Hm3pos : 0 < shr_m mrs2).
  { rewrite Hm3. apply Z.div_str_pos. split; [apply Z.pow_pos_nonneg; lia|].
    transitivity (2 ^ Z.log2 m2); [apply Z.pow_le_mono_r; lia|].
    apply (Z.log2_spec m2). lia. }
  assert (Hl3 : Z.log2 (shr_m mrs2) = Z.log2 m2 - k2).
  { rewrite Hm3. apply log2_div_pow2; lia. }
  destruct (shr_m mrs2) as [|m|m] eqn:E3; try lia.
  destruct (Z.leb_spec e2 (emax - prec)) as [Hle|Hgt]; [right | left; reflexivity].
  exists m, e2. split; [reflexivity|]. split.
  - unfold bounded, canonical_mantissa. rewrite fexp_eq, Zdigits2_log2.
    apply andb_true_intro. split; [apply Z.eqb_eq | apply Z.leb_le]; lia.
  - rewrite Zdigits2_log2. lia.
Qed.

(** A quotient of two positive numbers whose magnitudes differ by more than
    the underflow threshold is an infinity or a valid number of at least
    the difference of the magnitudes. *)
Lemma SFdiv_pos (sx sy : bool) (mx my : positive) (ex ey : Z) :
  -1074 < mag mx ex - mag my ey ->
  SFdiv prec emax (S754_finite sx mx ex) (S754_finite sy my ey)
  = S754_infinity (xorb sx sy)
  \/ exists m e,
       SFdiv prec emax (S754_finite sx mx ex) (S754_finite sy my ey)
       = S754_finite (xorb sx sy) m e
       /\ bounded prec emax m e = true
       /\ mag mx ex - mag my ey <= mag m e.
Proof.
  unfold mag. intros Hmag. unfold SFdiv, SFdiv_core_binary.
  change (Zdigits2 (Zpos mx)) with (Zpos (digits2_pos mx)).
  change (Zdigits2 (Zpos my)) with (Zpos (digits2_pos my)).
  pose proof (digits_bounds mx) as Hx. pose proof (digits_bounds my) as Hy.
  rewrite !Zdigits2_log2 in *.
  set (dx := Z.log2 (Zpos mx) + 1) in *. set (dy := Z.log2 (Zpos my) + 1) in *.
  assert (Hdx : 1 <= dx) by (subst dx; pose proof (Z.log2_nonneg (Zpos mx)); lia).
  assert (Hdy : 1 <= dy) by (subst dy; pose proof (Z.log2_nonneg (Zpos my)); lia).
  rewrite fexp_eq.
  set (e' := Z.min (Z.max (dx + ex - (dy + ey) - 53) (-1074)) (ex - ey)).
  set (s := ex - ey - e').
  assert (Hs : 0 <= s) by lia.
  set (m' := match s with Zpos _ => Z.shiftl (Zpos mx) s | Z0 => Zpos mx | Zneg _ => 0 end).
  assert (Hm' : m' = Zpos mx * 2 ^ s).
  { subst m'. destruct s eqn:Es; [simpl; lia | | lia].
    now rewrite Z.shiftl_mul_pow2 by lia. }
  pose proof (Z_div_mod m' (Zpos my) ltac:(lia)) as Hdiv.
  destruct (Z.div_eucl m' (Zpos my)) as [q r]. destruct Hdiv as [Hq Hr].
  set (T := dx - 1 + s - dy).
  assert (HT : 0 <= T) by lia.
  assert (Hqlow : 2 ^ T <= q).
  { assert (H1 : 2 ^ (dx - 1) * 2 ^ s <= m').
    { rewrite Hm'. apply Z.mul_le_mono_nonneg_r; [apply Z.pow_nonneg; lia | lia]. }
    rewrite <- Z.pow_add_r in H1 by lia.
    replace (dx - 1 + s) with (T + dy) in H1 by lia.
    rewrite Z.pow_add_r in H1 by lia.
    assert (H2 : 2 ^ T * Zpos my < 2 ^ T * 2 ^ dy).
    { apply Z.mul_lt_mono_pos_l; [apply Z.pow_pos_nonneg; lia | lia]. }
    assert (H3 : 2 ^ T * Zpos my < Zpos my * (q + 1)) by lia.
    assert (H4 : 2 ^ T < q + 1) by nia. lia. }
  assert (Hqpos : 0 < q) by (pose proof (Z.pow_pos_nonneg 2 T); lia).
  destruct q as [|q|q]; try lia.
  assert (Hlq : T <= Z.log2 (Zpos q)).
  { rewrite <- (Z.log2_pow2 T) by lia. apply Z.log2_le_mono. lia. }
  destruct (binary_round_aux_pos (xorb sx sy) q e' (new_location (Zpos my) r))
    as [Hinf|[m [e [Hfin [Hb Hm]]]]].
  - rewrite Zdigits2_log2, fexp_eq. lia.
  - rewrite Zdigits2_log2. lia.
  - left. exact Hinf.
  - right. exists m, e. split; [exact Hfin|]. split; [exact Hb|].
    rewrite !Zdigits2_log2 in *. lia.
Qed.

(** Converting a valid non-zero value gives a non-zero number. *)
Lemma SF2Prim_nonzero (r : spec_float) :
  valid_binary r = true ->
  (forall s, r <> S754_zero s) ->
  SF2Prim r <> 0%float.
Proof.
  intros Hv Hnz H.
  apply (Hnz false). apply SF2Prim_inj; [exact H | exact Hv | reflexivity].
Qed.

Lemma of_ratio_nonzero (s : bool) (n den : positive) :
  Zpos (digits2_pos den) <= 1000 ->
  JS.of_ratio s n den <> 0%float.
Proof.
  intros Hden. unfold JS.of_ratio. apply SF2Prim_nonzero.
  - destruct (SFdiv_pos s false n den 0 0) as [->|[m [e [-> [Hb _]]]]].
    + unfold mag. pose proof (Pos2Z.is_pos (digits2_pos n)). lia.
    + reflexivity.
    + exact Hb.
  - intros s'. destruct (SFdiv_pos s false n den 0 0) as [->|[m [e [-> _]]]].
    + unfold mag. pose proof (Pos2Z.is_pos (digits2_pos n)). lia.
    + discriminate.
    + discriminate.
Qed.

(** [toFixed] prints a non-zero numeral for a value of magnitude -9 or
    more when it keeps three decimal places or more. *)
Lemma toFixed_digits_pos (d : nat) (m : positive) (e : Z) :
  (3 <= d)%nat -> -9 <= mag m e -> 0 < JS.toFixed_digits d m e.
Proof.
  unfold mag. intros Hd Hmag. unfold JS.toFixed_digits.
  assert (Hp : 1000 <= 10 ^ Z.of_nat d).
  { change 1000 with (10 ^ 3). apply Z.pow_le_mono_r; lia. }
  destruct (Z.leb_spec 0 e) as [He|He].
  - assert (0 < 2 ^ e) by (apply Z.pow_pos_nonneg; lia). nia.
  - pose proof (digits_bounds m) as Hm.
    set (dm := Zpos (digits2_pos m)) in *.
    assert (Hdm : 1 <= dm) by (subst dm; lia).
    set (B := 2 ^ (- e)).
    assert (HB : 0 < B) by (apply Z.pow_pos_nonneg; lia).
    apply Z.div_str_pos. split; [lia|].
    assert (HB2 : B <= 2 ^ (dm - 1) * 2 ^ 10).
    { rewrite <- Z.pow_add_r by lia. apply Z.pow_le_mono_r; lia. }
    assert (H10 : 2 ^ 10 = 1024) by reflexivity.
    assert (0 < 2 ^ (dm - 1)) by (apply Z.pow_pos_nonneg; lia).
    nia.
Qed.

(** A number that is at least a positive number [c] is [+Infinity] or a
    positive number of at least the magnitude of [c]. *)
Lemma leb_lower_bound (c x : float) (mc : positive) (ec : Z) :
  Prim2SF c = S754_finite false mc ec ->
  (c <=? x)%float = true ->
  Prim2SF x = S754_infinity false
  \/ exists m e, Prim2SF x = S754_finite false m e /\ mag mc ec <= mag m e.
Proof.
  intros Hc Hle. rewrite leb_spec, Hc in Hle.
  pose proof (Prim2SF_valid x) as Vx. pose proof (Prim2SF_valid c) as Vc.
  rewrite Hc in Vc.
  destruct (Prim2SF x) as [s|s| |s m e]; unfold SFleb, SFcompare in Hle.
  - discriminate.
  - destruct s; [discriminate | now left].
  - discriminate.
  - destruct s; [discriminate|]. right. exists m, e. split; [reflexivity|].
    unfold valid_binary, bounded, canonical_mantissa in Vx, Vc.
    apply andb_true_iff in Vx, Vc. destruct Vx as [Vx _], Vc as [Vc _].
    apply Z.eqb_eq in Vx, Vc. rewrite fexp_eq in Vx, Vc.
    unfold mag. rewrite !Zdigits2_log2 in *.
    pose proof (Z.log2_nonneg (Zpos mc)). pose proof (Z.log2_nonneg (Zpos m)).
    destruct (Z.compare_spec ec e) as [E|E|E]; try discriminate.
    + subst e.
      assert (Hm : (mc <= m)%positive).
      { unfold Pos.le. change (Pos.compare_cont Eq mc m) with (Pos.compare mc m) in Hle.
        destruct (Pos.compare mc m); [discriminate | discriminate | discriminate]. }
      assert (Z.log2 (Zpos mc) <= Z.log2 (Zpos m)) by (apply Z.log2_le_mono; lia).
      lia.
    + lia.
Qed.

Lemma Prim2SF_zero_inv (x : float) : x = 0%float -> Prim2SF x = S754_zero false.
Proof. intros ->. reflexivity. Qed.

(** Rounding to 3 or 6 decimal places a number that is [+Infinity] or
    positive of magnitude -9 or more (at least 2^-10) does not give 0. *)
Lemma toFixed_parse_nonzero (d : nat) (x : float) :
  d = 3%nat \/ d = 6%nat ->
  (Prim2SF x = S754_infinity false
   \/ exists m e, Prim2SF x = S754_finite false m e /\ (-9 <= mag m e)%Z) ->
  JS.toFixed_parse d x <> 0%float.
Proof.
  intros Hd Hx. unfold JS.toFixed_parse.
  destruct Hx as [Hx|[m [e [Hx Hmag]]]]; rewrite Hx.
  - intros H. apply Prim2SF_zero_inv in H. congruence.
  - destruct (1e21 <=? abs x)%float.
    + intros H. apply Prim2SF_zero_inv in H. congruence.
    + pose proof (toFixed_digits_pos d m e ltac:(destruct Hd; lia) Hmag) as Hpos.
      destruct (JS.toFixed_digits d m e) as [|n|n]; try lia.
      apply of_ratio_nonzero. destruct Hd as [-> | ->]; vm_compute; discriminate.
Qed.

Lemma geb_lower_bound (c x : float) (mc : positive) (ec : Z) :
  Prim2SF c = S754_finite false mc ec ->
  JS.geb x c = true ->
  Prim2SF x = S754_infinity false
  \/ exists m e, Prim2SF x = S754_finite false m e /\ (mag mc ec <= mag m e)%Z.
Proof. intros Hc H. now apply (leb_lower_bound c x mc ec). Qed.

(** A quotient by 100 of a number that is at least 100. *)
Lemma div_100_lower_bound (x : float) :
  JS.geb x 100 = true ->
  Prim2SF (x / 100)%float = S754_infinity false
  \/ exists m e, Prim2SF (x / 100)%float = S754_finite false m e /\ (-9 <= mag m e)%Z.
Proof.
  intros H.
  destruct (geb_lower_bound 100 x 7036874417766400 (-46) eq_refl H)
    as [Hx|[m [e [Hx Hmag]]]]; rewrite div_spec, Hx.
  - left. reflexivity.
  - change (Prim2SF 100) with (S754_finite false 7036874417766400 (-46)).
    change (mag 7036874417766400 (-46)) with 7%Z in Hmag.
    destruct (SFdiv_pos false false m 7036874417766400 e (-46)) as [Hinf|[m' [e' [Hfin [_ Hm']]]]].
    + change (mag 7036874417766400 (-46)) with 7%Z. lia.
    + left. exact Hinf.
    + right. exists m', e'. split; [exact Hfin|].
      change (mag 7036874417766400 (-46)) with 7%Z in Hm'. lia.
Qed.

(** Doubling a mantissa [d] times multiplies it by [2 ^ d]. *)
Lemma iter_xO (m d : positive) : Zpos (Pos.iter xO m d) = Zpos m * 2 ^ Zpos d.
Proof.
  revert m. induction d as [|d IH] using Pos.peano_ind; intros m.
  - simpl. lia.
  - rewrite Pos.iter_succ, Pos2Z.inj_succ, Z.pow_succ_r by lia.
    rewrite Pos2Z.inj_xO, IH. lia.
Qed.

(** The mantissa and exponent that [shl_align] gives for an exponent [ez]
    not above [ex]. *)
Lemma shl_align_le (m : positive) (ex ez : Z) :
  ez <= ex ->
  Zpos (fst (shl_align m ex ez)) = Zpos m * 2 ^ (ex - ez)
  /\ snd (shl_align m ex ez) = ez.
Proof.
  intros H. unfold shl_align.
  destruct (ez - ex) as [|p|p] eqn:E; simpl fst; simpl snd.
  - replace (ex - ez) with 0 by lia. simpl. lia.
  - lia.
  - rewrite iter_xO. replace (ex - ez) with (Zpos p) by lia. lia.
Qed.

(** Rounding a positive integer mantissa above the underflow threshold. *)
Lemma binary_round_pos (s : bool) (m : positive) (e : Z) :
  -1074 < mag m e ->
  binary_round prec emax s m e = S754_infinity s
  \/ exists m' e',
       binary_round prec emax s m e = S754_finite s m' e'
       /\ bounded prec emax m' e' = true
       /\ mag m e <= mag m' e'.
Proof.
  unfold mag. intros Hmag. unfold binary_round.
  set (t := fexp prec emax (Zpos (digits2_pos m) + e)).
  destruct (Z.le_gt_cases t e) as [Hle|Hgt].
  - destruct (shl_align_le m e t Hle) as [Hm He].
    destruct (shl_align m e t) as [mz ez]. cbn [fst snd] in Hm, He. subst ez.
    assert (Hd : Zpos (digits2_pos mz) + t = Zpos (digits2_pos m) + e).
    { rewrite !Zdigits2_log2, Hm. rewrite Z.log2_mul_pow2 by lia. lia. }
    destruct (binary_round_aux_pos s mz t loc_Exact) as [H|[m' [e' [H [Hb Hm']]]]].
    + rewrite Hd. subst t. lia.
    + lia.
    + now left.
    + right. exists m', e'. unfold mag in *. repeat split; try assumption. lia.
  - assert (Hs : shl_align m e t = (m, e)).
    { unfold shl_align. destruct (t - e) eqn:E; try reflexivity. lia. }
    rewrite Hs.
    destruct (binary_round_aux_pos s m e loc_Exact) as [H|[m' [e' [H [Hb Hm']]]]].
    + fold t. lia.
    + lia.
    + now left.
    + right. exists m', e'. unfold mag in *. repeat split; assumption.
Qed.

(** The square root of [1 - a] is NaN when [a] exceeds 1. *)
Lemma sqrt_one_minus_above_one (a : float) :
  (1 <? a)%float = true -> JS.Math_sqrt (1 - a)%float = nan.
Proof.
  intros H. unfold JS.Math_sqrt. apply Prim2SF_inj.
  rewrite sqrt_spec, sub_spec. rewrite ltb_spec in H.
  pose proof (Prim2SF_valid a) as Va.
  change (Prim2SF 1) with (S754_finite false 4503599627370496 (-52)) in *.
  destruct (Prim2SF a) as [s|s| |s m e]; unfold SFltb, SFcompare in H;
    try discriminate.
  - destruct s; [discriminate | reflexivity].
  - destruct s; [discriminate|].
    unfold valid_binary, bounded, canonical_mantissa in Va.
    apply andb_true_iff in Va. destruct Va as [Va _]. apply Z.eqb_eq in Va.
    rewrite fexp_eq, Zdigits2_log2 in Va.
    pose proof (Z.log2_nonneg (Zpos m)) as Hl.
    pose proof (Z.log2_spec (Zpos m) ltac:(lia)) as [Hlo _].
    assert (He : -52 <= e /\ 2 ^ 52 < Zpos m * 2 ^ (e + 52)).
    { destruct (Z.compare_spec (-52) e) as [E|E|E]; try discriminate.
      - subst e. split; [lia|].
        change (Pos.compare_cont Eq 4503599627370496 m)
          with (Pos.compare 4503599627370496 m) in H.
        destruct (Pos.compare_spec 4503599627370496 m) as [E|E|E]; try discriminate.
        simpl. lia.
      - split; [lia|].
        assert (Z.log2 (Zpos m) = 52) by lia.
        assert (2 ^ 52 <= Zpos m) by congruence.
        assert (2 <= 2 ^ (e + 52)).
        { change 2 with (2 ^ 1) at 1. apply Z.pow_le_mono_r; lia. }
        nia. }
    destruct He as [He Hlt].
    unfold SF64sub, SFsub. rewrite Z.min_l by lia.
    destruct (shl_align_le 4503599627370496 (-52) (-52) ltac:(lia)) as [H1 _].
    destruct (shl_align_le m e (-52) He) as [H2 _].
    unfold cond_Zopp. rewrite H1, H2.
    replace (-52 - -52) with 0 by lia. replace (e - -52) with (e + 52) by lia.
    set (z := Zpos 4503599627370496 * 2 ^ 0 - Zpos m * 2 ^ (e + 52)).
    assert (Hz : z < 0).
    { subst z. rewrite Z.pow_0_r. change (2 ^ 52) with 4503599627370496 in Hlt. lia. }
    destruct z as [|p|p]; try lia.
    unfold binary_normalize.
    destruct (binary_round_pos true p (-52)) as [Hr|[m' [e' [Hr _]]]].
    + unfold mag. pose proof (Pos2Z.is_pos (digits2_pos p)). lia.
    + unfold SF64sqrt. now rewrite Hr.
    + unfold SF64sqrt. now rewrite Hr.
Qed.

End Rounding.

(** ** The stated properties *)

Module ParserProperties.

Local Open Scope string_scope.
Local Open Scope float_scope.

(** C1. On the space-separated sextuple "41 48 15.79259 112 50 1.04150"
    [parseCoordinate] returns the latitude 41.8043... and the POSITIVE
    longitude 112.8336...: [parseDMSSpaceSeparated] applies no West default,
    although the help text and the change log announce one. *)
Theorem parseCoordinate_space_separated_is_east :
  CoordinateParser.parseCoordinate "41 48 15.79259 112 50 1.04150"
  = Some (mkLatLon 41.804386830555551 112.83362263888888)
  /\ (0 <? 112.83362263888888) = true.
Proof. split; vm_compute; reflexivity. Qed.

End ParserProperties.

Module ConverterProperties.

Local Open Scope string_scope.
Local Open Scope float_scope.

(** C2. For -0.5 [decimalToDMS] (without cardinal letter) gives degrees -0,
    minutes 30, seconds 0; [dmsToDecimal] tests [degrees < 0], which is false
    for -0, and returns +0.5: the round trip is off by a whole degree. With
    the cardinal letter the sign survives. *)
Theorem dms_roundtrip_loses_sign_below_one_degree :
  CoordinateConverter.decimalToDMS (-0.5) false
  = Some {| CoordinateConverter.degrees := -0;
            CoordinateConverter.minutes := 30;
            CoordinateConverter.seconds := 0;
            CoordinateConverter.cardinal := "" |}
  /\ dms_roundtrip (-0.5) false = Some 0.5
  /\ (1e-5 <? JS.Math_abs (0.5 - (-0.5))) = true
  /\ dms_roundtrip (-0.5) true = Some (-0.5).
Proof. repeat split; vm_compute; reflexivity. Qed.

(** C5. [validateAndNormalize(91, 1e300)] never returns: 1e300 - 360 is
    1e300 again, so the first wrapping loop makes no progress, and the
    latitude is only checked after the loops. *)
Theorem validateAndNormalize_huge_longitude_never_returns (fuel : nat) :
  CoordinateConverter.validateAndNormalize fuel 91 1e300 = None.
Proof.
  unfold CoordinateConverter.validateAndNormalize.
  replace (JS.isNaN 91 || JS.isNaN 1e300 || negb (JS.isFinite 91)
           || negb (JS.isFinite 1e300)) with false by (vm_compute; reflexivity).
  assert (H : while fuel (fun l => JS.gtb l 180) (fun l => l - 360) 1e300 = None).
  { induction fuel as [|fuel IH]; [reflexivity|]. simpl.
    replace (JS.gtb 1e300 180) with true by (vm_compute; reflexivity).
    replace (1e300 - 360) with 1e300 by (vm_compute; reflexivity).
    exact IH. }
  now rewrite H.
Qed.

(** What [validateAndNormalize] does on the inputs where its loops end:
    a value that is not finite is rejected before the loops, *)
Lemma validateAndNormalize_rejects_non_finite (fuel : nat) (lat lon : float) :
  JS.isNaN lat || JS.isNaN lon || negb (JS.isFinite lat) || negb (JS.isFinite lon)
  = true ->
  CoordinateConverter.validateAndNormalize fuel lat lon = Some None.
Proof.
  intros H. unfold CoordinateConverter.validateAndNormalize. now rewrite H.
Qed.

(** the latitude 91 is rejected for a longitude that is already in range, *)
Lemma validateAndNormalize_rejects_latitude_91 (fuel : nat) (lon : float) :
  JS.isFinite lon = true -> JS.gtb lon 180 = false -> (lon <? -180) = false ->
  CoordinateConverter.validateAndNormalize (S fuel) 91 lon = Some None.
Proof.
  intros Hf Hhi Hlo. unfold CoordinateConverter.validateAndNormalize.
  assert (Hn : JS.isNaN lon = false).
  { unfold JS.isFinite in Hf. unfold JS.isNaN.
    destruct (is_nan lon); [discriminate | reflexivity]. }
  replace (JS.isNaN 91) with false by reflexivity.
  replace (JS.isFinite 91) with true by reflexivity.
  rewrite Hn, Hf. simpl. rewrite Hhi. simpl. rewrite Hlo. reflexivity.
Qed.

(** and the longitude 200 is wrapped to -160 for every latitude in range. *)
Lemma validateAndNormalize_wraps_longitude_200 (fuel : nat) (lat : float) :
  JS.isFinite lat = true -> (lat <? -90) = false -> JS.gtb lat 90 = false ->
  CoordinateConverter.validateAndNormalize (S (S fuel)) lat 200
  = Some (Some (mkLatLon lat (-160))).
Proof.
  intros Hf Hlo Hhi. unfold CoordinateConverter.validateAndNormalize.
  assert (Hn : JS.isNaN lat = false).
  { unfold JS.isFinite in Hf. unfold JS.isNaN.
    destruct (is_nan lat); [discriminate | reflexivity]. }
  replace (JS.isNaN 200) with false by reflexivity.
  replace (JS.isFinite 200) with true by reflexivity.
  rewrite Hn, Hf. simpl.
  replace (JS.gtb 200 180) with true by reflexivity.
  replace (200 - 360) with (-160) by reflexivity.
  replace (JS.gtb (-160) 180) with false by reflexivity.
  replace (-160 <? -180) with false by reflexivity.
  now rewrite Hlo, Hhi.
Qed.

End ConverterProperties.

Module DistanceProperties.

Import DistanceCalculator MatrixSpec DistanceFacts MatrixFacts LoopFacts CumulativeFacts.
Local Open Scope string_scope.
Local Open Scope float_scope.

(** C3, as the code has it. For [n >= 2] valid coordinates the statistics
    are computed over the km of every cell off the diagonal, row by row, so
    over both triangles: each unordered pair is observed twice and the count
    is [n * (n - 1)]. [calculateStatistics] of no observation is [null]. *)
Theorem statistics_count_every_ordered_pair (M : MathObject)
    (coordinates : list Coordinate) :
  (2 <= length coordinates)%nat ->
  Forall valid coordinates ->
  let n := length coordinates in
  exists r s2 s3,
    calculateDistanceMatrix M coordinates true true = Some r
    /\ statistics2D r = calculateStatistics (observations (entry2D M coordinates) n)
    /\ statistics3D r = calculateStatistics (observations (entry3D M coordinates) n)
    /\ statistics2D r = Some s2 /\ count s2 = (n * (n - 1))%nat
    /\ statistics3D r = Some s3 /\ count s3 = (n * (n - 1))%nat
    /\ calculateStatistics [] = None.
Proof.
  intros Hn Hv n.
  destruct (calculateDistanceMatrix_2D M coordinates true Hn) as [r [Hr [_ H2]]].
  destruct (calculateDistanceMatrix_3D M coordinates true Hn) as [r' [Hr' [_ H3]]].
  rewrite Hr in Hr'. inversion Hr'; subst r'. fold n in H2, H3.
  assert (L2 : length (observations (entry2D M coordinates) n) = (n * (n - 1))%nat).
  { apply observations_length. intros i j Hi Hj. now apply entry2D_valid. }
  assert (L3 : length (observations (entry3D M coordinates) n) = (n * (n - 1))%nat).
  { apply observations_length. intros i j Hi Hj. now apply entry3D_valid. }
  assert (Hpos : (0 < n * (n - 1))%nat) by (subst n; nia).
  destruct (calculateStatistics_count (observations (entry2D M coordinates) n))
    as [s2 [Hs2 Hc2]].
  { intros E. rewrite E in L2. simpl in L2. lia. }
  destruct (calculateStatistics_count (observations (entry3D M coordinates) n))
    as [s3 [Hs3 Hc3]].
  { intros E. rewrite E in L3. simpl in L3. lia. }
  exists r, s2, s3. repeat split; try assumption; try congruence.
Qed.

(** Two valid coordinates: the count is 2, not 1. *)
Lemma statistics_count_every_ordered_pair_witness :
  exists r s2 s3,
    calculateDistanceMatrix ReferenceMath.math
      [mkCoordinate 0 0 None; mkCoordinate 0 1 (Some 100)] true true = Some r
    /\ statistics2D r
       = calculateStatistics
           (observations
              (entry2D ReferenceMath.math
                 [mkCoordinate 0 0 None; mkCoordinate 0 1 (Some 100)]) 2)
    /\ statistics3D r
       = calculateStatistics
           (observations
              (entry3D ReferenceMath.math
                 [mkCoordinate 0 0 None; mkCoordinate 0 1 (Some 100)]) 2)
    /\ statistics2D r = Some s2 /\ count s2 = (2 * (2 - 1))%nat
    /\ statistics3D r = Some s3 /\ count s3 = (2 * (2 - 1))%nat
    /\ calculateStatistics [] = None.
Proof.
  apply (statistics_count_every_ordered_pair ReferenceMath.math
           [mkCoordinate 0 0 None; mkCoordinate 0 1 (Some 100)]).
  - simpl; lia.
  - repeat constructor.
Defined.

(** C3 as stated fails: with two valid coordinates the count is 2, and
    [2 * (2 - 1) / 2] is 1. *)
Lemma statistics_count_is_not_half :
  exists r s2,
    Forall valid [mkCoordinate 0 0 None; mkCoordinate 0 1 (Some 100)]
    /\ calculateDistanceMatrix ReferenceMath.math
         [mkCoordinate 0 0 None; mkCoordinate 0 1 (Some 100)] true true = Some r
    /\ statistics2D r = Some s2
    /\ count s2 = 2%nat
    /\ count s2 <> (2 * (2 - 1) / 2)%nat.
Proof.
  eexists. eexists. split; [repeat constructor|].
  split; [vm_compute; reflexivity|]. split; [reflexivity|].
  split; [reflexivity|]. simpl. discriminate.
Qed.

(** C6, as the code has it. A point that fails the range predicate gives
    [null]. Otherwise, with [d2] the 2D result: two finite elevations give
    the km [sqrt((d2.km * 1000)^2 + |elev1 - elev2|^2) / 1000] ROUNDED TO 6
    DECIMAL PLACES, and an elevation that is NaN or infinite gives [d2]
    itself. *)
Theorem calculate3DDistance_cases (M : MathObject)
    (lat1 lon1 elev1 lat2 lon2 elev2 : float) :
  (validateCoordinates lat1 lon1 = false \/ validateCoordinates lat2 lon2 = false ->
   calculate3DDistance M lat1 lon1 elev1 lat2 lon2 elev2 = None)
  /\ (validateCoordinates lat1 lon1 = true ->
      validateCoordinates lat2 lon2 = true ->
      exists d2,
        calculate2DDistance M lat1 lon1 lat2 lon2 = Some d2
        /\ (JS.isFinite elev1 && JS.isFinite elev2 = true ->
            exists d3,
              calculate3DDistance M lat1 lon1 elev1 lat2 lon2 elev2 = Some d3
              /\ km d3
                 = JS.toFixed_parse 6
                     (JS.Math_sqrt (Math_pow M (km d2 * 1000) 2
                                    + Math_pow M (JS.Math_abs (elev1 - elev2)) 2)
                      / 1000))
        /\ (JS.isFinite elev1 && JS.isFinite elev2 = false ->
            calculate3DDistance M lat1 lon1 elev1 lat2 lon2 elev2 = Some d2)).
Proof.
  split.
  - intros H. unfold calculate3DDistance.
    now rewrite (calculate2DDistance_invalid M _ _ _ _ H).
  - intros V1 V2.
    destruct (calculate2DDistance_valid M _ _ _ _ V1 V2) as [d2 Hd2].
    exists d2. split; [assumption|].
    unfold calculate3DDistance. rewrite Hd2.
    unfold JS.isFinite, JS.isNaN.
    destruct (is_nan elev1), (is_nan elev2), (is_infinity elev1), (is_infinity elev2);
      simpl; split; intros H; try discriminate; eauto.
Qed.

Lemma calculate3DDistance_cases_witness :
  exists d2,
    calculate2DDistance ReferenceMath.math 0 0 0 1 = Some d2
    /\ (JS.isFinite 120 && JS.isFinite 20 = true ->
        exists d3,
          calculate3DDistance ReferenceMath.math 0 0 120 0 1 20 = Some d3
          /\ km d3
             = JS.toFixed_parse 6
                 (JS.Math_sqrt (Math_pow ReferenceMath.math (km d2 * 1000) 2
                                + Math_pow ReferenceMath.math (JS.Math_abs (120 - 20)) 2)
                  / 1000))
    /\ (JS.isFinite 120 && JS.isFinite 20 = false ->
        calculate3DDistance ReferenceMath.math 0 0 120 0 1 20 = Some d2).
Proof.
  apply (proj2 (calculate3DDistance_cases ReferenceMath.math 0 0 120 0 1 20));
    reflexivity.
Defined.

(** C6 as stated fails: between two points at the same place whose
    elevations differ by 0.0001 m the 2D distance is 0 and the formula gives
    1e-7 km, but the function returns that value rounded to 6 decimal
    places, which is 0. *)
Lemma calculate3DDistance_is_rounded :
  exists d2 d3,
    validateCoordinates 0 0 = true
    /\ JS.isFinite 0.0001 && JS.isFinite 0 = true
    /\ calculate2DDistance ReferenceMath.math 0 0 0 0 = Some d2
    /\ calculate3DDistance ReferenceMath.math 0 0 0.0001 0 0 0 = Some d3
    /\ km d3 = 0
    /\ km d3
       <> JS.Math_sqrt (Math_pow ReferenceMath.math (km d2 * 1000) 2
                        + Math_pow ReferenceMath.math (JS.Math_abs (0.0001 - 0)) 2)
          / 1000.
Proof.
  eexists. eexists. split; [reflexivity|]. split; [reflexivity|].
  split; [vm_compute; reflexivity|]. split; [vm_compute; reflexivity|].
  split; [reflexivity|]. simpl. float_neq.
Qed.

(** The 2D result between a point and itself only involves the values
    that ECMAScript fixes. *)
Lemma calculate2DDistance_same_origin (M : MathObject) :
  Math_sin M 0 = 0 -> Math_cos M 0 = 1 -> Math_atan2 M 0 1 = 0 ->
  calculate2DDistance M 0 0 0 0 = Some zeroDistance.
Proof.
  intros Hs Hc Ha. unfold calculate2DDistance.
  replace (validateCoordinates 0 0) with true by reflexivity. simpl.
  replace (toRadians 0) with 0 by reflexivity.
  replace (0 - 0) with 0 by reflexivity.
  replace (0 / 2) with 0 by reflexivity.
  rewrite Hs, Hc.
  replace (0 * 0 + 1 * 1 * 0 * 0) with 0 by reflexivity.
  replace (JS.Math_sqrt 0) with 0 by reflexivity.
  replace (JS.Math_sqrt (1 - 0)) with 1 by reflexivity.
  rewrite Ha. reflexivity.
Qed.

(** What holds of the 2D matrix. With a sine that is an odd function (as in
    every usual engine; ECMAScript itself leaves [Math.sin] to the
    implementation), for [n >= 2] valid coordinates the 2D matrix has [n]
    rows of [n] cells, the distance zero on its diagonal, and non-null
    distances with the same km and the same miles in the cells [i][j] and
    [j][i]; the two km also compare equal with the operator [==], unless
    they are NaN (which [==] tells apart from itself): that case occurs,
    see C7 below. *)
Theorem distance_matrix_square_zero_diagonal_symmetric (M : MathObject)
    (coordinates : list Coordinate) (include3D : bool) :
  (forall x, Math_sin M (- x) = - Math_sin M x) ->
  (2 <= length coordinates)%nat ->
  Forall valid coordinates ->
  let n := length coordinates in
  exists r m,
    calculateDistanceMatrix M coordinates true include3D = Some r
    /\ matrix2D r = Some m
    /\ length m = n
    /\ Forall (fun row => length row = n) m
    /\ (forall i, (i < n)%nat -> get_cell m i i = Some (Some zeroDistance))
    /\ (forall i j, (i < n)%nat -> (j < n)%nat ->
          exists a b,
            get_cell m i j = Some (Some a)
            /\ get_cell m j i = Some (Some b)
            /\ km a = km b
            /\ miles a = miles b
            /\ (JS.isNaN (km a) = false -> (km a =? km b) = true)).
Proof.
  intros Hodd Hn Hv n.
  destruct (calculateDistanceMatrix_2D M coordinates include3D Hn) as [r [Hr [Hm _]]].
  fold n in Hm. exists r, (table (entry2D M coordinates) n).
  destruct (table_shape (entry2D M coordinates) n) as [Hl Hrows].
  repeat split; try assumption.
  - intros i Hi. rewrite table_cell by assumption.
    unfold entry2D. now rewrite Nat.eqb_refl.
  - intros i j Hi Hj.
    destruct (entry2D_valid M coordinates i j Hv Hi Hj) as [dv Hdv].
    exists dv, dv. rewrite !table_cell by assumption. rewrite Hdv.
    repeat split.
    + rewrite <- Hdv. unfold entry2D. rewrite (Nat.eqb_sym j i).
      destruct (i =? j)%nat; [reflexivity|].
      destruct (nth_error coordinates i), (nth_error coordinates j); try reflexivity.
      f_equal. now apply calculate2DDistance_sym.
    + unfold JS.isNaN, is_nan. now destruct (km dv =? km dv).
Qed.

Lemma distance_matrix_square_zero_diagonal_symmetric_witness :
  exists r m,
    calculateDistanceMatrix ReferenceMath.math
      [mkCoordinate 44.5 (-70.9) None; mkCoordinate 41.8 (-112.8) (Some 1500);
       mkCoordinate 0 0 None] true true = Some r
    /\ matrix2D r = Some m
    /\ length m = 3%nat
    /\ Forall (fun row => length row = 3%nat) m
    /\ (forall i, (i < 3)%nat -> get_cell m i i = Some (Some zeroDistance))
    /\ (forall i j, (i < 3)%nat -> (j < 3)%nat ->
          exists a b,
            get_cell m i j = Some (Some a)
            /\ get_cell m j i = Some (Some b)
            /\ km a = km b
            /\ miles a = miles b
            /\ (JS.isNaN (km a) = false -> (km a =? km b) = true)).
Proof.
  apply (distance_matrix_square_zero_diagonal_symmetric ReferenceMath.math
           [mkCoordinate 44.5 (-70.9) None; mkCoordinate 41.8 (-112.8) (Some 1500);
            mkCoordinate 0 0 None] true).
  - exact reference_sin_odd.
  - simpl; lia.
  - repeat constructor.
Defined.

(** C8. For [n >= 2] valid coordinates the 2D cumulative [totalKm] is the
    sum, taken in input order from 0, of the km of
    [calculate2DDistance(coordinates[i], coordinates[i+1])] for
    [i = 0 .. n-2], rounded to 6 decimal places; with fewer than two
    coordinates the result is [null]. *)
Theorem cumulative_distance_sums_consecutive_pairs (M : MathObject)
    (coordinates : list Coordinate) (include3D : bool) :
  ((length coordinates < 2)%nat ->
   calculateCumulativeDistance M coordinates include3D = None)
  /\ ((2 <= length coordinates)%nat ->
      Forall valid coordinates ->
      exists (r : Cumulative) (ds : list DistanceValue),
        calculateCumulativeDistance M coordinates false = Some r
        /\ length ds = (length coordinates - 1)%nat
        /\ (forall i, (i < length coordinates - 1)%nat ->
              exists coord1 coord2 dv,
                nth_error coordinates i = Some coord1
                /\ nth_error coordinates (i + 1) = Some coord2
                /\ nth_error ds i = Some dv
                /\ calculate2DDistance M (lat coord1) (lon coord1)
                                         (lat coord2) (lon coord2) = Some dv)
        /\ totalKm r
           = JS.toFixed_parse 6 (fold_left (fun acc dv => acc + km dv) ds 0)).
Proof.
  split.
  - intros H. unfold calculateCumulativeDistance.
    destruct (Nat.ltb_spec (length coordinates) 2); [reflexivity | lia].
  - intros Hn Hv.
    destruct (cumulative_loop M coordinates Hv (length coordinates - 1)
                {| totalDistanceKm := 0; totalDistanceMiles := 0;
                   segmentDistances := [] |} (le_n _))
      as [ds [Hlen [Hds Htot]]].
    unfold calculateCumulativeDistance.
    destruct (Nat.ltb_spec (length coordinates) 2); [lia|].
    eexists. exists ds. split; [reflexivity|]. simpl.
    repeat split; try assumption. now rewrite Htot.
Qed.

Lemma cumulative_distance_sums_consecutive_pairs_witness :
  exists (r : Cumulative) (ds : list DistanceValue),
    calculateCumulativeDistance ReferenceMath.math
      [mkCoordinate 0 0 None; mkCoordinate 0 1 None; mkCoordinate 1 1 None] false
    = Some r
    /\ length ds = (3 - 1)%nat
    /\ (forall i, (i < 3 - 1)%nat ->
          exists coord1 coord2 dv,
            nth_error [mkCoordinate 0 0 None; mkCoordinate 0 1 None;
                       mkCoordinate 1 1 None] i = Some coord1
            /\ nth_error [mkCoordinate 0 0 None; mkCoordinate 0 1 None;
                          mkCoordinate 1 1 None] (i + 1) = Some coord2
            /\ nth_error ds i = Some dv
            /\ calculate2DDistance ReferenceMath.math (lat coord1) (lon coord1)
                                   (lat coord2) (lon coord2) = Some dv)
    /\ totalKm r
       = JS.toFixed_parse 6 (fold_left (fun acc dv => acc + km dv) ds 0).
Proof.
  apply (proj2 (cumulative_distance_sums_consecutive_pairs ReferenceMath.math
                  [mkCoordinate 0 0 None; mkCoordinate 0 1 None; mkCoordinate 1 1 None]
                  false)).
  - simpl; lia.
  - repeat constructor.
Defined.

(** The known fixture: one degree of longitude on the equator is
    111.194927 km with the reference [Math] object. *)
Lemma one_degree_on_the_equator :
  calculate2DDistance ReferenceMath.math 0 0 0 1
  = Some {| km := 111.194927; miles := 69.097585 |}.
Proof. vm_compute. reflexivity. Qed.

Lemma add_nan_l (x : float) : nan + x = nan.
Proof. apply Prim2SF_inj. rewrite add_spec. reflexivity. Qed.

(** Whatever the engine, when the haversine term exceeds 1 both distances
    are NaN: the engine is only required to answer NaN to a NaN argument,
    as ECMAScript prescribes for [Math.atan2] and for [Math.pow(NaN, 2)]. *)
Lemma distances_are_NaN_when_haversine_exceeds_one (M : MathObject)
    (lat1 lon1 elev1 lat2 lon2 elev2 : float) :
  (forall y, Math_atan2 M y nan = nan) ->
  Math_pow M nan 2 = nan ->
  validateCoordinates lat1 lon1 = true ->
  validateCoordinates lat2 lon2 = true ->
  JS.isFinite elev1 && JS.isFinite elev2 = true ->
  (1 <? haversine_a M lat1 lon1 lat2 lon2) = true ->
  calculate2DDistance M lat1 lon1 lat2 lon2 = Some {| km := nan; miles := nan |}
  /\ calculate3DDistance M lat1 lon1 elev1 lat2 lon2 elev2
     = Some {| km := nan; miles := nan |}
  /\ JS.geb nan nan = false.
Proof.
  intros Hatan Hpow V1 V2 Hfin Ha.
  assert (H2 : calculate2DDistance M lat1 lon1 lat2 lon2
               = Some {| km := nan; miles := nan |}).
  { rewrite calculate2DDistance_haversine by assumption. cbv zeta.
    rewrite (Rounding.sqrt_one_minus_above_one _ Ha), Hatan. reflexivity. }
  split; [exact H2|]. split; [|reflexivity].
  unfold calculate3DDistance. rewrite H2.
  unfold JS.isFinite, JS.isNaN in *.
  destruct (is_nan elev1), (is_nan elev2), (is_infinity elev1), (is_infinity elev2);
    try discriminate. cbn [orb negb andb km].
  change (nan * 1000) with nan. rewrite Hpow, add_nan_l. reflexivity.
Qed.

(** C9. Between the valid points (44.9, 0) and (-44.9, 180), which are
    antipodal, the haversine term [a] is [sin^2 + cos^2] of one angle; with
    the sine and the cosine rounded to the nearest number it evaluates to
    1.0000000000000002, [Math.sqrt(1 - a)] is NaN, and the km of both the
    2D and the 3D distance are NaN: the 3D km is not greater than or equal
    to the 2D km. The same happens at the latitudes 14.7 and 84.1. *)
Theorem antipodal_distances_are_NaN :
  validateCoordinates 44.9 0 = true
  /\ validateCoordinates (-44.9) 180 = true
  /\ haversine_a ReferenceMath.math 44.9 0 (-44.9) 180 = 1.0000000000000002
  /\ JS.Math_sqrt (1 - 1.0000000000000002) = nan
  /\ calculate2DDistance ReferenceMath.math 44.9 0 (-44.9) 180
     = Some {| km := nan; miles := nan |}
  /\ calculate3DDistance ReferenceMath.math 44.9 0 0 (-44.9) 180 100
     = Some {| km := nan; miles := nan |}
  /\ JS.geb nan nan = false
  /\ calculate2DDistance ReferenceMath.math 14.7 0 (-14.7) 180
     = Some {| km := nan; miles := nan |}
  /\ calculate2DDistance ReferenceMath.math 84.1 0 (-84.1) 180
     = Some {| km := nan; miles := nan |}.
Proof. repeat split; vm_compute; reflexivity. Qed.

(** Whatever the engine (its sine odd, its [Math.atan2] answering NaN to a
    NaN argument, as ECMAScript prescribes): when the haversine term of two
    valid points exceeds 1, the two cells of the 2D matrix that hold their
    distance hold NaN, and [==] does not find them equal. *)
Lemma matrix_cells_are_NaN_when_haversine_exceeds_one (M : MathObject)
    (coord1 coord2 : Coordinate) (include3D : bool) :
  (forall x, Math_sin M (- x) = - Math_sin M x) ->
  (forall y, Math_atan2 M y nan = nan) ->
  valid coord1 -> valid coord2 ->
  (1 <? haversine_a M (lat coord1) (lon coord1) (lat coord2) (lon coord2)) = true ->
  exists r m,
    calculateDistanceMatrix M [coord1; coord2] true include3D = Some r
    /\ matrix2D r = Some m
    /\ get_cell m 0 0 = Some (Some zeroDistance)
    /\ get_cell m 1 1 = Some (Some zeroDistance)
    /\ get_cell m 0 1 = Some (Some {| km := nan; miles := nan |})
    /\ get_cell m 1 0 = Some (Some {| km := nan; miles := nan |})
    /\ (forall a b, get_cell m 0 1 = Some (Some a) -> get_cell m 1 0 = Some (Some b) ->
          (km a =? km b) = false /\ (miles a =? miles b) = false).
Proof.
  intros Hodd Hatan V1 V2 Ha.
  assert (H12 : calculate2DDistance M (lat coord1) (lon coord1) (lat coord2) (lon coord2)
                = Some {| km := nan; miles := nan |}).
  { rewrite calculate2DDistance_haversine by assumption. cbv zeta.
    rewrite (Rounding.sqrt_one_minus_above_one _ Ha), Hatan. reflexivity. }
  assert (H21 : calculate2DDistance M (lat coord2) (lon coord2) (lat coord1) (lon coord1)
                = Some {| km := nan; miles := nan |}).
  { rewrite calculate2DDistance_sym by assumption. exact H12. }
  destruct (calculateDistanceMatrix_2D M [coord1; coord2] include3D ltac:(simpl; lia))
    as [r [Hr [Hm _]]].
  exists r, (table (entry2D M [coord1; coord2]) 2).
  assert (C01 : get_cell (table (entry2D M [coord1; coord2]) 2) 0 1
                = Some (Some {| km := nan; miles := nan |})).
  { rewrite table_cell by lia. unfold entry2D. simpl. now rewrite H12. }
  assert (C10 : get_cell (table (entry2D M [coord1; coord2]) 2) 1 0
                = Some (Some {| km := nan; miles := nan |})).
  { rewrite table_cell by lia. unfold entry2D. simpl. now rewrite H21. }
  split; [exact Hr|]. split; [exact Hm|].
  split; [now rewrite table_cell by lia|]. split; [now rewrite table_cell by lia|].
  split; [exact C01|]. split; [exact C10|].
  intros a b Ha' Hb'. rewrite C01 in Ha'. rewrite C10 in Hb'.
  injection Ha' as <-. injection Hb' as <-. split; reflexivity.
Qed.

Lemma reference_atan2_nan (y : float) : ReferenceMath.atan2 y nan = nan.
Proof.
  unfold ReferenceMath.atan2. change (Prim2SF nan) with S754_nan.
  now destruct (Prim2SF y).
Qed.

(** C7. The 2D matrix of the valid points (44.9, 0) and (-44.9, 180), which
    are antipodal, is not symmetric under [==]: the haversine term rounds
    to 1.0000000000000002, the code does not clamp it, both cells [0][1]
    and [1][0] hold the distance [{km: NaN, miles: NaN}], and
    [M[0][1].km == M[1][0].km] is false, like the comparison of the miles.
    The diagonal holds the zero distance. *)
Theorem antipodal_matrix_is_not_symmetric :
  Forall valid [mkCoordinate 44.9 0 None; mkCoordinate (-44.9) 180 None]
  /\ haversine_a ReferenceMath.math 44.9 0 (-44.9) 180 = 1.0000000000000002
  /\ exists r m,
       calculateDistanceMatrix ReferenceMath.math
         [mkCoordinate 44.9 0 None; mkCoordinate (-44.9) 180 None] true true = Some r
       /\ matrix2D r = Some m
       /\ get_cell m 0 0 = Some (Some zeroDistance)
       /\ get_cell m 1 1 = Some (Some zeroDistance)
       /\ get_cell m 0 1 = Some (Some {| km := nan; miles := nan |})
       /\ get_cell m 1 0 = Some (Some {| km := nan; miles := nan |})
       /\ (forall a b,
             get_cell m 0 1 = Some (Some a) -> get_cell m 1 0 = Some (Some b) ->
             (km a =? km b) = false /\ (miles a =? miles b) = false).
Proof.
  assert (Ha : haversine_a ReferenceMath.math 44.9 0 (-44.9) 180 = 1.0000000000000002)
    by (vm_compute; reflexivity).
  split; [repeat constructor|]. split; [exact Ha|].
  apply (matrix_cells_are_NaN_when_haversine_exceeds_one ReferenceMath.math
           (mkCoordinate 44.9 0 None) (mkCoordinate (-44.9) 180 None) true
           reference_sin_odd reference_atan2_nan);
    [reflexivity | reflexivity | cbn [lat lon]; rewrite Ha; reflexivity].
Qed.

End DistanceProperties.

Module FormatterProperties.

Import UnitFormatter Rounding.
Local Open Scope string_scope.
Local Open Scope float_scope.

(** C4, as the code has it. 0.0005 km is 500 mm, which is in the centimetre
    bracket: the result is 50 cm. For every kilometre value the metric
    branch picks its unit by the brackets, tried in this order: mm in
    [0.1, 10) gives "mm"; mm in [10, 1000) gives "cm"; cm in [100, 10000)
    gives "m"; m in [0.001, 1000) gives "m"; anything else gives "km". *)
Theorem formatInMeters_brackets :
  formatDistanceWithDynamicUnits 0.0005 "meters" = {| value := 50; unit := "cm" |}
  /\ forall kmValue : float,
       let meters := kmValue * 1000 in
       let centimeters := meters * 100 in
       let millimeters := centimeters * 10 in
       unit (formatInMeters kmValue)
       = if JS.geb millimeters 0.1 && (millimeters <? 10) then "mm"
         else if JS.geb millimeters 10 && (millimeters <? 1000) then "cm"
         else if JS.geb centimeters 100 && (centimeters <? 10000) then "m"
         else if JS.geb meters 0.001 && (meters <? 1000) then "m"
         else "km".
Proof.
  split; [vm_compute; reflexivity|].
  intros kmValue meters centimeters millimeters. unfold formatInMeters.
  fold meters. fold centimeters. fold millimeters.
  destruct (JS.geb millimeters 0.1 && (millimeters <? 10)); [reflexivity|].
  destruct (JS.geb millimeters 10 && (millimeters <? 1000)); [reflexivity|].
  destruct (JS.geb centimeters 100 && (centimeters <? 10000)); [reflexivity|].
  destruct (JS.geb meters 0.001 && (meters <? 1000)); [|reflexivity].
  destruct (meters <? 1); reflexivity.
Qed.

(** C4 as stated fails: the result for 0.0005 km is 50 cm, not 0.5 mm. *)
Lemma format_half_metre_is_not_millimetres :
  formatDistanceWithDynamicUnits 0.0005 "meters" = {| value := 50; unit := "cm" |}
  /\ unit (formatDistanceWithDynamicUnits 0.0005 "meters") <> "mm"
  /\ value (formatDistanceWithDynamicUnits 0.0005 "meters") <> 0.5.
Proof.
  split; [vm_compute; reflexivity|]. split.
  - vm_compute. discriminate.
  - replace (value (formatDistanceWithDynamicUnits 0.0005 "meters")) with 50
      by (vm_compute; reflexivity).
    float_neq.
Qed.

(** C10. A distance of exactly 0 is formatted as 0 km: it is in none of the
    millimetre, centimetre and metre brackets. The zero value with the
    default unit "m" is what NaN, an infinity and a negative number give,
    and nothing else gives it. *)
Theorem zero_distance_is_kilometres :
  formatDistanceWithDynamicUnits 0 "meters" = {| value := 0; unit := "km" |}
  /\ (forall kmValue,
        invalid_distance kmValue = true ->
        formatDistanceWithDynamicUnits kmValue "meters" = {| value := 0; unit := "m" |})
  /\ (forall kmValue,
        formatDistanceWithDynamicUnits kmValue "meters" = {| value := 0; unit := "m" |} ->
        invalid_distance kmValue = true).
Proof.
  split; [vm_compute; reflexivity|]. split.
  - intros kmValue H. unfold formatDistanceWithDynamicUnits.
    unfold invalid_distance in H. now rewrite H.
  - intros kmValue. unfold formatDistanceWithDynamicUnits, invalid_distance.
    destruct (JS.isNaN kmValue || negb (JS.isFinite kmValue) || (kmValue <? 0));
      [reflexivity|].
    change (String.eqb "meters" "feet") with false.
    change (String.eqb "meters" "survey-feet") with false.
    cbv iota. unfold formatInMeters.
    set (meters := kmValue * 1000). set (centimeters := meters * 100).
    set (millimeters := centimeters * 10).
    destruct (JS.geb millimeters 0.1 && (millimeters <? 10)); [discriminate|].
    destruct (JS.geb millimeters 10 && (millimeters <? 1000)); [discriminate|].
    destruct (JS.geb centimeters 100 && (centimeters <? 10000)) eqn:Ecm.
    { intros H. exfalso. apply andb_true_iff in Ecm. destruct Ecm as [Ecm _].
      injection H as Hval.
      revert Hval. apply toFixed_parse_nonzero; [now left|].
      now apply div_100_lower_bound. }
    destruct (JS.geb meters 0.001 && (meters <? 1000)) eqn:Em; [|discriminate].
    apply andb_true_iff in Em. destruct Em as [Em _].
    destruct (meters <? 1) eqn:E1; intros H; exfalso; injection H as Hval;
      revert Hval; apply toFixed_parse_nonzero; auto.
    + destruct (geb_lower_bound 0.001 meters 4611686018427388 (-62) eq_refl Em)
        as [Hx|[m [e [Hx Hmag]]]]; [now left|].
      right. exists m, e. split; [exact Hx|].
      change (mag 4611686018427388 (-62)) with (-9)%Z in Hmag. exact Hmag.
    + destruct (geb_lower_bound 0.001 meters 4611686018427388 (-62) eq_refl Em)
        as [Hx|[m [e [Hx Hmag]]]]; [now left|].
      right. exists m, e. split; [exact Hx|].
      change (mag 4611686018427388 (-62)) with (-9)%Z in Hmag. exact Hmag.
Qed.

Lemma zero_distance_is_kilometres_witness :
  formatDistanceWithDynamicUnits nan "meters" = {| value := 0; unit := "m" |}.
Proof.
  apply (proj1 (proj2 zero_distance_is_kilometres) nan). reflexivity.
Defined.

End FormatterProperties.

(** ** Order and signs of binary64 numbers *)

Section FloatOrder.

Local Open Scope float_scope.

Lemma SFcompare_antisym (x y : spec_float) :
  SFcompare y x = option_map CompOpp (SFcompare x y).
Proof.
  destruct x as [sx|sx| |sx mx ex], y as [sy|sy| |sy my ey]; simpl;
    try reflexivity;
    try (destruct sx; reflexivity); try (destruct sy; reflexivity);
    try (destruct sx, sy; reflexivity).
  destruct sx, sy; simpl; try reflexivity.
  - rewrite (Z.compare_antisym ex ey).
    destruct (ex ?= ey)%Z; simpl; try reflexivity.
    rewrite (Pos.compare_cont_antisym mx my Eq). simpl.
    now destruct (Pos.compare_cont Eq mx my).
  - rewrite (Z.compare_antisym ex ey).
    destruct (ex ?= ey)%Z; simpl; try reflexivity.
    rewrite (Pos.compare_cont_antisym mx my Eq). simpl.
    now destruct (Pos.compare_cont Eq mx my).
Qed.

Lemma leb_ltb_false (x y : float) : (x <=? y) = true -> (y <? x) = false.
Proof.
  rewrite leb_spec, ltb_spec. unfold SFleb, SFltb.
  rewrite (SFcompare_antisym (Prim2SF x) (Prim2SF y)).
  now destruct (SFcompare (Prim2SF x) (Prim2SF y)) as [[| |]|].
Qed.

Lemma ltb_asym (x y : float) : (x <? y) = true -> (y <? x) = false.
Proof.
  rewrite !ltb_spec. unfold SFltb.
  rewrite (SFcompare_antisym (Prim2SF x) (Prim2SF y)).
  now destruct (SFcompare (Prim2SF x) (Prim2SF y)) as [[| |]|].
Qed.

Lemma is_nan_spec (x : float) : is_nan x = true <-> Prim2SF x = S754_nan.
Proof.
  unfold is_nan. rewrite eqb_spec. unfold SFeqb.
  destruct (Prim2SF x) as [s|s| |s m e]; simpl.
  - destruct s; split; discriminate.
  - destruct s; split; discriminate.
  - split; reflexivity.
  - destruct s; simpl; rewrite Z.compare_refl, Pos.compare_cont_refl; split; discriminate.
Qed.

Lemma is_nan_opp (x : float) : is_nan (- x) = is_nan x.
Proof.
  apply eq_true_iff_eq. rewrite !is_nan_spec, opp_spec.
  destruct (Prim2SF x); simpl; split; congruence.
Qed.

Lemma is_infinity_opp (x : float) : is_infinity (- x) = is_infinity x.
Proof.
  unfold is_infinity. f_equal. apply Prim2SF_inj.
  rewrite !abs_spec, opp_spec. now destruct (Prim2SF x).
Qed.

Lemma abs_opp (x : float) : abs (- x) = abs x.
Proof. apply Prim2SF_inj. rewrite !abs_spec, opp_spec. now destruct (Prim2SF x). Qed.

Lemma ltb_opp_zero (x : float) : (- x <? 0) = (0 <? x).
Proof.
  rewrite !ltb_spec, opp_spec. unfold SFltb.
  change (Prim2SF 0) with (S754_zero false).
  destruct (Prim2SF x) as [s|s| |s m e]; simpl; try reflexivity; now destruct s.
Qed.

Lemma add_comm (x y : float) : x + y = y + x.
Proof.
  apply Prim2SF_inj. rewrite !add_spec. unfold SF64add, SFadd.
  destruct (Prim2SF x) as [sx|sx| |sx mx ex], (Prim2SF y) as [sy|sy| |sy my ey];
    try reflexivity; try (destruct sx, sy; reflexivity).
  now rewrite Z.min_comm, Z.add_comm.
Qed.

End FloatOrder.

(** ** Numbers compare like their values *)

Module FloatOrderFacts.

Import FloatValue Rounding.
Local Open Scope Z_scope.

(** The mantissa and exponent of a valid finite number. *)
Lemma valid_finite_bounds (s : bool) (m : positive) (e : Z) :
  valid_binary (S754_finite s m e) = true ->
  -1074 <= e <= 971 /\ Zpos m < 2 ^ 53 /\ (-1074 < e -> 2 ^ 52 <= Zpos m).
Proof.
  unfold valid_binary, bounded, canonical_mantissa. intros H.
  apply andb_true_iff in H. destruct H as [H1 H2].
  apply Z.eqb_eq in H1. apply Z.leb_le in H2.
  rewrite fexp_eq in H1. pose proof (digits_bounds m) as [Hlo Hhi].
  set (d := Zpos (digits2_pos m)) in *.
  assert (Hd : 0 < d) by (subst d; lia).
  change (emax - prec) with 971 in H2.
  split; [lia|]. split.
  - assert (d <= 53) by lia.
    eapply Z.lt_le_trans; [exact Hhi|]. apply Z.pow_le_mono_r; lia.
  - intros He. assert (d = 53) by lia.
    replace 52 with (d - 1) by lia. exact Hlo.
Qed.

Lemma scaled_finite_pos (m : positive) (e : Z) :
  -1074 <= e -> 0 < Zpos m * 2 ^ (e + 1074).
Proof. intros H. apply Z.mul_pos_pos; [lia | apply Z.pow_pos_nonneg; lia]. Qed.

Lemma scaled_finite_lt_infinity (m : positive) (e : Z) :
  e <= 971 -> Zpos m < 2 ^ 53 -> Zpos m * 2 ^ (e + 1074) < 2 ^ 2100.
Proof.
  intros He Hm.
  assert (H1 : 2 ^ (e + 1074) <= 2 ^ 2045).
  { destruct (Z.le_gt_cases 0 (e + 1074)).
    - apply Z.pow_le_mono_r; lia.
    - rewrite Z.pow_neg_r by lia. apply Z.pow_nonneg. lia. }
  assert (H2 : 0 <= 2 ^ (e + 1074)) by (apply Z.pow_nonneg; lia).
  replace (2 ^ 2100) with (2 ^ 53 * 2 ^ 2045 * 4)
    by (rewrite <- !Z.pow_add_r by lia; change 4 with (2 ^ 2);
        rewrite <- Z.pow_add_r by lia; reflexivity).
  assert (0 < 2 ^ 2045) by (apply Z.pow_pos_nonneg; lia).
  assert (0 < 2 ^ 53) by (apply Z.pow_pos_nonneg; lia).
  nia.
Qed.

(** Two positive valid numbers compare by exponent first. *)
Lemma scaled_exponent_lt (m1 m2 : positive) (e1 e2 : Z) :
  valid_binary (S754_finite false m1 e1) = true ->
  valid_binary (S754_finite false m2 e2) = true ->
  e1 < e2 ->
  Zpos m1 * 2 ^ (e1 + 1074) < Zpos m2 * 2 ^ (e2 + 1074).
Proof.
  intros V1 V2 He.
  apply valid_finite_bounds in V1. apply valid_finite_bounds in V2.
  destruct V1 as [B1 [M1 _]]. destruct V2 as [B2 [_ M2]].
  assert (M3 : 2 ^ 52 <= Zpos m2) by (apply M2; lia).
  replace (e2 + 1074) with ((e1 + 1074) + (e2 - e1)) by lia.
  rewrite (Z.pow_add_r 2 (e1 + 1074) (e2 - e1)) by lia.
  assert (H1 : 0 < 2 ^ (e1 + 1074)) by (apply Z.pow_pos_nonneg; lia).
  assert (H2 : 2 <= 2 ^ (e2 - e1)).
  { change 2 with (2 ^ 1) at 1. apply Z.pow_le_mono_r; lia. }
  change (2 ^ 53) with (2 * 2 ^ 52) in M1.
  set (A := 2 ^ (e1 + 1074)) in *. set (B := 2 ^ (e2 - e1)) in *.
  assert (H3 : Zpos m1 * A < 2 * Zpos m2 * A).
  { apply Z.mul_lt_mono_pos_r; lia. }
  assert (H4 : 2 * Zpos m2 * A <= Zpos m2 * (A * B)).
  { replace (2 * Zpos m2 * A) with (Zpos m2 * A * 2) by ring.
    replace (Zpos m2 * (A * B)) with (Zpos m2 * A * B) by ring.
    apply Z.mul_le_mono_nonneg_l; [|exact H2].
    apply Z.mul_nonneg_nonneg; lia. }
  lia.
Qed.

Lemma compare_finite_pos (m1 m2 : positive) (e1 e2 : Z) :
  valid_binary (S754_finite false m1 e1) = true ->
  valid_binary (S754_finite false m2 e2) = true ->
  match (e1 ?= e2) with
  | Eq => Pos.compare_cont Eq m1 m2
  | Lt => Lt
  | Gt => Gt
  end = (Zpos m1 * 2 ^ (e1 + 1074) ?= Zpos m2 * 2 ^ (e2 + 1074)).
Proof.
  intros V1 V2. destruct (Z.compare_spec e1 e2) as [->|H|H].
  - pose proof (valid_finite_bounds _ _ _ V2) as [B _].
    rewrite <- Zmult_compare_compat_r
      by (apply Z.lt_gt; apply Z.pow_pos_nonneg; lia).
    reflexivity.
  - symmetry. apply Z.compare_lt_iff. now apply scaled_exponent_lt.
  - symmetry. apply Z.compare_gt_iff. now apply scaled_exponent_lt.
Qed.

Lemma valid_any_sign (s t : bool) (m : positive) (e : Z) :
  valid_binary (S754_finite s m e) = true -> valid_binary (S754_finite t m e) = true.
Proof. exact (fun H => H). Qed.

(** Numbers compare like their values. *)
Lemma SFcompare_scaled (x y : spec_float) :
  valid_binary x = true -> valid_binary y = true ->
  not_nan x -> not_nan y ->
  SFcompare x y = Some (scaled x ?= scaled y).
Proof.
  intros Vx Vy Nx Ny.
  destruct x as [sx|sx| |sx mx ex]; [| |now elim Nx|];
  destruct y as [sy|sy| |sy my ey]; try (now elim Ny).
  - reflexivity.
  - destruct sy; reflexivity.
  - pose proof (valid_finite_bounds _ _ _ Vy) as [B _].
    pose proof (scaled_finite_pos my ey ltac:(lia)).
    unfold SFcompare, scaled, cond_Zopp. destruct sy; f_equal; symmetry.
    + apply Z.compare_gt_iff. lia.
    + apply Z.compare_lt_iff. lia.
  - destruct sx; reflexivity.
  - destruct sx, sy; reflexivity.
  - pose proof (valid_finite_bounds _ _ _ Vy) as [B [M _]].
    pose proof (scaled_finite_lt_infinity my ey ltac:(lia) M).
    pose proof (scaled_finite_pos my ey ltac:(lia)).
    assert (0 < 2 ^ 2100) by (apply Z.pow_pos_nonneg; lia).
    unfold SFcompare, scaled.
    destruct sx, sy; unfold cond_Zopp; f_equal; symmetry;
      (apply Z.compare_gt_iff; lia) || (apply Z.compare_lt_iff; lia).
  - pose proof (valid_finite_bounds _ _ _ Vx) as [B _].
    pose proof (scaled_finite_pos mx ex ltac:(lia)).
    unfold SFcompare, scaled, cond_Zopp. destruct sx; f_equal; symmetry.
    + apply Z.compare_lt_iff. lia.
    + apply Z.compare_gt_iff. lia.
  - pose proof (valid_finite_bounds _ _ _ Vx) as [B [M _]].
    pose proof (scaled_finite_lt_infinity mx ex ltac:(lia) M).
    pose proof (scaled_finite_pos mx ex ltac:(lia)).
    assert (0 < 2 ^ 2100) by (apply Z.pow_pos_nonneg; lia).
    unfold SFcompare, scaled.
    destruct sx, sy; unfold cond_Zopp; f_equal; symmetry;
      (apply Z.compare_gt_iff; lia) || (apply Z.compare_lt_iff; lia).
  - pose proof (valid_finite_bounds _ _ _ Vx) as [Bx _].
    pose proof (valid_finite_bounds _ _ _ Vy) as [By _].
    pose proof (scaled_finite_pos mx ex ltac:(lia)).
    pose proof (scaled_finite_pos my ey ltac:(lia)).
    unfold SFcompare, scaled.
    destruct sx, sy; unfold cond_Zopp; f_equal.
    + rewrite Z.compare_opp.
      rewrite <- (compare_finite_pos my mx ey ex) by assumption.
      rewrite (Z.compare_antisym ex ey).
      destruct (ex ?= ey); simpl; try reflexivity.
      now rewrite (Pos.compare_cont_antisym mx my Eq).
    + symmetry. apply Z.compare_lt_iff. lia.
    + symmetry. apply Z.compare_gt_iff. lia.
    + now apply compare_finite_pos.
Qed.

End FloatOrderFacts.

Module FloatSubtraction.

Import FloatValue Rounding FloatOrderFacts.
Local Open Scope Z_scope.

Lemma SFltb_scaled (x y : spec_float) :
  valid_binary x = true -> valid_binary y = true -> not_nan x -> not_nan y ->
  SFltb x y = (scaled x <? scaled y).
Proof.
  intros Vx Vy Nx Ny. unfold SFltb. rewrite SFcompare_scaled by assumption.
  unfold Z.ltb. now destruct (scaled x ?= scaled y).
Qed.

Lemma SFleb_scaled (x y : spec_float) :
  valid_binary x = true -> valid_binary y = true -> not_nan x -> not_nan y ->
  SFleb x y = (scaled x <=? scaled y).
Proof.
  intros Vx Vy Nx Ny. unfold SFleb. rewrite SFcompare_scaled by assumption.
  unfold Z.leb. now destruct (scaled x ?= scaled y).
Qed.

(** The sign of a rounded non-zero integer is the sign of the integer. *)
Lemma binary_normalize_sign (z e : Z) :
  -1074 <= e ->
  SFltb (S754_zero false) (binary_normalize prec emax z e false) = (0 <? z).
Proof.
  intros He. destruct z as [|p|p]; [reflexivity| |].
  - unfold binary_normalize.
    destruct (binary_round_pos false p e) as [H|[m [e' [H _]]]].
    + unfold mag. pose proof (Pos2Z.is_pos (digits2_pos p)). lia.
    + now rewrite H.
    + now rewrite H.
  - unfold binary_normalize.
    destruct (binary_round_pos true p e) as [H|[m [e' [H _]]]].
    + unfold mag. pose proof (Pos2Z.is_pos (digits2_pos p)). lia.
    + now rewrite H.
    + now rewrite H.
Qed.

(** The difference of two finite numbers, before rounding, in units of
    [2^-1074]. *)
Lemma aligned_difference (sx sy : bool) (mx my : positive) (ex ey : Z) :
  -1074 <= ex -> -1074 <= ey ->
  let ez := Z.min ey ex in
  (cond_Zopp sy (Zpos (fst (shl_align my ey ez)))
   - cond_Zopp sx (Zpos (fst (shl_align mx ex ez)))) * 2 ^ (ez + 1074)
  = scaled (S754_finite sy my ey) - scaled (S754_finite sx mx ex).
Proof.
  intros Hx Hy ez.
  assert (Hzy : ez <= ey) by apply Z.le_min_l.
  assert (Hzx : ez <= ex) by apply Z.le_min_r.
  assert (Hz : -1074 <= ez) by (subst ez; lia).
  clearbody ez.
  destruct (shl_align_le my ey ez Hzy) as [-> _].
  destruct (shl_align_le mx ex ez Hzx) as [-> _].
  unfold scaled.
  replace (ey + 1074) with ((ey - ez) + (ez + 1074)) by lia.
  replace (ex + 1074) with ((ex - ez) + (ez + 1074)) by lia.
  rewrite (Z.pow_add_r 2 (ey - ez) (ez + 1074)) by lia.
  rewrite (Z.pow_add_r 2 (ex - ez) (ez + 1074)) by lia.
  destruct sx, sy; unfold cond_Zopp; ring.
Qed.

End FloatSubtraction.

Section FloatComparisons.

Import FloatValue Rounding FloatOrderFacts FloatSubtraction.
Local Open Scope float_scope.

(** [b - a] is positive exactly when [a < b]: the comparator
    [(a, b) => a - b] orders numbers like [<]. *)
Lemma sub_pos_iff_ltb (x y : float) : (0 <? y - x) = (x <? y).
Proof.
  rewrite !ltb_spec, sub_spec. change (Prim2SF 0) with (S754_zero false).
  pose proof (Prim2SF_valid x) as Vx. pose proof (Prim2SF_valid y) as Vy.
  destruct (Prim2SF x) as [sx|sx| |sx mx ex] eqn:Ex;
    destruct (Prim2SF y) as [sy|sy| |sy my ey] eqn:Ey;
    try reflexivity;
    try (destruct sx, sy; reflexivity);
    try (destruct sx; reflexivity); try (destruct sy; reflexivity).
  rewrite (SFltb_scaled (S754_finite sx mx ex) (S754_finite sy my ey))
    by (assumption || discriminate).
  pose proof (valid_finite_bounds _ _ _ Vx) as [Bx _].
  pose proof (valid_finite_bounds _ _ _ Vy) as [By _].
  unfold SF64sub, SFsub. cbv zeta.
  rewrite binary_normalize_sign by lia.
  pose proof (aligned_difference sx sy mx my ex ey ltac:(lia) ltac:(lia)) as H.
  cbv zeta in H.
  set (z := (cond_Zopp sy _ - cond_Zopp sx _)%Z) in *.
  assert (Hp : (0 < 2 ^ (Z.min ey ex + 1074))%Z) by (apply Z.pow_pos_nonneg; lia).
  apply eq_true_iff_eq. rewrite !Z.ltb_lt. nia.
Qed.

End FloatComparisons.

Module UnitFactor.

Import Rounding FloatOrderFacts.
Local Open Scope Z_scope.

(** Multiplying a valid mantissa by [2^52] at exponent [e - 52] and
    rounding gives the number back. *)
Lemma binary_round_aux_unit (s : bool) (m : positive) (e : Z) :
  valid_binary (S754_finite s m e) = true ->
  binary_round_aux prec emax s (Zpos (4503599627370496 * m)) (-52 + e) loc_Exact
  = S754_finite s m e.
Proof.
  intros V. pose proof V as V'.
  unfold valid_binary, bounded, canonical_mantissa in V'.
  apply andb_true_iff in V'. destruct V' as [Hc Hb].
  apply Z.eqb_eq in Hc. apply Z.leb_le in Hb.
  unfold binary_round_aux, shr_fexp.
  assert (Hd : Zdigits2 (Zpos (4503599627370496 * m)) = Zpos (digits2_pos m) + 52).
  { change (Zdigits2 (Zpos (4503599627370496 * m)))
      with (Zpos (digits2_pos (4503599627370496 * m))).
    rewrite !Zdigits2_log2. rewrite Pos2Z.inj_mul.
    change (Zpos 4503599627370496) with (2 ^ 52).
    rewrite Z.mul_comm, Z.log2_mul_pow2 by lia. lia. }
  rewrite Hd.
  replace (Zpos (digits2_pos m) + 52 + (-52 + e)) with (Zpos (digits2_pos m) + e) by lia.
  rewrite Hc. replace (e - (-52 + e)) with 52 by lia.
  cbn -[fexp Zdigits2 Z.add].
  replace (-52 + e + 52) with e by lia.
  change (Zdigits2 (Zpos m)) with (Zpos (digits2_pos m)).
  rewrite Hc, Z.sub_diag. cbn -[emax prec Z.sub].
  destruct (Z.leb_spec e (emax - prec)); [reflexivity | lia].
Qed.

End UnitFactor.

Section FloatUnit.

Import UnitFactor.
Local Open Scope float_scope.

Lemma mul_1_l (x : float) : 1 * x = x.
Proof.
  apply Prim2SF_inj. rewrite mul_spec.
  pose proof (Prim2SF_valid x) as V.
  change (Prim2SF 1) with (S754_finite false 4503599627370496 (-52)).
  destruct (Prim2SF x) as [s|s| |s m e]; try reflexivity.
  unfold SF64mul, SFmul. cbn [xorb]. now apply binary_round_aux_unit.
Qed.

Lemma mul_m1_l (x : float) : (-1) * x = - x.
Proof.
  apply Prim2SF_inj. rewrite mul_spec, opp_spec.
  pose proof (Prim2SF_valid x) as V.
  change (Prim2SF (-1)) with (S754_finite true 4503599627370496 (-52)).
  destruct (Prim2SF x) as [s|s| |s m e]; try reflexivity.
  unfold SF64mul, SFmul. cbn [xorb SFopp].
  now apply (binary_round_aux_unit (negb s)).
Qed.

End FloatUnit.

Section NaNPropagation.

Local Open Scope float_scope.

Lemma nan_add_l (x : float) : nan + x = nan.
Proof. apply Prim2SF_inj. rewrite add_spec. reflexivity. Qed.

Lemma nan_add_r (x : float) : x + nan = nan.
Proof. rewrite add_comm. apply nan_add_l. Qed.

Lemma nan_mul_r (x : float) : x * nan = nan.
Proof.
  apply Prim2SF_inj. rewrite mul_spec.
  change (Prim2SF nan) with S754_nan. now destruct (Prim2SF x).
Qed.

Lemma nan_div_l (x : float) : nan / x = nan.
Proof. apply Prim2SF_inj. rewrite div_spec. reflexivity. Qed.

Lemma isNaN_true (x : float) : JS.isNaN x = true -> x = nan.
Proof.
  unfold JS.isNaN. intros H. apply is_nan_spec in H.
  apply Prim2SF_inj. now rewrite H.
Qed.

End NaNPropagation.

Module DmsProperties.

Import Str CoordinateParser.
Local Open Scope string_scope.
Local Open Scope float_scope.

(** X3. The two [dmsToDecimal] functions, of the parser and of the converter,
    return the same number for the same three parts; where the converter
    returns [null], for a part that is NaN, the parser returns NaN. *)
Theorem dmsToDecimal_parser_agrees_with_converter (degrees minutes seconds : float) :
  match CoordinateConverter.dmsToDecimal degrees minutes seconds "" with
  | Some v => dmsToDecimal degrees minutes seconds = v
  | None => dmsToDecimal degrees minutes seconds = nan
  end.
Proof.
  unfold CoordinateConverter.dmsToDecimal, dmsToDecimal.
  destruct (JS.isNaN degrees) eqn:Ed; [|destruct (JS.isNaN minutes) eqn:Em];
    [| |destruct (JS.isNaN seconds) eqn:Es]; cbn [orb].
  - apply isNaN_true in Ed. subst degrees.
    change (JS.Math_abs nan) with nan. now rewrite !nan_add_l, nan_mul_r.
  - apply isNaN_true in Em. subst minutes.
    now rewrite nan_div_l, nan_add_r, nan_add_l, nan_mul_r.
  - apply isNaN_true in Es. subst seconds.
    now rewrite nan_div_l, nan_add_r, nan_mul_r.
  - change (upper_is "S" "") with false. change (upper_is "W" "") with false.
    rewrite !orb_false_r.
    destruct (degrees <? 0); [apply mul_m1_l | apply mul_1_l].
Qed.



End DmsProperties.

(** ** Decimal digits *)

Module DigitFacts.

Import Str NumberText.
Local Open Scope Z_scope.

Lemma digit_char_spec (d : Z) :
  0 <= d < 10 -> is_digit (digit_char d) = true /\ digit_val (digit_char d) = d.
Proof.
  intros H.
  assert (E : d = 0 \/ d = 1 \/ d = 2 \/ d = 3 \/ d = 4 \/ d = 5 \/ d = 6 \/ d = 7
              \/ d = 8 \/ d = 9) by lia.
  repeat (destruct E as [->|E]; [split; reflexivity|]). subst. split; reflexivity.
Qed.

Lemma is_digit_not_space (c : ascii) : is_digit c = true -> is_space c = false.
Proof. destruct c as [[] [] [] [] [] [] [] []]; intros H; try reflexivity; discriminate H. Qed.

Lemma is_digit_not_sign (c : ascii) :
  is_digit c = true -> Ascii.eqb c "-" = false /\ Ascii.eqb c "+" = false
                       /\ Ascii.eqb c "." = false /\ Ascii.eqb "I" c = false.
Proof.
  destruct c as [[] [] [] [] [] [] [] []]; intros H; try discriminate H;
    repeat split; reflexivity.
Qed.

Lemma fold_digits_acc (l : list ascii) (acc : Z) :
  fold_left (fun acc c => 10 * acc + digit_val c) l acc
  = acc * 10 ^ Z.of_nat (length l) + digits_val l.
Proof.
  unfold digits_val. revert acc. induction l as [|c l IH]; intros acc.
  - simpl. lia.
  - cbn [fold_left length]. rewrite IH, (IH (10 * 0 + digit_val c)).
    rewrite Nat2Z.inj_succ, Z.pow_succ_r by lia. ring.
Qed.

Lemma digits_val_app (a b : list ascii) :
  digits_val (a ++ b) = digits_val a * 10 ^ Z.of_nat (length b) + digits_val b.
Proof.
  unfold digits_val at 1. rewrite fold_left_app. apply fold_digits_acc.
Qed.

Lemma digits_val_cons (c : ascii) (l : list ascii) :
  digits_val (c :: l) = digit_val c * 10 ^ Z.of_nat (length l) + digits_val l.
Proof. apply (digits_val_app [c] l). Qed.

(** The digits of [z] stand for [z]. *)
Lemma digits_acc_spec (fuel : nat) (z : Z) (acc : list ascii) :
  0 <= z < 2 ^ Z.of_nat fuel -> (0 < fuel)%nat ->
  exists c D, digits_acc fuel z acc = c :: D ++ acc
    /\ Forall (fun a => is_digit a = true) (c :: D)
    /\ digits_val (c :: D) = z.
Proof.
  revert z acc. induction fuel as [|fuel IH]; intros z acc Hz Hf; [lia|].
  cbn [digits_acc].
  assert (Hm : 0 <= z mod 10 < 10) by (apply Z.mod_pos_bound; lia).
  destruct (digit_char_spec _ Hm) as [Hd Hv].
  destruct (Z.ltb_spec z 10) as [Hlt|Hge].
  - exists (digit_char (z mod 10)), []. repeat split.
    + repeat constructor. exact Hd.
    + unfold digits_val. simpl. rewrite Hv. rewrite Z.mod_small by lia. lia.
  - assert (Hq : 0 <= z / 10 < 2 ^ Z.of_nat fuel).
    { split; [apply Z.div_pos; lia|].
      rewrite Nat2Z.inj_succ, Z.pow_succ_r in Hz by lia.
      apply Z.div_lt_upper_bound; lia. }
    assert (Hf' : (0 < fuel)%nat).
    { destruct fuel; [|lia]. simpl in Hq. assert (1 <= z / 10).
      { apply Z.div_le_lower_bound; lia. } lia. }
    destruct (IH (z / 10) (digit_char (z mod 10) :: acc) Hq Hf')
      as [c [D [E [HF HV]]]].
    exists c, (D ++ [digit_char (z mod 10)]). split; [|split].
    + rewrite E. rewrite <- app_assoc. reflexivity.
    + rewrite app_comm_cons. apply Forall_app. split; [exact HF|].
      repeat constructor. exact Hd.
    + rewrite app_comm_cons, digits_val_app, HV.
      change (digits_val [digit_char (z mod 10)])
        with (10 * 0 + digit_val (digit_char (z mod 10))).
      change (Z.of_nat (length [digit_char (z mod 10)])) with 1.
      rewrite Hv. pose proof (Z.div_mod z 10 ltac:(lia)). lia.
Qed.

Lemma digit_list_spec (z : Z) :
  0 <= z ->
  exists c D, digit_list z = c :: D
    /\ Forall (fun a => is_digit a = true) (c :: D)
    /\ digits_val (c :: D) = z.
Proof.
  intros Hz. unfold digit_list.
  destruct (digits_acc_spec (S (Z.to_nat (Z.log2 z))) z []) as [c [D [E H]]].
  - split; [lia|]. rewrite Nat2Z.inj_succ, Z2Nat.id by apply Z.log2_nonneg.
    destruct (Z.eq_dec z 0) as [->|Hn]; [reflexivity|].
    apply Z.log2_spec. lia.
  - lia.
  - exists c, D. rewrite E, app_nil_r. split; [reflexivity | exact H].
Qed.

Lemma fraction_spec (f : nat) (r : Z) :
  0 <= r ->
  length (fraction f r) = f
  /\ Forall (fun a => is_digit a = true) (fraction f r)
  /\ digits_val (fraction f r) = r mod 10 ^ Z.of_nat f.
Proof.
  revert r. induction f as [|f IH]; intros r Hr.
  - simpl. repeat split; [constructor|]. now rewrite Z.mod_1_r.
  - cbn [fraction].
    assert (Hm : 0 <= r mod 10 < 10) by (apply Z.mod_pos_bound; lia).
    destruct (digit_char_spec _ Hm) as [Hd Hv].
    destruct (IH (r / 10) ltac:(apply Z.div_pos; lia)) as [H1 [H2 H3]].
    split; [rewrite length_app, H1; simpl; lia|]. split.
    + apply Forall_app. split; [exact H2 | repeat constructor; exact Hd].
    + rewrite digits_val_app, H3.
      change (digits_val [digit_char (r mod 10)])
        with (10 * 0 + digit_val (digit_char (r mod 10))).
      change (Z.of_nat (length [digit_char (r mod 10)])) with 1.
      rewrite Hv, Nat2Z.inj_succ, Z.pow_succ_r by lia.
      rewrite (Z.rem_mul_r r 10 (10 ^ Z.of_nat f)) by
        (try lia; apply Z.pow_pos_nonneg; lia).
      lia.
Qed.

Lemma span_digits (I rest : list ascii) :
  Forall (fun a => is_digit a = true) I ->
  match rest with [] => True | c :: _ => is_digit c = false end ->
  span is_digit (I ++ rest) = (I, rest).
Proof.
  intros HI Hr. induction HI as [|c I Hc HI IH]; simpl.
  - destruct rest as [|c rest]; [reflexivity|]. simpl. now rewrite Hr.
  - now rewrite Hc, IH.
Qed.

Lemma list_of_append (a b : string) :
  list_ascii_of_string (a ++ b) = list_ascii_of_string a ++ list_ascii_of_string b.
Proof. induction a as [|c a IH]; simpl; congruence. Qed.

End DigitFacts.

Module ParseFloatFacts.

Import Str NumberText DigitFacts.
Local Open Scope Z_scope.

(** [parseFloat] on a decimal numeral: an optional minus sign, digits and,
    if there is a fraction, a point and its digits. *)
Lemma parseFloat_decimal (neg : bool) (c : ascii) (D F : list ascii) :
  Forall (fun a => is_digit a = true) (c :: D) ->
  Forall (fun a => is_digit a = true) F ->
  parseFloat (string_of_list_ascii
                ((if neg then ["-"%char] else [])
                 ++ (c :: D) ++ match F with [] => [] | _ => "."%char :: F end))
  = match digits_val ((c :: D) ++ F) with
    | Zpos m => JS.of_ratio neg m (Z.to_pos (10 ^ Z.of_nat (length F)))
    | _ => if neg then (-0)%float else 0%float
    end.
Proof.
  intros HI HF. unfold parseFloat. rewrite list_ascii_of_string_of_list_ascii.
  inversion HI as [|? ? Hc HD]; subst.
  assert (Hspan : forall tail,
            match tail with [] => True | a :: _ => is_digit a = false end ->
            span is_digit (c :: D ++ tail) = (c :: D, tail)).
  { intros tail Ht. apply (span_digits (c :: D) tail HI Ht). }
  assert (HspanF : span is_digit F = (F, [])).
  { rewrite <- (app_nil_r F) at 1. now apply span_digits. }
  assert (Hbody :
    (if is_prefix (list_ascii_of_string "Infinity")
          (c :: D ++ match F with [] => [] | _ => "."%char :: F end)
     then if neg then neg_infinity else infinity
     else
       let '(ip, s1) :=
         span is_digit (c :: D ++ match F with [] => [] | _ => "."%char :: F end) in
       let '(fp, s2) :=
         match s1 with
         | "."%char :: r => span is_digit r
         | _ => ([], s1)
         end in
       match ip ++ fp with
       | [] => nan
       | ds =>
           let k := exponent_part s2 - Z.of_nat (length fp) in
           match digits_val ds with
           | Zpos m =>
               if 0 <=? k then JS.of_ratio neg (m * Z.to_pos (10 ^ k)) 1
               else JS.of_ratio neg m (Z.to_pos (10 ^ (- k)))
           | _ => if neg then (-0)%float else 0%float
           end
       end)
    = match digits_val ((c :: D) ++ F) with
      | Zpos m => JS.of_ratio neg m (Z.to_pos (10 ^ Z.of_nat (length F)))
      | _ => if neg then (-0)%float else 0%float
      end).
  { destruct (is_digit_not_sign c Hc) as [_ [_ [_ HI']]].
    cbn [is_prefix list_ascii_of_string]. rewrite HI'. cbn [andb].
    destruct F as [|f0 F'].
    - rewrite Hspan by exact I. cbn [app length exponent_part].
      rewrite app_nil_r. change (0 - Z.of_nat 0) with 0.
      destruct (digits_val (c :: D)); try reflexivity.
      cbn [Z.leb Z.compare Z.pow Z.to_pos]. now rewrite Pos.mul_1_r.
    - rewrite Hspan by reflexivity. rewrite HspanF.
      cbn [app exponent_part].
      destruct (digits_val (c :: D ++ f0 :: F')); reflexivity. }
  destruct neg.
  - cbn [app dropWhile]. change (is_space "-") with false. cbv iota.
    exact Hbody.
  - cbn [app]. cbn [dropWhile]. rewrite (is_digit_not_space c Hc).
    destruct c as [[] [] [] [] [] [] [] []]; try discriminate Hc; exact Hbody.
Qed.

End ParseFloatFacts.

Module ToFixedFacts.

Import Str NumberText DigitFacts ParseFloatFacts.
Local Open Scope Z_scope.

Lemma toFixed_digits_nonneg (d : nat) (m : positive) (e : Z) :
  0 <= JS.toFixed_digits d m e.
Proof.
  unfold JS.toFixed_digits.
  assert (0 < 10 ^ Z.of_nat d) by (apply Z.pow_pos_nonneg; lia).
  destruct (0 <=? e) eqn:E.
  - apply Z.leb_le in E. assert (0 < 2 ^ e) by (apply Z.pow_pos_nonneg; lia). nia.
  - apply Z.leb_gt in E. assert (0 < 2 ^ (- e)) by (apply Z.pow_pos_nonneg; lia).
    apply Z.div_pos; nia.
Qed.

(** The text of [toFixed] for the integer [n], as a numeral. *)
Lemma fixed_point_shape (f : nat) (n : Z) :
  0 <= n ->
  exists c D F,
    list_ascii_of_string (fixed_point f n)
    = (c :: D) ++ match F with [] => [] | _ => "."%char :: F end
    /\ Forall (fun a => is_digit a = true) (c :: D)
    /\ Forall (fun a => is_digit a = true) F
    /\ length F = f
    /\ digits_val ((c :: D) ++ F) = n.
Proof.
  intros Hn. unfold fixed_point. destruct f as [|f].
  - destruct (digit_list_spec n Hn) as [c [D [E [HF HV]]]].
    exists c, D, []. unfold digits. rewrite list_ascii_of_string_of_list_ascii, E.
    rewrite !app_nil_r. repeat split; try assumption. constructor.
  - set (p := 10 ^ Z.of_nat (S f)).
    assert (Hp : 0 < p) by (apply Z.pow_pos_nonneg; lia).
    destruct (digit_list_spec (n / p) ltac:(apply Z.div_pos; lia))
      as [c [D [E [HF HV]]]].
    destruct (fraction_spec (S f) (n mod p) ltac:(apply Z.mod_pos_bound; lia))
      as [H1 [H2 H3]].
    exists c, D, (fraction (S f) (n mod p)).
    split; [|split; [exact HF|split; [exact H2|split; [exact H1|]]]].
    + rewrite !list_of_append. unfold digits.
      rewrite !list_ascii_of_string_of_list_ascii, E.
      destruct (fraction (S f) (n mod p)) as [|a F] eqn:EF; [discriminate H1|].
      reflexivity.
    + rewrite digits_val_app, HV, H3, H1. fold p.
      rewrite Z.mod_mod by lia. pose proof (Z.div_mod n p ltac:(lia)). lia.
Qed.

End ToFixedFacts.

Module RoundingFacts.

Import Str NumberText DigitFacts ParseFloatFacts ToFixedFacts.
Local Open Scope string_scope.
Local Open Scope float_scope.

Lemma parseFloat_toFixed_small (f : nat) (x : float) :
  (1e21 <=? abs x) = false ->
  parseFloat (toFixed f x) = JS.toFixed_parse f x.
Proof.
  intros Hx. unfold toFixed, JS.toFixed_parse.
  destruct (Prim2SF x) as [s|s| |s m e] eqn:E.
  - destruct (fixed_point_shape f 0 ltac:(lia)) as [c [D [F [E1 [H1 [H2 [H3 H4]]]]]]].
    rewrite <- (string_of_list_ascii_of_string (fixed_point f 0)), E1.
    rewrite (parseFloat_decimal false c D F H1 H2
             : parseFloat (string_of_list_ascii
                             ((c :: D) ++ match F with
                                          | [] => []
                                          | _ => "."%char :: F
                                          end)) = _).
    rewrite H4. reflexivity.
  - rewrite leb_spec, abs_spec, E in Hx. destruct s; discriminate Hx.
  - reflexivity.
  - rewrite Hx.
    pose proof (toFixed_digits_nonneg f m e) as Hn.
    destruct (fixed_point_shape f _ Hn) as [c [D [F [E1 [H1 [H2 [H3 H4]]]]]]].
    rewrite <- (string_of_list_ascii_of_string (_ ++ _)), list_of_append, E1.
    replace (list_ascii_of_string (if s then "-" else ""))
      with (if s then ["-"%char] else []) by (now destruct s).
    rewrite (parseFloat_decimal s c D F H1 H2), H4, H3.
    now destruct (JS.toFixed_digits f m e).
Qed.

(** The text of [toFixed] with at least one decimal place, for a finite
    number below 1e21 in magnitude, is a numeral. *)
Lemma toFixed_numeral (f : nat) (x : float) :
  JS.isFinite x = true -> (1e21 <=? abs x) = false ->
  exists neg c D f0 F,
    list_ascii_of_string (toFixed (S f) x)
    = RegexSpec.numeral neg (c :: D) (f0 :: F)
    /\ Forall (fun a => is_digit a = true) (c :: D)
    /\ Forall (fun a => is_digit a = true) (f0 :: F).
Proof.
  intros Hfin Hx. unfold toFixed.
  assert (Hshape : forall (neg : bool) (n : Z), (0 <= n)%Z ->
            exists c D f0 F,
              list_ascii_of_string ((if neg then "-" else "") ++ fixed_point (S f) n)
              = RegexSpec.numeral neg (c :: D) (f0 :: F)
              /\ Forall (fun a => is_digit a = true) (c :: D)
              /\ Forall (fun a => is_digit a = true) (f0 :: F)).
  { intros neg n Hn.
    destruct (fixed_point_shape (S f) n Hn) as [c [D [F [E1 [H1 [H2 [H3 H4]]]]]]].
    destruct F as [|f0 F]; [discriminate H3|].
    exists c, D, f0, F. split; [|split; assumption].
    rewrite list_of_append, E1. unfold RegexSpec.numeral. now destruct neg. }
  destruct (Prim2SF x) as [s|s| |s m e] eqn:E.
  - destruct (Hshape false 0%Z ltac:(lia)) as [c [D [f0 [F H]]]].
    exists false, c, D, f0, F. exact H.
  - rewrite leb_spec, abs_spec, E in Hx. destruct s; discriminate Hx.
  - unfold JS.isFinite in Hfin.
    assert (is_nan x = true) by (now apply is_nan_spec).
    rewrite H in Hfin. discriminate Hfin.
  - rewrite Hx.
    destruct (Hshape s _ (toFixed_digits_nonneg (S f) m e)) as [c [D [f0 [F H]]]].
    exists s, c, D, f0, F. exact H.
Qed.

End RoundingFacts.

Module RoundingIdiom.

Import Str NumberText RoundingFacts.
Local Open Scope float_scope.

(** X6. The rounding idiom [parseFloat(x.toFixed(f))] of the sources, for a
    number below 1e21 in magnitude (or NaN): reading the text of [toFixed]
    back gives the number nearest to [n / 10^f], where [n] is the integer
    that [toFixed] prints; a negative number that rounds to zero gives -0. *)
Theorem parseFloat_of_toFixed (f : nat) (x : float) :
  (1e21 <=? abs x) = false ->
  parseFloat (toFixed f x) = JS.toFixed_parse f x.
Proof. apply parseFloat_toFixed_small. Qed.

Lemma parseFloat_of_toFixed_witness :
  parseFloat (toFixed 6 111.19492664455873) = JS.toFixed_parse 6 111.19492664455873.
Proof. apply (parseFloat_of_toFixed 6 111.19492664455873). reflexivity. Defined.

End RoundingIdiom.

(** ** The backtracking matcher *)

Module RegexFacts.

Import Str RegexSpec.

Section Equations.

Variables (f pos : nat) (s : list ascii) (caps : captures) (k : cont).

Lemma rmatch_Eps : rmatch (S f) Eps pos s caps k = k pos s caps.
Proof. reflexivity. Qed.

Lemma rmatch_Bol :
  rmatch (S f) Bol pos s caps k = if (pos =? 0)%nat then k pos s caps else None.
Proof. reflexivity. Qed.

Lemma rmatch_Eol :
  rmatch (S f) Eol pos s caps k
  = match s with [] => k pos s caps | _ :: _ => None end.
Proof. reflexivity. Qed.

Lemma rmatch_Chr (p : ascii -> bool) :
  rmatch (S f) (Chr p) pos s caps k
  = match s with
    | c :: s' => if p c then k (S pos) s' caps else None
    | [] => None
    end.
Proof. reflexivity. Qed.

Lemma rmatch_Seq (r1 r2 : regex) :
  rmatch (S f) (Seq r1 r2) pos s caps k
  = rmatch (S f) r1 pos s caps
      (fun pos' s' caps' => rmatch (S f) r2 pos' s' caps' k).
Proof. reflexivity. Qed.

Lemma rmatch_Alt (r1 r2 : regex) :
  rmatch (S f) (Alt r1 r2) pos s caps k
  = match rmatch (S f) r1 pos s caps k with
    | Some c => Some c
    | None => rmatch (S f) r2 pos s caps k
    end.
Proof. reflexivity. Qed.

Lemma rmatch_Star (r1 : regex) :
  rmatch (S f) (Star r1) pos s caps k
  = match rmatch (S f) r1 pos s caps
            (fun pos' s' caps' =>
               if (length s' <? length s)%nat
               then rmatch f (Star r1) pos' s' caps' k
               else None) with
    | Some c => Some c
    | None => k pos s caps
    end.
Proof. reflexivity. Qed.

Lemma rmatch_Group (i : nat) (r1 : regex) :
  rmatch (S f) (Group i r1) pos s caps k
  = rmatch (S f) r1 pos s caps
      (fun pos' s' caps' => k pos' s' ((i, firstn (pos' - pos) s) :: caps')).
Proof. reflexivity. Qed.

End Equations.

(** A pattern fails when what follows it fails wherever the pattern can
    stop: after a prefix of characters that it can consume. *)
Lemma rmatch_fails (q : ascii -> bool) (fuel : nat) :
  forall (r : regex), consumes_only q r ->
  forall (pos : nat) (s : list ascii) (caps : captures) (k : cont),
    (forall u s' pos' caps',
       s = u ++ s' -> Forall (fun c => q c = true) u -> k pos' s' caps' = None) ->
    rmatch fuel r pos s caps k = None.
Proof.
  induction fuel as [|f IHf]; [reflexivity|].
  induction r as [| | |p|r1 IH1 r2 IH2|r1 IH1 r2 IH2|r1 IH1|i r1 IH1];
    intros Hq pos s caps k Hk.
  - rewrite rmatch_Eps. now apply (Hk [] s).
  - rewrite rmatch_Bol. destruct (pos =? 0)%nat; [|reflexivity]. now apply (Hk [] s).
  - rewrite rmatch_Eol. destruct s; [|reflexivity]. now apply (Hk [] []).
  - rewrite rmatch_Chr. destruct s as [|c s']; [reflexivity|].
    destruct (p c) eqn:E; [|reflexivity].
    apply (Hk [c] s'); [reflexivity|]. repeat constructor. now apply Hq.
  - destruct Hq as [Q1 Q2]. rewrite rmatch_Seq. apply IH1; [exact Q1|].
    intros u s' pos' caps' -> Hu. apply IH2; [exact Q2|].
    intros u2 s'' pos'' caps'' -> Hu2.
    apply (Hk (u ++ u2) s''); [now rewrite app_assoc|]. now apply Forall_app.
  - destruct Hq as [Q1 Q2]. rewrite rmatch_Alt.
    rewrite (IH1 Q1 pos s caps k Hk). now apply IH2.
  - rewrite rmatch_Star. rewrite IH1.
    + now apply (Hk [] s).
    + exact Hq.
    + intros u s' pos' caps' -> Hu.
      destruct (length s' <? length (u ++ s'))%nat; [|reflexivity].
      apply IHf; [exact Hq|].
      intros u2 s'' pos'' caps'' -> Hu2.
      apply (Hk (u ++ u2) s''); [now rewrite app_assoc|]. now apply Forall_app.
  - rewrite rmatch_Group. apply IH1; [exact Hq|].
    intros u s' pos' caps' E Hu. now apply (Hk u s').
Qed.

(** A starred character class takes the whole run of its characters when
    what follows succeeds there. *)
Lemma star_chr_greedy (p : ascii -> bool) (ds : list ascii) :
  forall (fuel pos : nat) (rest : list ascii) (caps : captures) (k : cont)
         (c : captures),
    Forall (fun a => p a = true) ds ->
    match rest with [] => True | a :: _ => p a = false end ->
    (length ds < fuel)%nat ->
    k (pos + length ds)%nat rest caps = Some c ->
    rmatch fuel (Star (Chr p)) pos (ds ++ rest) caps k = Some c.
Proof.
  induction ds as [|d ds IH]; intros fuel pos rest caps k c Hds Hrest Hfuel Hk.
  - destruct fuel as [|f]; [simpl in Hfuel; lia|].
    rewrite rmatch_Star, rmatch_Chr. cbn [app].
    rewrite Nat.add_0_r in Hk.
    destruct rest as [|a rest]; [exact Hk|]. now rewrite Hrest.
  - destruct fuel as [|f]; [simpl in Hfuel; lia|].
    inversion Hds as [|? ? Hd Hds']; subst.
    rewrite rmatch_Star, rmatch_Chr. cbn [app]. rewrite Hd.
    assert (Hlen : (length (ds ++ rest) <? length (d :: ds ++ rest))%nat = true).
    { apply Nat.ltb_lt. simpl. lia. }
    rewrite Hlen.
    rewrite (IH f (S pos) rest caps k c Hds' Hrest); [reflexivity| |].
    + simpl in Hfuel. lia.
    + rewrite <- Hk. f_equal. simpl. lia.
Qed.

Lemma search_found (fuel : nat) (r : regex) (pos : nat) (s : list ascii)
    (c : captures) :
  rmatch fuel r pos s [] (fun _ _ c => Some c) = Some c ->
  search fuel r pos s = Some c.
Proof. intros H. destruct s; simpl; now rewrite H. Qed.

Lemma search_none (fuel : nat) (r : regex) (s : list ascii) :
  forall pos,
    (forall u s', s = u ++ s' ->
       rmatch fuel r (pos + length u) s' [] (fun _ _ c => Some c) = None) ->
    search fuel r pos s = None.
Proof.
  induction s as [|a s IH]; intros pos H.
  - simpl. pose proof (H [] [] eq_refl) as H0. simpl in H0.
    rewrite Nat.add_0_r in H0. now rewrite H0.
  - simpl. pose proof (H [] (a :: s) eq_refl) as H0. simpl in H0.
    rewrite Nat.add_0_r in H0. rewrite H0.
    apply IH. intros u s' ->.
    replace (S pos + length u)%nat with (pos + length (a :: u))%nat by (simpl; lia).
    now apply (H (a :: u) s').
Qed.

Lemma firstn_exact {A : Type} (a b : list A) : firstn (length a) (a ++ b) = a.
Proof. induction a as [|x a IH]; simpl; congruence. Qed.

(** Where a run of characters of one class stops: at the first character
    that is not of the class. *)
Lemma prefix_stop (q : ascii -> bool) (X : list ascii) (d : ascii) (Y u : list ascii)
    (c : ascii) (rest : list ascii) :
  X ++ d :: Y = u ++ c :: rest -> q d = false ->
  Forall (fun a => q a = true) u -> In c (X ++ [d]).
Proof.
  revert u. induction X as [|x X IH]; intros u E Hd Hu.
  - destruct u as [|a u]; simpl in E.
    + injection E as <- _. now left.
    + injection E as <- _. inversion Hu; subst. congruence.
  - destruct u as [|a u]; simpl in E.
    + injection E as <- _. now left.
    + injection E as _ E. right. apply (IH u E Hd). now inversion Hu.
Qed.

End RegexFacts.

(** ** The patterns of the parser on two decimal numerals *)

Module PatternFacts.

Import Str RegexSpec RegexFacts CoordinateParser DigitFacts.

Lemma plain_chars (c : ascii) :
  plain c = true ->
  existsb (Ascii.eqb c) (list_ascii_of_string "NSns") = false
  /\ Ascii.eqb (ascii_of_nat 194) c = false.
Proof.
  destruct c as [[] [] [] [] [] [] [] []]; intros H; try discriminate H;
    split; reflexivity.
Qed.

Lemma digit_plain (c : ascii) : is_digit c = true -> plain c = true.
Proof. unfold plain. now intros ->. Qed.

Lemma space_plain (c : ascii) : is_space c = true -> plain c = true.
Proof. unfold plain. intros ->. now rewrite !orb_true_r. Qed.

Lemma numeral_plain (neg : bool) (I F : list ascii) :
  Forall (fun a => is_digit a = true) I -> Forall (fun a => is_digit a = true) F ->
  Forall (fun a => plain a = true) (numeral neg I F).
Proof.
  intros HI HF. unfold numeral. apply Forall_app. split.
  - destruct neg; repeat constructor.
  - apply Forall_app. split.
    + eapply Forall_impl; [|exact HI]. apply digit_plain.
    + constructor; [reflexivity|]. eapply Forall_impl; [|exact HF]. apply digit_plain.
Qed.

Lemma Forall_suffix {A : Type} (P : A -> Prop) (u s' : list A) :
  Forall P (u ++ s') -> Forall P s'.
Proof. intros H. apply Forall_app in H. tauto. Qed.

(** The patterns that ask for a cardinal letter or a degree sign find
    none in plain text. *)
Lemma lettered_patterns_fail (l : list ascii) :
  Forall (fun a => plain a = true) l ->
  exec dmsWithCardinal (string_of_list_ascii l) = None
  /\ exec dmsWithSymbols (string_of_list_ascii l) = None
  /\ exec decimalWithCardinal (string_of_list_ascii l) = None.
Proof.
  intros Hl. unfold exec. rewrite list_ascii_of_string_of_list_ascii.
  replace (length l + 2)%nat with (S (length l + 1)) by lia.
  set (f := (length l + 1)%nat). clearbody f.
  repeat split.
  - apply search_none. intros u s' ->. apply Forall_suffix in Hl.
    unfold dmsWithCardinal, seqs, oneof. cbn [fold_right].
    rewrite rmatch_Seq, rmatch_Group, rmatch_Chr.
    destruct s' as [|c s']; [reflexivity|].
    inversion Hl as [|? ? Hc _]; subst.
    destruct (plain_chars c Hc) as [H1 _]. now rewrite H1.
  - apply search_none. intros u s' ->. apply Forall_suffix in Hl.
    unfold dmsWithSymbols, seqs. cbn [fold_right].
    rewrite rmatch_Seq.
    apply (rmatch_fails (fun _ => true)).
    + simpl. repeat split; intros; reflexivity.
    + intros u2 s'' pos' caps' -> _. apply Forall_suffix in Hl.
      unfold degree, lit. cbn [list_ascii_of_string fold_right].
      rewrite rmatch_Seq, rmatch_Seq. unfold chr. rewrite rmatch_Chr.
      destruct s'' as [|c s'']; [reflexivity|].
      inversion Hl as [|? ? Hc _]; subst.
      destruct (plain_chars c Hc) as [_ H2].
      change (Ascii.eqb (ascii_of_nat 194) c) with
        (Ascii.eqb (Ascii false true false false false false true true) c) in H2.
      now rewrite H2.
  - apply search_none. intros u s' ->. apply Forall_suffix in Hl.
    unfold decimalWithCardinal, seqs, oneof. cbn [fold_right].
    rewrite rmatch_Seq, rmatch_Group, rmatch_Chr.
    destruct s' as [|c s']; [reflexivity|].
    inversion Hl as [|? ? Hc _]; subst.
    destruct (plain_chars c Hc) as [H1 _]. now rewrite H1.
Qed.

End PatternFacts.

Module NumeralFacts.

Import Str RegexSpec RegexFacts CoordinateParser DigitFacts PatternFacts.

(** The space-separated pattern stops at the point of a decimal numeral:
    it asks for white space after the first run of digits. *)
Lemma dmsSpaceSeparated_fails (neg : bool) (I F rest : list ascii) :
  Forall (fun a => is_digit a = true) I ->
  exec dmsSpaceSeparated (string_of_list_ascii (numeral neg I F ++ rest)) = None.
Proof.
  intros HI. unfold exec. rewrite list_ascii_of_string_of_list_ascii.
  set (s := numeral neg I F ++ rest).
  replace (length s + 2)%nat with (S (length s + 1)) by lia.
  set (f := (length s + 1)%nat). clearbody f.
  apply search_none. intros u s' E.
  unfold dmsSpaceSeparated, seqs. cbn [fold_right].
  rewrite rmatch_Seq, rmatch_Bol.
  destruct u as [|a u]; [|reflexivity]. simpl in E. subst s'. cbn [length Nat.add Nat.eqb].
  rewrite rmatch_Seq.
  apply (rmatch_fails (fun c => is_digit c || Ascii.eqb "-" c)).
  - simpl. repeat split; intros c Hc; rewrite Hc; auto using orb_true_r.
  - intros u s' pos' caps' E Hu.
    unfold plus, ws. rewrite rmatch_Seq, rmatch_Seq, rmatch_Chr.
    destruct s' as [|c s']; [reflexivity|].
    assert (Hin : In c (((if neg then ["-"%char] else []) ++ I) ++ ["."%char])).
    { apply (prefix_stop (fun c => is_digit c || Ascii.eqb "-" c) _ "."%char
               (F ++ rest) u c s'); [|reflexivity|exact Hu].
      rewrite <- E. unfold s, numeral. now rewrite <- !app_assoc. }
    assert (Hns : is_space c = false).
    { apply in_app_or in Hin. destruct Hin as [Hin|[<-|[]]]; [|reflexivity].
      apply in_app_or in Hin. destruct Hin as [Hin|Hin].
      - destruct neg; [destruct Hin as [<-|[]]; reflexivity | destruct Hin].
      - rewrite Forall_forall in HI. apply is_digit_not_space. now apply HI. }
    now rewrite Hns.
Qed.

Lemma numeral_app (neg : bool) (I F rest : list ascii) :
  numeral neg I F ++ rest
  = (if neg then ["-"%char] else []) ++ I ++ "."%char :: F ++ rest.
Proof. unfold numeral. now rewrite <- !app_assoc. Qed.

Lemma numeral_length (neg : bool) (I F : list ascii) :
  length (numeral neg I F)
  = ((if neg then 1 else 0) + length I + 1 + length F)%nat.
Proof. unfold numeral. rewrite !length_app. destruct neg; simpl; lia. Qed.

Section Matching.

Variables (f : nat) (caps : captures) (k : cont) (r : captures).

(** [\d+(?:\.\d+)?] takes the digits, the point and the digits. *)
Lemma match_unsigned (pos posf : nat) (c0 : ascii) (D : list ascii) (f0 : ascii)
    (F rest : list ascii) :
  Forall (fun a => is_digit a = true) (c0 :: D) ->
  Forall (fun a => is_digit a = true) (f0 :: F) ->
  match rest with [] => True | a :: _ => is_digit a = false end ->
  (length D <= f)%nat -> (length F <= f)%nat ->
  posf = (pos + length (c0 :: D) + 1 + length (f0 :: F))%nat ->
  k posf rest caps = Some r ->
  rmatch (S f) unsigned_decimal pos ((c0 :: D) ++ "."%char :: (f0 :: F) ++ rest) caps k
  = Some r.
Proof.
  intros HI HF Hrest HfD HfF -> Hk.
  inversion HI as [|? ? Hc0 HD]; subst. inversion HF as [|? ? Hf0 HF']; subst.
  unfold unsigned_decimal, plus, opt, d.
  rewrite rmatch_Seq, rmatch_Seq, rmatch_Chr. cbn [app]. rewrite Hc0.
  apply star_chr_greedy; [exact HD|reflexivity|lia|].
  rewrite rmatch_Alt, rmatch_Seq. unfold chr. rewrite rmatch_Chr.
  change (Ascii.eqb "." ".") with true. cbv iota.
  rewrite rmatch_Seq, rmatch_Chr, Hf0.
  rewrite (star_chr_greedy is_digit F (S f) _ rest caps k r HF' Hrest); [reflexivity|lia|].
  rewrite <- Hk. f_equal. simpl. lia.
Qed.

(** [-?\d+(?:\.\d+)?] on a numeral. *)
Lemma match_signed (pos posf : nat) (neg : bool) (c0 : ascii) (D : list ascii)
    (f0 : ascii) (F rest : list ascii) :
  Forall (fun a => is_digit a = true) (c0 :: D) ->
  Forall (fun a => is_digit a = true) (f0 :: F) ->
  match rest with [] => True | a :: _ => is_digit a = false end ->
  (length D <= f)%nat -> (length F <= f)%nat ->
  posf = (pos + length (numeral neg (c0 :: D) (f0 :: F)))%nat ->
  k posf rest caps = Some r ->
  rmatch (S f) signed_decimal pos (numeral neg (c0 :: D) (f0 :: F) ++ rest) caps k
  = Some r.
Proof.
  intros HI HF Hrest HfD HfF -> Hk.
  unfold signed_decimal, opt. rewrite rmatch_Seq, rmatch_Alt.
  unfold chr at 1. rewrite rmatch_Chr, numeral_app. rewrite numeral_length in Hk.
  destruct neg.
  - change ((["-"%char] ++ (c0 :: D) ++ "."%char :: (f0 :: F) ++ rest))
      with ("-"%char :: (c0 :: D) ++ "."%char :: (f0 :: F) ++ rest).
    change (Ascii.eqb "-" "-") with true. cbv iota.
    rewrite (match_unsigned (S pos) _ c0 D f0 F rest HI HF Hrest HfD HfF eq_refl);
      [reflexivity|].
    rewrite <- Hk. f_equal. simpl. lia.
  - change ([] ++ (c0 :: D) ++ "."%char :: (f0 :: F) ++ rest)
      with (c0 :: D ++ "."%char :: (f0 :: F) ++ rest).
    inversion HI as [|? ? Hc0 HD]; subst.
    destruct (is_digit_not_sign c0 Hc0) as [Hm _].
    rewrite Ascii.eqb_sym, Hm. rewrite rmatch_Eps.
    apply (match_unsigned pos _ c0 D f0 F rest HI HF Hrest HfD HfF eq_refl).
    rewrite <- Hk. f_equal. simpl. lia.
Qed.

End Matching.

(** The decimal pattern matches two numerals separated by one white-space
    character, and captures them. *)
Lemma decimalDegrees_matches (n1 n2 : bool) (c1 : ascii) (D1 : list ascii)
    (f1 : ascii) (F1 : list ascii) (sp : ascii) (c2 : ascii) (D2 : list ascii)
    (f2 : ascii) (F2 : list ascii) :
  Forall (fun a => is_digit a = true) (c1 :: D1) ->
  Forall (fun a => is_digit a = true) (f1 :: F1) ->
  Forall (fun a => is_digit a = true) (c2 :: D2) ->
  Forall (fun a => is_digit a = true) (f2 :: F2) ->
  is_space sp = true ->
  let A1 := numeral n1 (c1 :: D1) (f1 :: F1) in
  let A2 := numeral n2 (c2 :: D2) (f2 :: F2) in
  exec decimalDegrees (string_of_list_ascii (A1 ++ sp :: A2))
  = Some [(2%nat, A2); (1%nat, A1)].
Proof.
  intros HI1 HF1 HI2 HF2 Hsp A1 A2.
  unfold exec. rewrite list_ascii_of_string_of_list_ascii.
  set (s := A1 ++ sp :: A2).
  assert (Hlen : length s = (length A1 + S (length A2))%nat).
  { unfold s. rewrite length_app. reflexivity. }
  assert (L1 : (length D1 + length F1 <= length A1)%nat).
  { unfold A1. rewrite numeral_length. simpl. lia. }
  assert (L2 : (length D2 + length F2 <= length A2)%nat).
  { unfold A2. rewrite numeral_length. simpl. lia. }
  replace (length s + 2)%nat with (S (length s + 1)) by lia.
  set (f := (length s + 1)%nat).
  assert (Hf : (length s < f)%nat) by (unfold f; lia). clearbody f.
  apply search_found.
  unfold decimalDegrees, seqs. cbn [fold_right].
  rewrite rmatch_Seq, rmatch_Bol. cbn [Nat.eqb].
  rewrite rmatch_Seq, rmatch_Group.
  unfold s.
  apply (match_signed f _ _ _ 0 (0 + length A1) n1 c1 D1 f1 F1 (sp :: A2)
           HI1 HF1); [|lia|lia|reflexivity|].
  { destruct (is_digit sp) eqn:E; [|reflexivity].
    apply is_digit_not_space in E. congruence. }
  cbv beta. rewrite Nat.sub_0_r, Nat.add_0_l. fold A1. rewrite firstn_exact.
  unfold plus, ws. rewrite rmatch_Seq, rmatch_Seq, rmatch_Chr, Hsp.
  assert (Hhead : match A2 with [] => True | a :: _ => is_space a = false end).
  { unfold A2, numeral. destruct n2; cbn [app]; [reflexivity|].
    inversion HI2; subst. now apply is_digit_not_space. }
  rewrite (star_chr_greedy is_space [] (S f) _ A2 _ _
             [(2%nat, A2); (1%nat, A1)] (Forall_nil _) Hhead); [reflexivity|simpl; lia|].
  rewrite rmatch_Seq, rmatch_Group.
  rewrite <- (app_nil_r A2) at 1. unfold A2 at 1.
  apply (match_signed f _ _ _ _ (S (length A1) + 0 + length A2) n2 c2 D2 f2 F2 []
           HI2 HF2 I); [lia|lia|reflexivity|].
  cbv beta. rewrite rmatch_Seq, rmatch_Eol, rmatch_Eps.
  replace (S (length A1) + 0 + length A2 - (S (length A1) + length (@nil ascii)))%nat
    with (length A2) by (simpl; lia).
  rewrite firstn_all. reflexivity.
Qed.

End NumeralFacts.

Module RoundTripFacts.

Import Str Text RegexSpec RegexFacts CoordinateParser CoordinateLines
       NumberText DigitFacts PatternFacts NumeralFacts ToFixedFacts.

Lemma dropWhile_head (p : ascii -> bool) (c : ascii) (l : list ascii) :
  p c = false -> dropWhile p (c :: l) = c :: l.
Proof. intros H. simpl. now rewrite H. Qed.

(** [trim] leaves a text that neither starts nor ends with white space. *)
Lemma trim_id (c : ascii) (l : list ascii) (z : ascii) :
  is_space c = false -> is_space z = false ->
  trim (string_of_list_ascii (c :: l ++ [z])) = string_of_list_ascii (c :: l ++ [z]).
Proof.
  intros Hc Hz. unfold trim. rewrite list_ascii_of_string_of_list_ascii.
  rewrite (dropWhile_head is_space c _ Hc).
  change (c :: l ++ [z]) with ((c :: l) ++ [z]).
  rewrite rev_unit, (dropWhile_head is_space z _ Hz).
  now rewrite <- rev_unit, rev_involutive.
Qed.

(** A numeral as a first character, a middle and a last digit. *)
Lemma numeral_ends (neg : bool) (c0 : ascii) (D : list ascii) (f0 : ascii)
    (F : list ascii) :
  Forall (fun a => is_digit a = true) (c0 :: D) ->
  Forall (fun a => is_digit a = true) (f0 :: F) ->
  exists c mid z,
    numeral neg (c0 :: D) (f0 :: F) = c :: mid ++ [z]
    /\ is_space c = false /\ is_digit z = true
    /\ is_delimiter c = false.
Proof.
  intros HI HF.
  destruct (exists_last (l := f0 :: F) ltac:(discriminate)) as [F' [z EF]].
  assert (Hz : is_digit z = true).
  { rewrite Forall_forall in HF. apply HF. rewrite EF. apply in_or_app.
    right. now left. }
  inversion HI as [|? ? Hc0 _]; subst.
  unfold numeral. rewrite EF. destruct neg.
  - exists "-"%char, ((c0 :: D) ++ "."%char :: F'), z.
    repeat split; try reflexivity; try assumption.
    cbn [app]. now rewrite <- !app_assoc.
  - exists c0, (D ++ "."%char :: F'), z. repeat split; try assumption.
    + cbn [app]. now rewrite <- !app_assoc.
    + now apply is_digit_not_space.
    + destruct c0 as [[] [] [] [] [] [] [] []]; try discriminate Hc0; reflexivity.
Qed.

Lemma plain_not_delimiter (c : ascii) :
  is_digit c = true \/ c = "-"%char \/ c = "."%char -> is_delimiter c = false.
Proof.
  intros [H|[->| ->]]; try reflexivity.
  destruct c as [[] [] [] [] [] [] [] []]; try discriminate H; reflexivity.
Qed.

Lemma numeral_no_delimiter (neg : bool) (I F : list ascii) :
  Forall (fun a => is_digit a = true) I -> Forall (fun a => is_digit a = true) F ->
  Forall (fun a => is_delimiter a = false) (numeral neg I F).
Proof.
  intros HI HF. unfold numeral. apply Forall_app. split.
  - destruct neg; repeat constructor.
  - apply Forall_app. split.
    + eapply Forall_impl; [|exact HI]. intros a Ha. apply plain_not_delimiter. auto.
    + constructor; [reflexivity|].
      eapply Forall_impl; [|exact HF]. intros a Ha. apply plain_not_delimiter. auto.
Qed.

(** Two numerals separated by one white-space character are read by the
    decimal pattern, whatever the other patterns. *)
Lemma parseCoordinate_numerals (n1 n2 : bool) (c1 : ascii) (D1 : list ascii)
    (f1 : ascii) (F1 : list ascii) (sp : ascii) (c2 : ascii) (D2 : list ascii)
    (f2 : ascii) (F2 : list ascii) :
  Forall (fun a => is_digit a = true) (c1 :: D1) ->
  Forall (fun a => is_digit a = true) (f1 :: F1) ->
  Forall (fun a => is_digit a = true) (c2 :: D2) ->
  Forall (fun a => is_digit a = true) (f2 :: F2) ->
  is_space sp = true ->
  let A1 := numeral n1 (c1 :: D1) (f1 :: F1) in
  let A2 := numeral n2 (c2 :: D2) (f2 :: F2) in
  parseCoordinate (string_of_list_ascii (A1 ++ sp :: A2))
  = Some (mkLatLon (parseFloat (string_of_list_ascii A1))
                   (parseFloat (string_of_list_ascii A2))).
Proof.
  intros HI1 HF1 HI2 HF2 Hsp A1 A2.
  destruct (numeral_ends n1 c1 D1 f1 F1 HI1 HF1) as [a [mid1 [z1 [E1 [Ha [Hz1 _]]]]]].
  destruct (numeral_ends n2 c2 D2 f2 F2 HI2 HF2) as [b [mid2 [z2 [E2 [Hb [Hz2 _]]]]]].
  assert (Htext : A1 ++ sp :: A2 = a :: (mid1 ++ z1 :: sp :: b :: mid2) ++ [z2]).
  { unfold A1, A2. rewrite E1, E2. cbn [app]. rewrite <- !app_assoc. reflexivity. }
  assert (Htrim : trim (string_of_list_ascii (A1 ++ sp :: A2))
                  = string_of_list_ascii (A1 ++ sp :: A2)).
  { rewrite Htext. apply trim_id; [exact Ha | now apply is_digit_not_space]. }
  unfold parseCoordinate. rewrite Htrim.
  assert (Hplain : Forall (fun c => plain c = true) (A1 ++ sp :: A2)).
  { apply Forall_app. split; [apply numeral_plain; now inversion HI1 || assumption|].
    constructor; [now apply space_plain|]. apply numeral_plain; assumption. }
  destruct (lettered_patterns_fail _ Hplain) as [P1 [P2 P3]].
  pose proof (dmsSpaceSeparated_fails n1 (c1 :: D1) (f1 :: F1) (sp :: A2) HI1) as P0.
  pose proof (decimalDegrees_matches n1 n2 c1 D1 f1 F1 sp c2 D2 f2 F2
                HI1 HF1 HI2 HF2 Hsp) as P4.
  cbv zeta in P4. fold A1 in P0, P4. fold A2 in P4.
  rewrite P0, P1, P2, P3, P4.
  rewrite Htext. reflexivity.
Qed.

End RoundTripFacts.

Module SplitFacts.

Import Str Text CoordinateLines.

Lemma split_runs_token (sep : ascii -> bool) (tok : list ascii) :
  forall (rest cur : list ascii) (b : bool),
    Forall (fun a => sep a = false) tok ->
    split_runs sep (tok ++ rest) cur b
    = split_runs sep rest (rev tok ++ cur) (match tok with [] => b | _ => false end).
Proof.
  induction tok as [|a tok IH]; intros rest cur b H; [reflexivity|].
  inversion H as [|? ? Ha Ht]; subst. cbn [app split_runs]. rewrite Ha.
  rewrite (IH rest (a :: cur) false Ht). cbn [rev]. rewrite <- app_assoc.
  now destruct tok.
Qed.

(** Two pieces without delimiters around one delimiter are the two parts
    of the text. *)
Lemma split_runs_two (sep : ascii -> bool) (a : ascii) (A1 : list ascii) (c : ascii)
    (A2 : list ascii) :
  Forall (fun x => sep x = false) (a :: A1) ->
  Forall (fun x => sep x = false) A2 -> sep c = true ->
  split_runs sep ((a :: A1) ++ c :: A2) [] false
  = [string_of_list_ascii (a :: A1); string_of_list_ascii A2].
Proof.
  intros H1 H2 Hc.
  rewrite (split_runs_token sep (a :: A1) (c :: A2) [] false H1).
  cbn [split_runs]. rewrite Hc, app_nil_r, rev_involutive.
  rewrite <- (app_nil_r A2) at 1.
  rewrite (split_runs_token sep A2 [] [] true H2).
  cbn [split_runs]. now rewrite app_nil_r, rev_involutive.
Qed.

Lemma split_char_none (c0 : ascii) (s cur : list ascii) :
  Forall (fun a => Ascii.eqb a c0 = false) s ->
  split_char c0 s cur = [string_of_list_ascii (rev cur ++ s)].
Proof.
  revert cur. induction s as [|a s IH]; intros cur H.
  - simpl. now rewrite app_nil_r.
  - inversion H as [|? ? Ha Hs]; subst. cbn [split_char]. rewrite Ha.
    rewrite (IH (a :: cur) Hs). cbn [rev]. now rewrite <- app_assoc.
Qed.

End SplitFacts.

Module RoundTripProperties.

Import Str Text RegexSpec CoordinateParser CoordinateLines ConverterText
       NumberText DigitFacts PatternFacts NumeralFacts RoundingFacts
       RoundTripFacts SplitFacts.
Local Open Scope string_scope.
Local Open Scope float_scope.

Lemma isFinite_not_NaN (x : float) : JS.isFinite x = true -> JS.isNaN x = false.
Proof.
  unfold JS.isFinite, JS.isNaN. destruct (is_nan x); [discriminate | reflexivity].
Qed.

Lemma formatDecimal_finite (x : float) (precision : nat) :
  JS.isFinite x = true -> formatDecimal x precision = toFixed precision x.
Proof.
  intros H. unfold formatDecimal. now rewrite (isFinite_not_NaN x H), H.
Qed.

(** Two formatted numbers around one white-space character parse back to
    the numbers rounded to ten decimal places. *)
Lemma parseCoordinate_formatted (lat lon : float) (sp : ascii) :
  JS.isFinite lat = true -> (1e21 <=? abs lat) = false ->
  JS.isFinite lon = true -> (1e21 <=? abs lon) = false ->
  is_space sp = true ->
  parseCoordinate (toFixed 10 lat ++ String sp (toFixed 10 lon))
  = Some (mkLatLon (JS.toFixed_parse 10 lat) (JS.toFixed_parse 10 lon)).
Proof.
  intros F1 B1 F2 B2 Hsp.
  destruct (toFixed_numeral 9 lat F1 B1) as [n1 [c1 [D1 [f1 [G1 [E1 [HI1 HF1]]]]]]].
  destruct (toFixed_numeral 9 lon F2 B2) as [n2 [c2 [D2 [f2 [G2 [E2 [HI2 HF2]]]]]]].
  rewrite <- (string_of_list_ascii_of_string (_ ++ _)), list_of_append.
  cbn [list_ascii_of_string]. rewrite E1, E2.
  rewrite (parseCoordinate_numerals n1 n2 c1 D1 f1 G1 sp c2 D2 f2 G2
             HI1 HF1 HI2 HF2 Hsp).
  rewrite <- E1, <- E2, !string_of_list_ascii_of_string.
  now rewrite !parseFloat_toFixed_small.
Qed.

(** X5. The text that the converter displays, and the text that it copies to
    the clipboard, are read back by the parser as the coordinates rounded to
    ten decimal places, with no elevation: pasted in the list of
    coordinates, the copied text gives that one point. *)
Theorem formatted_coordinates_parse_back (lat lon : float) :
  JS.isFinite lat = true -> (1e21 <=? abs lat) = false ->
  JS.isFinite lon = true -> (1e21 <=? abs lon) = false ->
  let rounded := mkLatLon (JS.toFixed_parse 10 lat) (JS.toFixed_parse 10 lon) in
  parseCoordinate (formatForDisplay lat lon " ") = Some rounded
  /\ parseCoordinate (formatForClipboard lat lon) = Some rounded
  /\ parseMultipleCoordinates (formatForClipboard lat lon)
     = [mkParsed (JS.toFixed_parse 10 lat) (JS.toFixed_parse 10 lon) None].
Proof.
  intros F1 B1 F2 B2 rounded.
  unfold formatForDisplay, formatForClipboard, CoordinateConverter.decimalPrecision.
  rewrite !formatDecimal_finite by assumption.
  assert (Hd : parseCoordinate (toFixed 10 lat ++ " " ++ toFixed 10 lon) = Some rounded).
  { apply (parseCoordinate_formatted lat lon " "%char); auto. }
  assert (Hc : parseCoordinate (toFixed 10 lat ++ tab ++ toFixed 10 lon) = Some rounded).
  { apply (parseCoordinate_formatted lat lon (ascii_of_nat 9)); auto. }
  split; [exact Hd|]. split; [exact Hc|].
  destruct (toFixed_numeral 9 lat F1 B1) as [n1 [c1 [D1 [f1 [G1 [E1 [HI1 HF1]]]]]]].
  destruct (toFixed_numeral 9 lon F2 B2) as [n2 [c2 [D2 [f2 [G2 [E2 [HI2 HF2]]]]]]].
  destruct (numeral_ends n1 c1 D1 f1 G1 HI1 HF1) as [a [mid1 [z1 [N1 [Ha [Hz1 _]]]]]].
  destruct (numeral_ends n2 c2 D2 f2 G2 HI2 HF2) as [b [mid2 [z2 [N2 [Hb [Hz2 _]]]]]].
  set (text := toFixed 10 lat ++ tab ++ toFixed 10 lon) in *.
  assert (Htext : list_ascii_of_string text
                  = ((a :: mid1 ++ [z1]) ++ ascii_of_nat 9 :: (b :: mid2 ++ [z2]))%list).
  { unfold text. rewrite !list_of_append.
    change (list_ascii_of_string tab) with [ascii_of_nat 9].
    now rewrite E1, E2, N1, N2. }
  assert (Hnd1 : Forall (fun x => is_delimiter x = false) (a :: mid1 ++ [z1])%list).
  { rewrite <- N1. apply numeral_no_delimiter; assumption. }
  assert (Hnd2 : Forall (fun x => is_delimiter x = false) (b :: mid2 ++ [z2])%list).
  { rewrite <- N2. apply numeral_no_delimiter; assumption. }
  assert (Hs1 : string_of_list_ascii (a :: mid1 ++ [z1])%list = toFixed 10 lat).
  { now rewrite <- N1, <- E1, string_of_list_ascii_of_string. }
  assert (Hs2 : string_of_list_ascii (b :: mid2 ++ [z2])%list = toFixed 10 lon).
  { now rewrite <- N2, <- E2, string_of_list_ascii_of_string. }
  assert (Ht1 : trim (toFixed 10 lat) = toFixed 10 lat).
  { rewrite <- Hs1. apply trim_id; [exact Ha | now apply is_digit_not_space]. }
  assert (Ht2 : trim (toFixed 10 lon) = toFixed 10 lon).
  { rewrite <- Hs2. apply trim_id; [exact Hb | now apply is_digit_not_space]. }
  assert (Hne1 : truthy (toFixed 10 lat) = true) by (now rewrite <- Hs1).
  assert (Hne2 : truthy (toFixed 10 lon) = true) by (now rewrite <- Hs2).
  assert (Hparts : parts_of text = [toFixed 10 lat; toFixed 10 lon]).
  { unfold parts_of. rewrite Htext.
    rewrite (split_runs_two is_delimiter a (mid1 ++ [z1])%list (ascii_of_nat 9)
               (b :: mid2 ++ [z2])%list Hnd1 Hnd2 eq_refl).
    rewrite Hs1, Hs2. cbn [filter]. now rewrite Ht1, Ht2, Hne1, Hne2. }
  assert (Hline : parseCoordinateWithElevation text
                  = Some (mkParsed (JS.toFixed_parse 10 lat)
                                   (JS.toFixed_parse 10 lon) None)).
  { unfold parseCoordinateWithElevation. rewrite Hparts.
    cbn [length Nat.ltb Nat.leb Nat.eqb join String.concat].
    rewrite Hd. reflexivity. }
  assert (Htrim : trim text = text).
  { rewrite <- (string_of_list_ascii_of_string text), Htext.
    change ((a :: mid1 ++ [z1]) ++ ascii_of_nat 9 :: b :: mid2 ++ [z2])%list
      with (a :: (mid1 ++ [z1]) ++ (ascii_of_nat 9 :: b :: mid2) ++ [z2])%list.
    rewrite app_assoc.
    apply trim_id; [exact Ha | now apply is_digit_not_space]. }
  assert (Htruthy : truthy text = true).
  { rewrite <- (string_of_list_ascii_of_string text), Htext. reflexivity. }
  unfold parseMultipleCoordinates. rewrite Htruthy. cbn [negb].
  rewrite split_char_none.
  - cbn [rev app]. rewrite string_of_list_ascii_of_string.
    cbn [filter]. rewrite Htrim, Htruthy. cbn [parse_lines].
    now rewrite Htrim, Htruthy, Hline.
  - rewrite Htext. apply Forall_app. split.
    + eapply Forall_impl; [|exact Hnd1]. intros x Hx.
      destruct x as [[] [] [] [] [] [] [] []]; try discriminate Hx; reflexivity.
    + constructor; [reflexivity|].
      eapply Forall_impl; [|exact Hnd2]. intros x Hx.
      destruct x as [[] [] [] [] [] [] [] []]; try discriminate Hx; reflexivity.
Qed.

Lemma formatted_coordinates_parse_back_witness :
  let rounded := mkLatLon (JS.toFixed_parse 10 44.4734245277)
                          (JS.toFixed_parse 10 (-70.88862750833)) in
  parseCoordinate (formatForDisplay 44.4734245277 (-70.88862750833) " ") = Some rounded
  /\ parseCoordinate (formatForClipboard 44.4734245277 (-70.88862750833)) = Some rounded
  /\ parseMultipleCoordinates (formatForClipboard 44.4734245277 (-70.88862750833))
     = [mkParsed (JS.toFixed_parse 10 44.4734245277)
                 (JS.toFixed_parse 10 (-70.88862750833)) None].
Proof.
  apply (formatted_coordinates_parse_back 44.4734245277 (-70.88862750833));
    reflexivity.
Defined.

End RoundTripProperties.

Module ParserFormatProperties.

Import Str Text CoordinateParser CoordinateLines.
Local Open Scope string_scope.

(** X1. [detectFormat] and [parseCoordinate] agree on what they accept. *)
Theorem detectFormat_agrees_with_parseCoordinate (input : string) :
  (detectFormat input = "unknown" <-> parseCoordinate input = None)
  /\ (detectFormat input = "dms" \/ detectFormat input = "decimal"
      \/ detectFormat input = "unknown")
  /\ (detectFormat input = "decimal" ->
      exists m, (exec decimalWithCardinal (trim input) = Some m
                 /\ parseCoordinate input = Some (parseDecimalWithCardinal m))
             \/ (exec decimalWithCardinal (trim input) = None
                 /\ exec decimalDegrees (trim input) = Some m
                 /\ parseCoordinate input = Some (parseDecimalDegrees m))).
Proof.
  unfold detectFormat, parseCoordinate, test.
  destruct input as [|c input]; simpl truthy; cbv iota beta.
  - simpl. repeat split; try tauto; discriminate.
  - cbn [negb].
    destruct (exec dmsSpaceSeparated _) as [m1|];
    destruct (exec dmsWithCardinal _) as [m2|];
    destruct (exec dmsWithSymbols _) as [m3|];
    destruct (exec decimalWithCardinal _) as [m4|];
    destruct (exec decimalDegrees _) as [m5|]; simpl;
    (split; [split; intros; discriminate || reflexivity|]);
    (split; [tauto|]); intros H; try discriminate H.
    + exists m4. left. split; reflexivity.
    + exists m4. left. split; reflexivity.
    + exists m5. right. repeat split; reflexivity.
Qed.

End ParserFormatProperties.

Module ElevationProperties.

Import DistanceCalculator CalculatorUnits ConverterText.
Local Open Scope string_scope.
Local Open Scope float_scope.

(** X11. The two conversions of an elevation to metres agree, for every unit
    name. *)
Theorem convertWithElevation_agrees_with_convertElevation
    (lat lon elevation : float) (elevationUnit : string) :
  convertWithElevation lat lon elevation elevationUnit
  = mkCoordinate lat lon (Some (convertElevation elevation elevationUnit "meters"))
  /\ (elevationUnit <> "feet" -> elevationUnit <> "survey-feet" ->
      convertElevation elevation elevationUnit "meters" = elevation).
Proof.
  unfold convertWithElevation, convertElevation.
  destruct (String.eqb_spec elevationUnit "meters") as [->|Hm]; [split; reflexivity|].
  destruct (String.eqb_spec elevationUnit "feet") as [->|Hf]; [split; [reflexivity|congruence]|].
  destruct (String.eqb_spec elevationUnit "survey-feet") as [->|Hs];
    [split; [reflexivity|congruence]|].
  destruct (String.eqb_spec elevationUnit "ellipsoidal"); split; reflexivity.
Qed.

End ElevationProperties.

Module AppProperties.

Import DistanceCalculator App.
Local Open Scope string_scope.
Local Open Scope float_scope.

Lemma number_or_null_nonzero (text : string) (v : float) :
  number_or_null text = Some v -> (v =? 0) = false /\ JS.isNaN v = false.
Proof.
  unfold number_or_null. intros H.
  destruct (JS.isNaN (Str.parseFloat text)) eqn:E1; [discriminate|].
  destruct (Str.parseFloat text =? 0) eqn:E2; [discriminate|].
  simpl in H. injection H as <-. now split.
Qed.

Lemma usable_entry_of_row (index : nat) (row : Row) (c : Coordinate) :
  usable (entry_of_row index row) = Some c ->
  (DistanceCalculator.lat c =? 0) = false /\ (DistanceCalculator.lon c =? 0) = false
  /\ JS.isFinite (DistanceCalculator.lat c) = true /\ JS.isFinite (DistanceCalculator.lon c) = true.
Proof.
  unfold usable, entry_of_row. cbn [App.lat App.lon App.elevation].
  destruct (number_or_null (latInput row)) as [la|] eqn:Ela; [|discriminate].
  destruct (number_or_null (lonInput row)) as [lo|] eqn:Elo; [|discriminate].
  destruct (negb (JS.isNaN la) && negb (JS.isNaN lo) && JS.isFinite la && JS.isFinite lo)
    eqn:E; [|discriminate].
  intros H. injection H as <-. cbn [DistanceCalculator.lat DistanceCalculator.lon].
  apply number_or_null_nonzero in Ela, Elo.
  apply andb_true_iff in E. destruct E as [E E4].
  apply andb_true_iff in E. destruct E as [E E3]. tauto.
Qed.

Lemma validCoordinates_entries_from (index : nat) (rows : list Row) :
  Forall (fun c => (DistanceCalculator.lat c =? 0) = false /\ (DistanceCalculator.lon c =? 0) = false
                   /\ JS.isFinite (DistanceCalculator.lat c) = true /\ JS.isFinite (DistanceCalculator.lon c) = true)
         (validCoordinates (entries_from index rows))
  /\ (length (validCoordinates (entries_from index rows)) <= length rows)%nat.
Proof.
  revert index. induction rows as [|row rows IH]; intros index; simpl.
  - split; [constructor | lia].
  - destruct (IH (S index)) as [H1 H2].
    destruct (usable (entry_of_row index row)) as [c|] eqn:E; simpl.
    + split; [|lia]. constructor; [|assumption].
      now apply (usable_entry_of_row index row).
    + split; [assumption | lia].
Qed.

(** X19. The manual table cannot hold a point on the equator or on the prime
    meridian: a latitude or longitude that reads as zero is stored as
    [null], and the row is dropped before the distances are calculated. *)
Theorem manual_rows_with_a_zero_are_dropped (M : MathObject) (rows : list Row) :
  Forall (fun c => (DistanceCalculator.lat c =? 0) = false /\ (DistanceCalculator.lon c =? 0) = false
                   /\ JS.isFinite (DistanceCalculator.lat c) = true /\ JS.isFinite (DistanceCalculator.lon c) = true)
         (validCoordinates (updateCoordinatesFromManual rows))
  /\ (length (validCoordinates (updateCoordinatesFromManual rows)) <= length rows)%nat
  /\ (forall row index,
        (Str.parseFloat (latInput row) =? 0) = true
        \/ (Str.parseFloat (lonInput row) =? 0) = true ->
        usable (entry_of_row index row) = None)
  /\ handleDistanceCalculation M
       [mkRow "" "0" "10" "" (Some "meters"); mkRow "" "0" "20" "" (Some "meters")]
       true true
     = inl "At least 2 valid coordinates are required for distance calculation. Please check your input values.".
Proof.
  destruct (validCoordinates_entries_from 0 rows) as [H1 H2].
  repeat split; try assumption.
  intros row index [H|H]; unfold usable, entry_of_row, number_or_null;
    cbn [App.lat App.lon]; rewrite H, orb_true_r.
  - reflexivity.
  - now destruct (_ || _).
Qed.

(** X20. The survey grade depends on the two offsets only through the sum of
    their squares: it is the same when they are exchanged or when one
    changes sign, and an offset that is not a number is graded as the
    largest distance. *)
Theorem getDistanceAssessment_symmetric (horizontal vertical : float) :
  getDistanceAssessment horizontal vertical = getDistanceAssessment vertical horizontal
  /\ getDistanceAssessment (- horizontal) vertical
     = getDistanceAssessment horizontal vertical
  /\ getDistanceAssessment horizontal (- vertical)
     = getDistanceAssessment horizontal vertical
  /\ getDistanceAssessment nan vertical
     = "Poor precision — 1m+ accuracy (Below survey standards)".
Proof.
  unfold getDistanceAssessment. repeat split.
  - now rewrite add_comm.
  - now rewrite mul_opp_opp.
  - now rewrite mul_opp_opp.
  - replace (nan * nan + vertical * vertical) with nan; [reflexivity|].
    apply Prim2SF_inj. rewrite add_spec. reflexivity.
Qed.

End AppProperties.

Module UnitProperties.

Import UnitFormatter.
Local Open Scope string_scope.
Local Open Scope float_scope.

(** X21. The unit of the result belongs to the selected system: inches, feet
    or miles for ["feet"] and ["survey-feet"], metric units for every
    other name of a system. *)
Theorem formatted_unit_belongs_to_the_system (kmValue : float) (unitSystem : string) :
  let r := formatDistanceWithDynamicUnits kmValue unitSystem in
  if String.eqb unitSystem "feet" || String.eqb unitSystem "survey-feet"
  then unit r = "in" \/ unit r = "ft" \/ unit r = "mi"
  else unit r = "mm" \/ unit r = "cm" \/ unit r = "m" \/ unit r = "km".
Proof.
  unfold formatDistanceWithDynamicUnits, getDefaultUnit.
  destruct (JS.isNaN kmValue || negb (JS.isFinite kmValue) || (kmValue <? 0)).
  - destruct (String.eqb unitSystem "feet"); simpl; [tauto|].
    destruct (String.eqb unitSystem "survey-feet"); simpl; tauto.
  - destruct (String.eqb unitSystem "feet"); simpl.
    + unfold formatInFeet.
      destruct (_ && _); simpl; [tauto|]. destruct (_ && _); simpl; tauto.
    + destruct (String.eqb unitSystem "survey-feet"); simpl.
      * unfold formatInSurveyFeet.
        destruct (_ && _); simpl; [tauto|]. destruct (_ && _); simpl; tauto.
      * unfold formatInMeters.
        destruct (_ && _); simpl; [tauto|]. destruct (_ && _); simpl; [tauto|].
        destruct (_ && _); simpl; [tauto|]. destruct (_ && _); simpl; [|tauto].
        destruct (_ <? _); simpl; tauto.
Qed.

End UnitProperties.

Module NormalizeProperties.

Import CoordinateConverter.
Local Open Scope string_scope.
Local Open Scope float_scope.

(** X7. Coordinates that pass [validateCoordinates] come back unchanged, with
    the first test of each wrapping loop. *)
Theorem validateAndNormalize_keeps_valid_coordinates (fuel : nat) (lat lon : float) :
  CoordinateParser.validateCoordinates lat lon = true ->
  validateAndNormalize (S fuel) lat lon = Some (Some (mkLatLon lat lon)).
Proof.
  unfold CoordinateParser.validateCoordinates, JS.geb. intros H.
  repeat (apply andb_true_iff in H; destruct H as [H ?]).
  unfold validateAndNormalize.
  destruct (JS.isNaN lat); [discriminate|]. destruct (JS.isNaN lon); [discriminate|].
  destruct (JS.isFinite lat); [|discriminate]. destruct (JS.isFinite lon); [|discriminate].
  simpl. unfold JS.gtb.
  rewrite (leb_ltb_false lon 180) by assumption.
  rewrite (leb_ltb_false (-180) lon) by assumption.
  rewrite (leb_ltb_false lat 90) by assumption.
  rewrite (leb_ltb_false (-90) lat) by assumption.
  reflexivity.
Qed.

Lemma validateAndNormalize_keeps_valid_coordinates_witness :
  validateAndNormalize 1 44.4734245277 (-70.88862750833)
  = Some (Some (mkLatLon 44.4734245277 (-70.88862750833))).
Proof.
  apply (validateAndNormalize_keeps_valid_coordinates 0 44.4734245277 (-70.88862750833)).
  reflexivity.
Defined.

(** X8. The parts of minus [x] are the parts of [x], with the degrees negated
    and the letter S for N. *)
Theorem decimalToDMS_of_opposite (x : float) (includeCardinal : bool) :
  (0 <? x) = true ->
  (forall d, decimalToDMS x includeCardinal = Some d ->
     cardinal d = (if includeCardinal then "N" else "")
     /\ decimalToDMS (- x) includeCardinal
        = Some {| degrees := - degrees d; minutes := minutes d;
                  seconds := seconds d;
                  cardinal := if includeCardinal then "S" else "" |})
  /\ (decimalToDMS x includeCardinal = None ->
      decimalToDMS (- x) includeCardinal = None).
Proof.
  intros Hx. unfold decimalToDMS, JS.isNaN, JS.isFinite, JS.Math_abs.
  rewrite is_nan_opp, is_infinity_opp, abs_opp, ltb_opp_zero, Hx.
  rewrite (ltb_asym 0 x Hx).
  destruct (is_nan x || negb (negb (is_nan x || is_infinity x))).
  - split; [discriminate | reflexivity].
  - split; [|discriminate]. intros d H. injection H as <-. simpl.
    split; reflexivity.
Qed.

Lemma decimalToDMS_of_opposite_witness :
  (forall d, decimalToDMS 70.88862750833 true = Some d ->
     cardinal d = "N"
     /\ decimalToDMS (- 70.88862750833) true
        = Some {| degrees := - degrees d; minutes := minutes d;
                  seconds := seconds d; cardinal := "S" |})
  /\ (decimalToDMS 70.88862750833 true = None ->
      decimalToDMS (- 70.88862750833) true = None).
Proof.
  apply (decimalToDMS_of_opposite 70.88862750833 true). reflexivity.
Defined.

End NormalizeProperties.

Module MoreDistanceFacts.

Import DistanceCalculator MatrixSpec DistanceFacts MatrixFacts LoopFacts PathSpec.
Local Open Scope float_scope.

Section Symmetry3D.

Variable M : MathObject.
Hypothesis sin_odd : forall x, Math_sin M (- x) = - Math_sin M x.

Lemma abs_sub_swap (x y : float) : abs (x - y) = abs (y - x).
Proof.
  destruct (sub_swap x y) as [E|[E1 E2]].
  - now rewrite E, abs_opp.
  - now rewrite E1, E2.
Qed.

Lemma calculate3DDistance_sym (lat1 lon1 elev1 lat2 lon2 elev2 : float) :
  calculate3DDistance M lat1 lon1 elev1 lat2 lon2 elev2
  = calculate3DDistance M lat2 lon2 elev2 lat1 lon1 elev1.
Proof.
  unfold calculate3DDistance.
  rewrite (calculate2DDistance_sym M sin_odd lat1 lon1 lat2 lon2).
  destruct (calculate2DDistance M lat2 lon2 lat1 lon1) as [d|]; [|reflexivity].
  unfold JS.Math_abs. rewrite (abs_sub_swap elev1 elev2).
  destruct (JS.isNaN elev1), (JS.isNaN elev2), (JS.isFinite elev1), (JS.isFinite elev2);
    reflexivity.
Qed.

Lemma entry3D_sym (coordinates : list Coordinate) (i j : nat) :
  entry3D M coordinates i j = entry3D M coordinates j i.
Proof.
  unfold entry3D. rewrite (Nat.eqb_sym j i).
  destruct (i =? j)%nat; [reflexivity|].
  destruct (nth_error coordinates i), (nth_error coordinates j); try reflexivity.
  apply calculate3DDistance_sym.
Qed.

End Symmetry3D.

(** One iteration of the cumulative loop adds the segment of its pair, if
    there is one, and its distance to the totals. *)
Lemma cumulative_step_segment (M : MathObject) (coordinates : list Coordinate)
    (include3D : bool) (st : CumulativeState) (i : nat) :
  let st' := cumulative_step M coordinates include3D st i in
  let new := segment_at M coordinates include3D i in
  segmentDistances st' = segmentDistances st ++ new
  /\ totalDistanceKm st'
     = fold_left (fun acc s => acc + km (distance s)) new (totalDistanceKm st)
  /\ totalDistanceMiles st'
     = fold_left (fun acc s => acc + miles (distance s)) new (totalDistanceMiles st).
Proof.
  unfold cumulative_step, segment_at.
  destruct (nth_error coordinates i) as [c1|];
    [|simpl; rewrite app_nil_r; repeat split].
  destruct (nth_error coordinates (i + 1)) as [c2|];
    [|simpl; rewrite app_nil_r; repeat split].
  destruct include3D.
  - destruct (calculate3DDistance M _ _ _ _ _ _) as [dv|]; simpl;
      [|rewrite app_nil_r]; repeat split.
  - destruct (calculate2DDistance M _ _ _ _) as [dv|]; simpl;
      [|rewrite app_nil_r]; repeat split.
Qed.

(** The cumulative loop, for any coordinates: the segments are those of
    the consecutive pairs with a distance, and the totals are the sums
    over the segments. *)
Lemma cumulative_loop_segments (M : MathObject) (coordinates : list Coordinate)
    (include3D : bool) (k : nat) :
  let st := fold_left (cumulative_step M coordinates include3D) (seq 0 k)
              {| totalDistanceKm := 0; totalDistanceMiles := 0;
                 segmentDistances := [] |} in
  segmentDistances st = flat_map (segment_at M coordinates include3D) (seq 0 k)
  /\ totalDistanceKm st
     = fold_left (fun acc s => acc + km (distance s)) (segmentDistances st) 0
  /\ totalDistanceMiles st
     = fold_left (fun acc s => acc + miles (distance s)) (segmentDistances st) 0.
Proof.
  induction k as [|k IH]; [repeat split|].
  rewrite seq_S, fold_left_app, flat_map_app. simpl.
  destruct IH as [H1 [H2 H3]].
  set (st := fold_left (cumulative_step M coordinates include3D) (seq 0 k) _) in *.
  destruct (cumulative_step_segment M coordinates include3D st k) as [S1 [S2 S3]].
  rewrite S1, S2, S3, !fold_left_app, <- H2, <- H3, H1, app_nil_r.
  repeat split.
Qed.

Lemma matrix_step_keeps_none_2D (M : MathObject) (coordinates : list Coordinate)
    (i j : nat) (st : MatrixState) :
  st_matrix2D st = None /\ distances2D st = [] ->
  st_matrix2D (matrix_step M coordinates i st j) = None
  /\ distances2D (matrix_step M coordinates i st j) = [].
Proof.
  intros [H1 H2]. unfold matrix_step.
  destruct (i =? j)%nat; simpl; [now rewrite H1|].
  destruct (nth_error coordinates i), (nth_error coordinates j); try (now split).
  unfold matrix_step3D, matrix_step2D. rewrite H1.
  destruct (st_matrix3D st); simpl; now split.
Qed.

Lemma matrix_step_keeps_none_3D (M : MathObject) (coordinates : list Coordinate)
    (i j : nat) (st : MatrixState) :
  st_matrix3D st = None /\ distances3D st = [] ->
  st_matrix3D (matrix_step M coordinates i st j) = None
  /\ distances3D (matrix_step M coordinates i st j) = [].
Proof.
  intros [H1 H2]. unfold matrix_step.
  destruct (i =? j)%nat; simpl; [now rewrite H1|].
  destruct (nth_error coordinates i), (nth_error coordinates j); try (now split).
  unfold matrix_step3D, matrix_step2D.
  destruct (st_matrix2D st); simpl; rewrite H1; now split.
Qed.

Lemma nested_fold_inv {S : Type} (P : S -> Prop) (step : nat -> S -> nat -> S)
    (rows cols : list nat) (st : S) :
  (forall i j st, P st -> P (step i st j)) -> P st ->
  P (fold_left (fun st i => fold_left (step i) cols st) rows st).
Proof.
  intros Hstep.
  assert (Hrow : forall i st, P st -> P (fold_left (step i) cols st)).
  { intros i. induction cols as [|j cols IHc]; intros st' H; [assumption|].
    simpl. apply IHc. now apply Hstep. }
  revert st. induction rows as [|i rows IH]; intros st H; [assumption|].
  simpl. apply IH. now apply Hrow.
Qed.

Lemma matrix_loops_keep_none_2D (M : MathObject) (coordinates : list Coordinate)
    (st : MatrixState) :
  st_matrix2D st = None /\ distances2D st = [] ->
  st_matrix2D (matrix_loops M coordinates st) = None
  /\ distances2D (matrix_loops M coordinates st) = [].
Proof.
  unfold matrix_loops.
  apply (nested_fold_inv (fun st => st_matrix2D st = None /\ distances2D st = [])).
  intros i j st'. apply matrix_step_keeps_none_2D.
Qed.

Lemma matrix_loops_keep_none_3D (M : MathObject) (coordinates : list Coordinate)
    (st : MatrixState) :
  st_matrix3D st = None /\ distances3D st = [] ->
  st_matrix3D (matrix_loops M coordinates st) = None
  /\ distances3D (matrix_loops M coordinates st) = [].
Proof.
  unfold matrix_loops.
  apply (nested_fold_inv (fun st => st_matrix3D st = None /\ distances3D st = [])).
  intros i j st'. apply matrix_step_keeps_none_3D.
Qed.

End MoreDistanceFacts.

Module MatrixProperties.

Import DistanceCalculator MatrixSpec DistanceFacts MatrixFacts LoopFacts PathSpec
       MoreDistanceFacts.
Local Open Scope string_scope.
Local Open Scope float_scope.

(** X13. The 3D distance does not depend on the order of the two points, and
    the 3D matrix of valid coordinates is square, with a zero diagonal, and
    symmetric. *)
Theorem distance_matrix_3D_is_symmetric (M : MathObject)
    (coordinates : list Coordinate) (include2D : bool) :
  (forall x, Math_sin M (- x) = - Math_sin M x) ->
  (2 <= length coordinates)%nat ->
  Forall valid coordinates ->
  let n := length coordinates in
  (forall lat1 lon1 elev1 lat2 lon2 elev2,
     calculate3DDistance M lat1 lon1 elev1 lat2 lon2 elev2
     = calculate3DDistance M lat2 lon2 elev2 lat1 lon1 elev1)
  /\ exists r m,
       calculateDistanceMatrix M coordinates include2D true = Some r
       /\ matrix3D r = Some m
       /\ length m = n
       /\ Forall (fun row => length row = n) m
       /\ (forall i, (i < n)%nat -> get_cell m i i = Some (Some zeroDistance))
       /\ (forall i j, (i < n)%nat -> (j < n)%nat ->
             exists a, get_cell m i j = Some (Some a)
                       /\ get_cell m j i = Some (Some a)).
Proof.
  intros Hodd Hn Hv n. split; [apply (calculate3DDistance_sym M Hodd)|].
  destruct (calculateDistanceMatrix_3D M coordinates include2D Hn) as [r [Hr [Hm _]]].
  fold n in Hm. exists r, (table (entry3D M coordinates) n).
  destruct (table_shape (entry3D M coordinates) n) as [Hl Hrows].
  repeat split; try assumption.
  - intros i Hi. rewrite table_cell by assumption.
    unfold entry3D. now rewrite Nat.eqb_refl.
  - intros i j Hi Hj.
    destruct (entry3D_valid M coordinates i j Hv Hi Hj) as [dv Hdv].
    exists dv. rewrite !table_cell by assumption.
    rewrite (entry3D_sym M Hodd coordinates j i), Hdv. now split.
Qed.

Lemma distance_matrix_3D_is_symmetric_witness :
  (forall lat1 lon1 elev1 lat2 lon2 elev2,
     calculate3DDistance ReferenceMath.math lat1 lon1 elev1 lat2 lon2 elev2
     = calculate3DDistance ReferenceMath.math lat2 lon2 elev2 lat1 lon1 elev1)
  /\ exists r m,
       calculateDistanceMatrix ReferenceMath.math
         [mkCoordinate 44.5 (-70.9) (Some 120);
          mkCoordinate 41.8 (-112.8) (Some 1500); mkCoordinate 0.5 0.5 None]
         false true = Some r
       /\ matrix3D r = Some m
       /\ length m = 3%nat
       /\ Forall (fun row => length row = 3%nat) m
       /\ (forall i, (i < 3)%nat -> get_cell m i i = Some (Some zeroDistance))
       /\ (forall i j, (i < 3)%nat -> (j < 3)%nat ->
             exists a, get_cell m i j = Some (Some a)
                       /\ get_cell m j i = Some (Some a)).
Proof.
  apply (distance_matrix_3D_is_symmetric ReferenceMath.math
           [mkCoordinate 44.5 (-70.9) (Some 120);
            mkCoordinate 41.8 (-112.8) (Some 1500); mkCoordinate 0.5 0.5 None] false).
  - exact reference_sin_odd.
  - simpl; lia.
  - repeat constructor.
Defined.

Lemma calculate3DDistance_invalid (M : MathObject)
    (lat1 lon1 e1 lat2 lon2 e2 : float) :
  validateCoordinates lat1 lon1 = false \/ validateCoordinates lat2 lon2 = false ->
  calculate3DDistance M lat1 lon1 e1 lat2 lon2 e2 = None.
Proof.
  intros H. unfold calculate3DDistance.
  now rewrite (calculate2DDistance_invalid M _ _ _ _ H).
Qed.

(** X14. A coordinate out of range leaves [null] in its row and its column of
    both matrices, and the zero distance on the diagonal. *)
Theorem invalid_coordinate_gives_null_cells (M : MathObject)
    (coordinates : list Coordinate) (k : nat) (c : Coordinate) :
  (2 <= length coordinates)%nat ->
  nth_error coordinates k = Some c ->
  validateCoordinates (lat c) (lon c) = false ->
  exists r m2 m3,
    calculateDistanceMatrix M coordinates true true = Some r
    /\ matrix2D r = Some m2 /\ matrix3D r = Some m3
    /\ get_cell m2 k k = Some (Some zeroDistance)
    /\ get_cell m3 k k = Some (Some zeroDistance)
    /\ (forall j, (j < length coordinates)%nat -> j <> k ->
          get_cell m2 k j = Some None /\ get_cell m2 j k = Some None
          /\ get_cell m3 k j = Some None /\ get_cell m3 j k = Some None).
Proof.
  intros Hn Hk Hc.
  assert (Hkn : (k < length coordinates)%nat) by (apply nth_error_Some; congruence).
  destruct (calculateDistanceMatrix_2D M coordinates true Hn) as [r [Hr [Hm2 _]]].
  destruct (calculateDistanceMatrix_3D M coordinates true Hn) as [r' [Hr' [Hm3 _]]].
  assert (r' = r) by congruence. subst r'.
  exists r, (table (entry2D M coordinates) (length coordinates)),
         (table (entry3D M coordinates) (length coordinates)).
  repeat split; try assumption.
  - rewrite table_cell by assumption. unfold entry2D. now rewrite Nat.eqb_refl.
  - rewrite table_cell by assumption. unfold entry3D. now rewrite Nat.eqb_refl.
  - rewrite table_cell by assumption. unfold entry2D.
    destruct (Nat.eqb_spec k j); [congruence|]. rewrite Hk.
    destruct (nth_error coordinates j); [|reflexivity].
    f_equal. apply calculate2DDistance_invalid. now left.
  - rewrite table_cell by assumption. unfold entry2D.
    destruct (Nat.eqb_spec j k); [congruence|]. rewrite Hk.
    destruct (nth_error coordinates j); [|reflexivity].
    f_equal. apply calculate2DDistance_invalid. now right.
  - rewrite table_cell by assumption. unfold entry3D.
    destruct (Nat.eqb_spec k j); [congruence|]. rewrite Hk.
    destruct (nth_error coordinates j); [|reflexivity].
    f_equal. apply calculate3DDistance_invalid. now left.
  - rewrite table_cell by assumption. unfold entry3D.
    destruct (Nat.eqb_spec j k); [congruence|]. rewrite Hk.
    destruct (nth_error coordinates j); [|reflexivity].
    f_equal. apply calculate3DDistance_invalid. now right.
Qed.

Lemma invalid_coordinate_gives_null_cells_witness :
  exists r m2 m3,
    calculateDistanceMatrix ReferenceMath.math
      [mkCoordinate 44.5 (-70.9) None; mkCoordinate 91 0 None;
       mkCoordinate 41.8 (-112.8) None] true true = Some r
    /\ matrix2D r = Some m2 /\ matrix3D r = Some m3
    /\ get_cell m2 1 1 = Some (Some zeroDistance)
    /\ get_cell m3 1 1 = Some (Some zeroDistance)
    /\ (forall j, (j < 3)%nat -> j <> 1%nat ->
          get_cell m2 1 j = Some None /\ get_cell m2 j 1 = Some None
          /\ get_cell m3 1 j = Some None /\ get_cell m3 j 1 = Some None).
Proof.
  apply (invalid_coordinate_gives_null_cells ReferenceMath.math
           [mkCoordinate 44.5 (-70.9) None; mkCoordinate 91 0 None;
            mkCoordinate 41.8 (-112.8) None] 1 (mkCoordinate 91 0 None)).
  - simpl; lia.
  - reflexivity.
  - reflexivity.
Defined.

Lemma segment_at_shape (M : MathObject) (coordinates : list Coordinate)
    (include3D : bool) (i : nat) :
  (length (segment_at M coordinates include3D i) <= 1)%nat
  /\ Forall (fun s => from s = (i + 1)%nat /\ to s = (i + 2)%nat)
            (segment_at M coordinates include3D i).
Proof.
  unfold segment_at.
  destruct (nth_error coordinates i); [|split; [simpl; lia | constructor]].
  destruct (nth_error coordinates (i + 1)); [|split; [simpl; lia | constructor]].
  destruct (if include3D then _ else _); simpl; split; try lia; repeat constructor.
Qed.

Lemma flat_map_segments (M : MathObject) (coordinates : list Coordinate)
    (include3D : bool) (k : nat) :
  (length (flat_map (segment_at M coordinates include3D) (seq 0 k)) <= k)%nat
  /\ Forall (fun s => to s = (from s + 1)%nat /\ (1 <= from s <= k)%nat)
            (flat_map (segment_at M coordinates include3D) (seq 0 k)).
Proof.
  induction k as [|k [IH1 IH2]]; [split; [simpl; lia | constructor]|].
  rewrite seq_S, flat_map_app. simpl. rewrite app_nil_r, length_app.
  destruct (segment_at_shape M coordinates include3D k) as [H1 H2].
  split; [lia|]. apply Forall_app. split.
  - eapply Forall_impl; [|exact IH2]. simpl. intros s [Hs1 Hs2]. lia.
  - eapply Forall_impl; [|exact H2]. simpl. intros s [Hs1 Hs2]. lia.
Qed.

(** X16. The cumulative distance of any list of coordinates, in two or three
    dimensions: a pair of consecutive points with a [null] distance is
    skipped, the segments kept are numbered from 1 by their position in the
    input, and the totals are the rounded sums over the segments kept. *)
Theorem cumulative_distance_skips_null_segments (M : MathObject)
    (coordinates : list Coordinate) (include3D : bool) :
  (2 <= length coordinates)%nat ->
  exists r,
    calculateCumulativeDistance M coordinates include3D = Some r
    /\ segments r
       = flat_map (segment_at M coordinates include3D)
                  (seq 0 (length coordinates - 1))
    /\ totalKm r
       = JS.toFixed_parse 6
           (fold_left (fun acc s => acc + km (distance s)) (segments r) 0)
    /\ totalMiles r
       = JS.toFixed_parse 6
           (fold_left (fun acc s => acc + miles (distance s)) (segments r) 0)
    /\ (length (segments r) <= length coordinates - 1)%nat
    /\ Forall (fun s => to s = (from s + 1)%nat
                        /\ (1 <= from s <= length coordinates - 1)%nat)
              (segments r).
Proof.
  intros Hn. unfold calculateCumulativeDistance.
  destruct (Nat.ltb_spec (length coordinates) 2); [lia|].
  eexists. split; [reflexivity|]. cbn [segments totalKm totalMiles].
  destruct (cumulative_loop_segments M coordinates include3D (length coordinates - 1))
    as [H1 [H2 H3]].
  destruct (flat_map_segments M coordinates include3D (length coordinates - 1))
    as [F1 F2].
  rewrite H2, H3, H1. repeat split; assumption.
Qed.

Lemma cumulative_distance_skips_null_segments_witness :
  exists r,
    calculateCumulativeDistance ReferenceMath.math
      [mkCoordinate 0 0 None; mkCoordinate 0 1 None; mkCoordinate 91 1 None;
       mkCoordinate 1 1 None] true = Some r
    /\ segments r
       = flat_map (segment_at ReferenceMath.math
                     [mkCoordinate 0 0 None; mkCoordinate 0 1 None;
                      mkCoordinate 91 1 None; mkCoordinate 1 1 None] true)
                  (seq 0 3)
    /\ totalKm r
       = JS.toFixed_parse 6
           (fold_left (fun acc s => acc + km (distance s)) (segments r) 0)
    /\ totalMiles r
       = JS.toFixed_parse 6
           (fold_left (fun acc s => acc + miles (distance s)) (segments r) 0)
    /\ (length (segments r) <= 3)%nat
    /\ Forall (fun s => to s = (from s + 1)%nat /\ (1 <= from s <= 3)%nat)
              (segments r).
Proof.
  apply (cumulative_distance_skips_null_segments ReferenceMath.math
           [mkCoordinate 0 0 None; mkCoordinate 0 1 None; mkCoordinate 91 1 None;
            mkCoordinate 1 1 None] true).
  simpl; lia.
Defined.

Lemma nth_error_combine_seq {A : Type} (l : list A) (a i : nat) (c : A) :
  nth_error l i = Some c ->
  nth_error (combine (seq a (length l)) l) i = Some ((a + i)%nat, c).
Proof.
  revert a i. induction l as [|x l IH]; intros a i H; [destruct i; discriminate|].
  destruct i as [|i]; simpl in *.
  - injection H as ->. now rewrite Nat.add_0_r.
  - rewrite (IH (S a) i H). f_equal. f_equal. lia.
Qed.

Lemma map_snd_combine_seq {A : Type} (l : list A) (a : nat) :
  map snd (combine (seq a (length l)) l) = l.
Proof.
  revert a. induction l as [|x l IH]; intros a; [reflexivity|].
  simpl. now rewrite IH.
Qed.

(** X15. The shape of the result of [calculateDistanceMatrix]: [null] for fewer
    than two coordinates; otherwise the input coordinates in order, each
    with the label "Point i" counted from 1, and [null] for the matrix, the
    statistics and the cumulative distance of a dimension switched off. *)
Theorem distance_matrix_result_shape (M : MathObject)
    (coordinates : list Coordinate) (include2D include3D : bool) :
  ((length coordinates < 2)%nat ->
   calculateDistanceMatrix M coordinates include2D include3D = None)
  /\ ((2 <= length coordinates)%nat ->
      exists r,
        calculateDistanceMatrix M coordinates include2D include3D = Some r
        /\ map fst (DistanceCalculator.coordinates r) = coordinates
        /\ (forall i c, nth_error coordinates i = Some c ->
              nth_error (DistanceCalculator.coordinates r) i = Some (c, label i))
        /\ (include2D = false ->
            matrix2D r = None /\ statistics2D r = None /\ cumulative2D r = None)
        /\ (include3D = false ->
            matrix3D r = None /\ statistics3D r = None /\ cumulative3D r = None)).
Proof.
  unfold calculateDistanceMatrix. split; intros Hn.
  - destruct (Nat.ltb_spec (length coordinates) 2); [reflexivity | lia].
  - destruct (Nat.ltb_spec (length coordinates) 2); [lia|].
    eexists. split; [reflexivity|].
    cbn [DistanceCalculator.coordinates matrix2D matrix3D statistics2D statistics3D
         cumulative2D cumulative3D].
    split; [|split; [|split]].
    + rewrite map_map. simpl. apply map_snd_combine_seq.
    + intros i c Hc. rewrite nth_error_map.
      now rewrite (nth_error_combine_seq coordinates 0 i c Hc).
    + intros ->. repeat split.
      apply matrix_loops_keep_none_2D. now split.
    + intros ->. repeat split.
      apply matrix_loops_keep_none_3D. now split.
Qed.

End MatrixProperties.

Module SortFacts.

Import DistanceCalculator FloatValue FloatOrderFacts FloatSubtraction.
Local Open Scope float_scope.

Lemma not_nan_of_isNaN (x : float) : JS.isNaN x = false -> not_nan (Prim2SF x).
Proof.
  unfold JS.isNaN, not_nan. intros H E. apply is_nan_spec in E. congruence.
Qed.

Lemma ltb_key (x y : float) :
  JS.isNaN x = false -> JS.isNaN y = false -> (x <? y) = (key x <? key y)%Z.
Proof.
  intros Hx Hy. rewrite ltb_spec.
  apply SFltb_scaled; auto using Prim2SF_valid, not_nan_of_isNaN.
Qed.

Lemma leb_key (x y : float) :
  JS.isNaN x = false -> JS.isNaN y = false -> (x <=? y) = (key x <=? key y)%Z.
Proof.
  intros Hx Hy. rewrite leb_spec.
  apply SFleb_scaled; auto using Prim2SF_valid, not_nan_of_isNaN.
Qed.

Lemma insert_sorted_In (x z : float) (l : list float) :
  In z (insert_sorted x l) <-> z = x \/ In z l.
Proof.
  induction l as [|y l IH]; simpl; [intuition|].
  destruct (0 <? y - x); simpl; [intuition|]. rewrite IH. intuition.
Qed.

Lemma insert_sorted_length (x : float) (l : list float) :
  length (insert_sorted x l) = S (length l).
Proof.
  induction l as [|y l IH]; simpl; [reflexivity|].
  destruct (0 <? y - x); simpl; congruence.
Qed.

Lemma insert_sorted_sorted (x : float) (l : list float) :
  JS.isNaN x = false -> Forall (fun y => JS.isNaN y = false) l ->
  StronglySorted key_le l -> StronglySorted key_le (insert_sorted x l).
Proof.
  intros Hx Hl Hs. induction l as [|y l IH]; simpl.
  - repeat constructor.
  - inversion Hl as [|? ? Hy Hl']; subst. inversion Hs as [|? ? Hs' Hall]; subst.
    rewrite sub_pos_iff_ltb, (ltb_key x y Hx Hy).
    destruct (Z.ltb_spec (key x) (key y)) as [Hlt|Hge].
    + constructor; [assumption|]. constructor; [unfold key_le; lia|].
      eapply Forall_impl; [|exact Hall]. unfold key_le. simpl. intros a Ha. lia.
    + constructor; [now apply IH|].
      apply Forall_forall. intros a Ha. apply insert_sorted_In in Ha.
      destruct Ha as [->|Ha]; [unfold key_le; lia|].
      rewrite Forall_forall in Hall. now apply Hall.
Qed.

Lemma sort_spec_acc (l acc : list float) :
  Forall (fun y => JS.isNaN y = false) l ->
  Forall (fun y => JS.isNaN y = false) acc ->
  StronglySorted key_le acc ->
  let r := fold_left (fun acc x => insert_sorted x acc) l acc in
  StronglySorted key_le r
  /\ (forall z, In z r <-> In z l \/ In z acc)
  /\ length r = (length l + length acc)%nat.
Proof.
  revert acc. induction l as [|x l IH]; intros acc Hl Ha Hs; simpl.
  - repeat split; auto; intuition.
  - inversion Hl as [|? ? Hx Hl']; subst.
    destruct (IH (insert_sorted x acc) Hl') as [H1 [H2 H3]].
    + apply Forall_forall. intros z Hz. apply insert_sorted_In in Hz.
      destruct Hz as [->|Hz]; [assumption|].
      rewrite Forall_forall in Ha. now apply Ha.
    + now apply insert_sorted_sorted.
    + split; [exact H1|]. split.
      * intros z. rewrite H2, insert_sorted_In. intuition.
      * rewrite H3, insert_sorted_length. lia.
Qed.

Lemma sort_spec (l : list float) :
  Forall (fun y => JS.isNaN y = false) l ->
  StronglySorted key_le (sort l)
  /\ (forall z, In z (sort l) <-> In z l)
  /\ length (sort l) = length l.
Proof.
  intros Hl. unfold sort.
  destruct (sort_spec_acc l [] Hl (Forall_nil _) (SSorted_nil _)) as [H1 [H2 H3]].
  split; [exact H1|]. split.
  - intros z. rewrite H2. simpl. intuition.
  - rewrite H3. simpl. lia.
Qed.

Lemma sorted_last (l : list float) (d x : float) :
  StronglySorted key_le l -> In x l -> key_le x (last l d).
Proof.
  intros Hs. revert x. induction Hs as [|a l Hs IH Hall]; intros x Hx; [destruct Hx|].
  destruct l as [|b l].
  - destruct Hx as [<-|[]]. unfold key_le. simpl. lia.
  - change (last (a :: b :: l) d) with (last (b :: l) d).
    destruct Hx as [<-|Hx]; [|now apply IH].
    rewrite Forall_forall in Hall.
    assert (Hb : key_le a b) by (apply Hall; now left).
    assert (Hl : key_le b (last (b :: l) d)) by (apply IH; now left).
    unfold key_le in *. lia.
Qed.

Lemma last_In (l : list float) (d : float) : l <> [] -> In (last l d) l.
Proof.
  induction l as [|a l IH]; [congruence|]. intros _.
  destruct l as [|b l]; [now left|]. right. apply IH. discriminate.
Qed.

End SortFacts.

Module StatisticsProperties.

Import DistanceCalculator FloatValue SortFacts.
Local Open Scope float_scope.

(** X17. The minimum and the maximum of the statistics of a list of numbers
    (none of them NaN) are the rounded least and greatest elements of the
    list. *)
Theorem statistics_min_max_are_extremes (distances : list float) :
  distances <> [] ->
  Forall (fun x => JS.isNaN x = false) distances ->
  exists s lo hi,
    calculateStatistics distances = Some s
    /\ In lo distances /\ In hi distances
    /\ (forall x, In x distances -> (lo <=? x) = true /\ (x <=? hi) = true)
    /\ min s = JS.toFixed_parse 6 lo
    /\ max s = JS.toFixed_parse 6 hi
    /\ count s = length distances.
Proof.
  intros Hne Hnan.
  destruct (sort_spec distances Hnan) as [Hs [Hin Hlen]].
  unfold calculateStatistics. destruct distances as [|d0 ds] eqn:Ed; [congruence|].
  rewrite <- Ed in *. clear Hne.
  assert (Hne' : sort distances <> []).
  { intros E. rewrite E in Hlen. rewrite Ed in Hlen. discriminate. }
  destruct (sort distances) as [|a rest] eqn:Es; [congruence|].
  eexists. exists a, (last (a :: rest) nan).
  split; [reflexivity|]. cbn [min max count hd].
  assert (Ha : In a distances) by (apply Hin; now left).
  assert (Hl : In (last (a :: rest) nan) distances).
  { apply Hin. apply last_In. discriminate. }
  rewrite Forall_forall in Hnan.
  repeat split; try assumption; try reflexivity.
  - rewrite leb_key by auto. apply Z.leb_le.
    apply Hin in H. destruct H as [->|H]; [lia|].
    inversion Hs as [|? ? _ Hall]; subst. rewrite Forall_forall in Hall.
    now apply Hall.
  - rewrite leb_key by auto. apply Z.leb_le.
    apply (sorted_last (a :: rest) nan x Hs). now apply Hin.
Qed.

Lemma statistics_min_max_are_extremes_witness :
  exists s lo hi,
    calculateStatistics [3.5; 1.25; infinity; 2; 1.25] = Some s
    /\ In lo [3.5; 1.25; infinity; 2; 1.25] /\ In hi [3.5; 1.25; infinity; 2; 1.25]
    /\ (forall x, In x [3.5; 1.25; infinity; 2; 1.25] ->
          (lo <=? x) = true /\ (x <=? hi) = true)
    /\ min s = JS.toFixed_parse 6 lo
    /\ max s = JS.toFixed_parse 6 hi
    /\ count s = 5%nat.
Proof.
  apply (statistics_min_max_are_extremes [3.5; 1.25; infinity; 2; 1.25]).
  - discriminate.
  - repeat constructor.
Defined.

End StatisticsProperties.

Module ConverterTextProperties.

Import CoordinateConverter ConverterText.
Local Open Scope string_scope.
Local Open Scope float_scope.

Lemma append_assoc (a b c : string) : (a ++ b) ++ c = a ++ (b ++ c).
Proof. induction a as [|x a IH]; simpl; congruence. Qed.

(** X9. [convertToDMS] marks the longitude with N or S, like the latitude,
    never with E or W: its text ends with " S" for a negative longitude and
    with " N" otherwise, and is empty for a longitude that is not finite. *)
Theorem convertToDMS_marks_longitude_with_N_or_S (lat lon : float) :
  if JS.isNaN lon || negb (JS.isFinite lon)
  then lon_text (convertToDMS lat lon) = ""
  else exists body,
         lon_text (convertToDMS lat lon)
         = body ++ (if lon <? 0 then " S" else " N").
Proof.
  unfold convertToDMS, decimalToDMS. cbn [lon_text].
  destruct (JS.isNaN lon || negb (JS.isFinite lon)); [reflexivity|].
  unfold formatDMS. cbn [cardinal degrees minutes seconds].
  destruct (lon <? 0); cbn [Text.truthy];
    eexists; rewrite <- !append_assoc; rewrite append_assoc; reflexivity.
Qed.

(** X10. Without the cardinal letter the formatted text does not show the sign:
    a value and its opposite give the same text. *)
Theorem formatDMS_without_cardinal_loses_the_sign (x : float) (includeSymbols : bool) :
  formatDMS (decimalToDMS (- x) false) includeSymbols
  = formatDMS (decimalToDMS x false) includeSymbols.
Proof.
  unfold decimalToDMS, JS.isNaN, JS.isFinite, JS.Math_abs.
  rewrite is_nan_opp, is_infinity_opp, abs_opp, ltb_opp_zero.
  destruct (is_nan x || negb (negb (is_nan x || is_infinity x))); [reflexivity|].
  unfold formatDMS, JS.Math_abs. cbn [cardinal degrees minutes seconds Text.truthy].
  destruct (0 <? x), (x <? 0); rewrite ?abs_opp; reflexivity.
Qed.

End ConverterTextProperties.

Module DisplayProperties.

Import CalculatorUnits.
Local Open Scope string_scope.

Lemma text_with_space_is_not_NA (a u : string) : a ++ " " ++ u <> "N/A".
Proof.
  destruct a as [|c1 [|c2 [|c3 [|c4 a]]]]; simpl; intros H;
    try discriminate H; injection H; intros; discriminate.
Qed.

(** X18. [formatDistance] answers "N/A" for NaN and the infinities, and for no
    other distance, whatever the unit and the precision. *)
Theorem formatDistance_is_NA_only_when_not_finite (distance : float) (unit : string)
    (precision : nat) :
  formatDistance distance unit precision = "N/A"
  <-> JS.isNaN distance || negb (JS.isFinite distance) = true.
Proof.
  unfold formatDistance.
  destruct (JS.isNaN distance || negb (JS.isFinite distance)).
  - split; reflexivity.
  - split; [|discriminate]. intros H. now apply text_with_space_is_not_NA in H.
Qed.

End DisplayProperties.

Module LinesProperties.

Import Str Text CoordinateParser CoordinateLines.
Local Open Scope string_scope.

Lemma find_window_spec (fuel : nat) (parts : list string) (count i : nat)
    (testStr : string) (elevation : option float) :
  find_window fuel parts count i = Some (testStr, elevation) ->
  exists j, testStr = join (slice j (j + count) parts)
    /\ parseCoordinate testStr <> None
    /\ (elevation = None
        \/ elevation = Some (parseFloat (nth (j + count) parts ""))).
Proof.
  revert i. induction fuel as [|fuel IH]; intros i; simpl; [discriminate|].
  destruct (parseCoordinate (join (slice i (i + count) parts))) eqn:E.
  - intros H. injection H as <- <-. exists i. split; [reflexivity|].
    split; [congruence|]. destruct (_ <? _)%nat; auto.
  - apply IH.
Qed.

(** X2. What [parseCoordinateWithElevation] reads: nothing from fewer than two
    parts; otherwise the coordinate that [parseCoordinate] finds in two or
    six consecutive parts joined by single spaces, and an elevation that is
    absent or read from the part that follows them. *)
Theorem parseCoordinateWithElevation_reads_a_window (input : string) :
  ((length (parts_of input) < 2)%nat -> parseCoordinateWithElevation input = None)
  /\ (forall r, parseCoordinateWithElevation input = Some r ->
        exists j count,
          (count = 2%nat \/ count = 6%nat)
          /\ parseCoordinate (join (slice j (j + count) (parts_of input)))
             = Some (mkLatLon (lat r) (lon r))
          /\ (elevation r = None
              \/ elevation r
                 = Some (parseFloat (nth (j + count) (parts_of input) "")))
          /\ ((length (parts_of input) = 2)%nat -> elevation r = None)).
Proof.
  unfold parseCoordinateWithElevation. set (parts := parts_of input).
  split.
  - intros H. destruct (Nat.ltb_spec (length parts) 2); [reflexivity | lia].
  - intros r. destruct (Nat.ltb_spec (length parts) 2); [discriminate|].
    assert (Hfinal : forall coordinateStr elevation j count,
              (count = 2%nat \/ count = 6%nat) ->
              coordinateStr = join (slice j (j + count) parts) ->
              (elevation = None
               \/ elevation = Some (parseFloat (nth (j + count) parts ""))) ->
              ((length parts = 2)%nat -> elevation = None) ->
              match parseCoordinate coordinateStr with
              | Some coordinate =>
                  let (latitude, longitude) := coordinate in
                  Some {| lat := latitude; lon := longitude; elevation := elevation |}
              | None => None
              end = Some r ->
              exists j count,
                (count = 2%nat \/ count = 6%nat)
                /\ parseCoordinate (join (slice j (j + count) parts))
                   = Some (mkLatLon (lat r) (lon r))
                /\ (CoordinateLines.elevation r = None
                    \/ CoordinateLines.elevation r
                       = Some (parseFloat (nth (j + count) parts "")))
                /\ ((length parts = 2)%nat -> CoordinateLines.elevation r = None)).
    { intros cs el j count Hc -> Hel H2 Hr.
      destruct (parseCoordinate (join (slice j (j + count) parts))) as [[la lo]|] eqn:E;
        [|discriminate].
      injection Hr as <-. exists j, count. cbn [lat lon CoordinateLines.elevation].
      repeat split; assumption. }
    destruct (Nat.eqb_spec (length parts) 2) as [E2|N2].
    + assert (Hs : slice 0 (0 + 2) parts = parts).
      { unfold slice. change (0 + 2 - 0)%nat with 2%nat. cbn [skipn].
        apply firstn_all2. rewrite E2. lia. }
      apply (Hfinal _ _ 0%nat 2%nat); auto. now rewrite Hs.
    + destruct (Nat.eqb_spec (length parts) 3) as [E3|N3].
      * apply (Hfinal _ _ 0%nat 2%nat); auto. intros; lia.
      * unfold search_windows.
        destruct (6 <=? length parts)%nat.
        -- destruct (find_window _ parts 6 0) as [[cs el]|] eqn:F6.
           ++ destruct (find_window_spec _ _ _ _ _ _ F6) as [j [-> [_ Hel]]].
              apply (Hfinal _ _ j 6%nat); auto. intros; lia.
           ++ destruct (2 <=? length parts)%nat.
              ** destruct (find_window _ parts 2 0) as [[cs el]|] eqn:F2.
                 --- destruct (find_window_spec _ _ _ _ _ _ F2) as [j [-> [_ Hel]]].
                     apply (Hfinal _ _ j 2%nat); auto. intros; lia.
                 --- apply (Hfinal _ _ 0%nat 2%nat); auto. intros; lia.
              ** apply (Hfinal _ _ 0%nat 2%nat); auto. intros; lia.
        -- destruct (2 <=? length parts)%nat.
           ++ destruct (find_window _ parts 2 0) as [[cs el]|] eqn:F2.
              ** destruct (find_window_spec _ _ _ _ _ _ F2) as [j [-> [_ Hel]]].
                 apply (Hfinal _ _ j 2%nat); auto. intros; lia.
              ** apply (Hfinal _ _ 0%nat 2%nat); auto. intros; lia.
           ++ apply (Hfinal _ _ 0%nat 2%nat); auto. intros; lia.
Qed.

End LinesProperties.

(** ** Products that do not overflow *)

Module ProductFacts.

Import FloatValue Rounding FloatOrderFacts.
Local Open Scope Z_scope.

Lemma log2_le_pow2 (m t : Z) : 0 <= t -> m <= 2 ^ t -> Z.log2 m <= t.
Proof.
  intros Ht H. destruct (Z.le_gt_cases m 0) as [Hm|Hm].
  - rewrite Z.log2_nonpos by lia. lia.
  - transitivity (Z.log2 (2 ^ t)); [apply Z.log2_le_mono; lia|].
    rewrite Z.log2_pow2; lia.
Qed.

(** Rounding a mantissa of moderate magnitude gives zero or a finite
    number. *)
Lemma binary_round_aux_no_overflow (s : bool) (q : positive) (e : Z) (l : location) :
  let D := Zpos (digits2_pos q) + e in
  e <= fexp prec emax D -> D <= 1023 ->
  binary_round_aux prec emax s (Zpos q) e l = S754_zero s
  \/ exists m e', binary_round_aux prec emax s (Zpos q) e l = S754_finite s m e'.
Proof.
  intros D Hprec Hmag. unfold binary_round_aux.
  pose proof (shr_fexp_spec (Zpos q) e l ltac:(lia)) as [Hm1 He1].
  destruct (shr_fexp prec emax (Zpos q) e l) as [mrs1 e1]. cbn [fst snd] in Hm1, He1.
  change (Zdigits2 (Zpos q)) with (Zpos (digits2_pos q)) in Hm1, He1.
  fold D in Hm1, He1. rewrite fexp_eq in *.
  pose proof (digits_bounds q) as [_ Hq].
  set (dq := Zpos (digits2_pos q)) in *.
  assert (Hdq : 0 < dq) by (subst dq; lia).
  set (k := Z.max 0 (Z.max (D - 53) (-1074) - e)) in *.
  assert (Hk : 0 <= k) by lia.
  assert (Hm1nn : 0 <= shr_m mrs1).
  { rewrite Hm1. apply Z.div_pos; [lia | apply Z.pow_pos_nonneg; lia]. }
  assert (Hm1up : shr_m mrs1 < 2 ^ Z.max (dq - k) 0).
  { rewrite Hm1. apply Z.div_lt_upper_bound; [apply Z.pow_pos_nonneg; lia|].
    rewrite <- Z.pow_add_r by lia.
    eapply Z.lt_le_trans; [exact Hq|]. apply Z.pow_le_mono_r; lia. }
  pose proof (round_nearest_even_range (shr_m mrs1) (loc_of_shr_record mrs1)) as Hr.
  set (m2 := round_nearest_even (shr_m mrs1) (loc_of_shr_record mrs1)) in *.
  assert (Hl2 : Z.log2 m2 <= Z.max (dq - k) 0) by (apply log2_le_pow2; lia).
  pose proof (shr_fexp_spec m2 e1 loc_Exact ltac:(lia)) as [Hm3 He3].
  destruct (shr_fexp prec emax m2 e1 loc_Exact) as [mrs2 e2]. cbn [fst snd] in Hm3, He3.
  rewrite Zdigits2_nonneg in Hm3, He3 by lia.
  assert (Hm3nn : 0 <= shr_m mrs2).
  { rewrite Hm3. apply Z.div_pos; [lia | apply Z.pow_pos_nonneg; lia]. }
  destruct (shr_m mrs2) as [|m|m] eqn:E3; [now left | right | lia].
  assert (He2 : e2 <= 971).
  { rewrite He3, He1. rewrite fexp_eq.
    destruct (Z.eqb_spec m2 0); [lia|].
    pose proof (Z.log2_nonneg m2). lia. }
  change (emax - prec) with 971.
  destruct (Z.leb_spec e2 971); [|lia]. eauto.
Qed.

(** The exponent of a product of valid numbers is small enough for its
    mantissa. *)
Lemma product_exponent (mx my : positive) (ex ey : Z) :
  valid_binary (S754_finite false mx ex) = true ->
  valid_binary (S754_finite false my ey) = true ->
  ex + ey <= fexp prec emax (Zpos (digits2_pos (mx * my)) + (ex + ey)).
Proof.
  intros Vx Vy.
  pose proof (valid_finite_bounds _ _ _ Vx) as [Bx [Mx Nx]].
  pose proof (valid_finite_bounds _ _ _ Vy) as [By [My Ny]].
  rewrite fexp_eq, Zdigits2_log2, Pos2Z.inj_mul.
  assert (Hlog : forall a b t u, 0 <= t -> 0 <= u -> 2 ^ t <= a -> 2 ^ u <= b ->
                   t + u <= Z.log2 (a * b)).
  { intros a b t u Ht Hu Ha Hb.
    assert (0 < 2 ^ t) by (apply Z.pow_pos_nonneg; lia).
    assert (0 < 2 ^ u) by (apply Z.pow_pos_nonneg; lia).
    rewrite <- (Z.log2_pow2 (t + u)) by lia. apply Z.log2_le_mono.
    rewrite Z.pow_add_r by lia. nia. }
  destruct (Z.eq_dec ex (-1074)) as [Ex|Ex]; destruct (Z.eq_dec ey (-1074)) as [Ey|Ey].
  - lia.
  - pose proof (Hlog (Zpos mx) (Zpos my) 0 52 ltac:(lia) ltac:(lia) ltac:(simpl; lia)
                  (Ny ltac:(lia))). lia.
  - pose proof (Hlog (Zpos mx) (Zpos my) 52 0 ltac:(lia) ltac:(lia) (Nx ltac:(lia))
                  ltac:(simpl; lia)). lia.
  - pose proof (Hlog (Zpos mx) (Zpos my) 52 52 ltac:(lia) ltac:(lia) (Nx ltac:(lia))
                  (Ny ltac:(lia))). lia.
Qed.

Lemma within_digits (t : Z) (s : bool) (m : positive) (e : Z) :
  -1074 <= t ->
  within t (S754_finite s m e) -> -1074 <= e -> Zpos (digits2_pos m) + e <= t + 1.
Proof.
  intros Ht [_ H] He. unfold scaled in H.
  assert (Hs : Z.abs (cond_Zopp s (Zpos m * 2 ^ (e + 1074))) = Zpos m * 2 ^ (e + 1074)).
  { assert (0 < 2 ^ (e + 1074)) by (apply Z.pow_pos_nonneg; lia).
    destruct s; unfold cond_Zopp; nia. }
  rewrite Hs in H. pose proof (digits_bounds m) as [Hlo _].
  set (d := Zpos (digits2_pos m)) in *.
  assert (Hd : 0 < d) by (subst d; lia).
  destruct (Z.le_gt_cases (d + e) (t + 1)) as [|Hgt]; [assumption|exfalso].
  assert (H1 : 2 ^ (d - 1) * 2 ^ (e + 1074) <= 2 ^ (t + 1074)).
  { eapply Z.le_trans; [|exact H].
    apply Z.mul_le_mono_nonneg_r; [apply Z.pow_nonneg; lia | exact Hlo]. }
  rewrite <- Z.pow_add_r in H1 by lia.
  apply Z.pow_le_mono_r_iff in H1; lia.
Qed.

(** The product of two numbers of moderate magnitude is finite. *)
Lemma SFmul_within (t u : Z) (x y : spec_float) :
  valid_binary x = true -> valid_binary y = true ->
  -1074 <= t -> -1074 <= u -> t + u <= 1020 ->
  within t x -> within u y -> finite (SFmul prec emax x y).
Proof.
  intros Vx Vy Ht Hu Htu Wx Wy.
  destruct x as [sx|sx| |sx mx ex]; try (now destruct Wx);
    destruct y as [sy|sy| |sy my ey]; try (now destruct Wy); try exact I.
  pose proof (valid_finite_bounds _ _ _ Vx) as [Bx _].
  pose proof (valid_finite_bounds _ _ _ Vy) as [By _].
  pose proof (within_digits t sx mx ex Ht Wx ltac:(lia)) as Dx.
  pose proof (within_digits u sy my ey Hu Wy ltac:(lia)) as Dy.
  unfold SFmul.
  destruct (binary_round_aux_no_overflow (xorb sx sy) (mx * my) (ex + ey) loc_Exact)
    as [H|[m [e H]]].
  - apply product_exponent; assumption.
  - rewrite !Zdigits2_log2 in *. rewrite Pos2Z.inj_mul.
    assert (Z.log2 (Zpos mx * Zpos my) <= Z.log2 (Zpos mx) + Z.log2 (Zpos my) + 1)
      by (apply Z.log2_mul_above; lia).
    lia.
  - now rewrite H.
  - now rewrite H.
Qed.

End ProductFacts.

(** ** The distance from a point to itself *)

Module SelfDistanceFacts.

Import FloatValue Rounding FloatOrderFacts FloatSubtraction ProductFacts.
Import DistanceCalculator.
Local Open Scope float_scope.

Lemma finite_of_isFinite (x : float) : JS.isFinite x = true -> finite (Prim2SF x).
Proof.
  unfold JS.isFinite, is_nan, is_infinity. rewrite !eqb_spec, abs_spec.
  destruct (Prim2SF x) as [s|s| |s m e]; try exact (fun _ => I); try discriminate.
  now destruct s.
Qed.

(** A number between [-b] and [b] has the magnitude of [b]. *)
Lemma within_of_bounds (t : Z) (x b : float) :
  finite (Prim2SF x) -> (- b <=? x) = true -> (x <=? b) = true ->
  within t (Prim2SF b) -> within t (Prim2SF x).
Proof.
  intros Fx Hlo Hhi [Fb Hb].
  split; [assumption|].
  rewrite leb_spec in Hlo, Hhi. rewrite opp_spec in Hlo.
  pose proof (Prim2SF_valid x) as Vx. pose proof (Prim2SF_valid b) as Vb.
  assert (Vo : valid_binary (SFopp (Prim2SF b)) = true).
  { destruct (Prim2SF b) as [s|s| |s m e]; try reflexivity.
    now apply (valid_any_sign s). }
  assert (Nx : not_nan (Prim2SF x)) by (intros E; now rewrite E in Fx).
  assert (Nb : not_nan (Prim2SF b)) by (intros E; now rewrite E in Fb).
  assert (No : not_nan (SFopp (Prim2SF b))).
  { intros E. destruct (Prim2SF b); try discriminate; contradiction. }
  rewrite SFleb_scaled in Hlo, Hhi by assumption.
  apply Z.leb_le in Hlo, Hhi.
  assert (Eo : scaled (SFopp (Prim2SF b)) = (- scaled (Prim2SF b))%Z).
  { destruct (Prim2SF b) as [s|s| |s m e]; try reflexivity;
      destruct s; unfold SFopp, scaled, cond_Zopp, negb; lia. }
  rewrite Eo in Hlo. lia.
Qed.

(** The difference of a finite number and itself is zero. *)
Lemma sub_diag (x : float) : finite (Prim2SF x) -> x - x = 0.
Proof.
  intros F. apply Prim2SF_inj. rewrite sub_spec.
  change (Prim2SF 0) with (S754_zero false).
  pose proof (Prim2SF_valid x) as V.
  destruct (Prim2SF x) as [s|s| |s m e]; try contradiction.
  - now destruct s.
  - unfold SF64sub, SFsub. cbv zeta.
    match goal with
    | |- binary_normalize _ _ ?d _ _ = _ =>
        assert (Hd : d = 0%Z) by apply Z.sub_diag; rewrite Hd
    end.
    reflexivity.
Qed.

(** A finite number times zero is a zero of its sign. *)
Lemma mul_zero_r (x : float) :
  finite (Prim2SF x) ->
  Prim2SF (x * 0) = S754_zero (match Prim2SF x with
                               | S754_zero s | S754_finite s _ _ => s
                               | _ => false
                               end).
Proof.
  intros F. rewrite mul_spec. change (Prim2SF 0) with (S754_zero false).
  destruct (Prim2SF x) as [s|s| |s m e]; try contradiction;
    unfold SFmul; now destruct s.
Qed.

(** The square of a number between -1 and 1 is finite and not negative. *)
Lemma square_sign (c : float) :
  within 0 (Prim2SF c) ->
  finite (Prim2SF (c * c))
  /\ match Prim2SF (c * c) with
     | S754_zero s | S754_finite s _ _ => s = false
     | _ => True
     end.
Proof.
  intros W. pose proof (Prim2SF_valid c) as V. rewrite mul_spec. split.
  - apply (SFmul_within 0 0); try assumption; lia.
  - destruct (Prim2SF c) as [s|s| |s m e]; try (now destruct W).
    + now destruct s.
    + pose proof (valid_finite_bounds _ _ _ V) as [B _].
      pose proof (within_digits 0 s m e ltac:(lia) W ltac:(lia)) as D.
      unfold SF64mul, SFmul. rewrite xorb_nilpotent.
      destruct (binary_round_aux_no_overflow false (m * m) (e + e) loc_Exact)
        as [H|[m' [e' H]]].
      * now apply product_exponent.
      * rewrite !Zdigits2_log2 in *. rewrite Pos2Z.inj_mul.
        assert (Z.log2 (Zpos m * Zpos m) <= Z.log2 (Zpos m) + Z.log2 (Zpos m) + 1)%Z
          by (apply Z.log2_mul_above; lia).
        lia.
      * now rewrite H.
      * now rewrite H.
Qed.

End SelfDistanceFacts.

Module SelfDistanceProperties.

Import FloatValue Rounding FloatOrderFacts FloatSubtraction ProductFacts.
Import DistanceCalculator SelfDistanceFacts.
Local Open Scope float_scope.

Lemma toRadians_finite (t : Z) (x b : float) :
  (-1074 <= t <= 1000)%Z ->
  JS.isFinite x = true -> (- b <=? x) = true -> (x <=? b) = true ->
  within t (Prim2SF b) -> finite (Prim2SF (toRadians x)).
Proof.
  intros Ht Hf Hlo Hhi Hb. unfold toRadians. rewrite mul_spec.
  apply (SFmul_within t (-5)); try apply Prim2SF_valid; try lia.
  - apply (within_of_bounds t x b); try assumption. now apply finite_of_isFinite.
  - split; [exact I | apply Z.leb_le; vm_compute; reflexivity].
Qed.

(** X12. A valid point is at distance zero from itself, in 2D and in 3D and
    whatever the elevation, as soon as the engine's [Math] object has the
    values ECMAScript fixes at zero ([sin 0 = 0], [atan2(0, 1) = 0],
    [pow(0, 2) = 0]) and a cosine between -1 and 1 at the latitude: no
    rounding in the haversine formula leaves a residue. *)
Theorem distance_to_itself_is_zero (M : MathObject) (lat lon elev : float) :
  validateCoordinates lat lon = true ->
  Math_sin M 0 = 0 -> Math_atan2 M 0 1 = 0 -> Math_pow M 0 2 = 0 ->
  (-1 <=? Math_cos M (toRadians lat)) = true ->
  (Math_cos M (toRadians lat) <=? 1) = true ->
  calculate2DDistance M lat lon lat lon = Some zeroDistance
  /\ calculate3DDistance M lat lon elev lat lon elev = Some zeroDistance.
Proof.
  intros Hv Hs Ha Hp Hlo Hhi.
  assert (H2 : calculate2DDistance M lat lon lat lon = Some zeroDistance).
  { unfold calculate2DDistance. rewrite Hv. cbn [negb orb].
    unfold validateCoordinates, JS.geb in Hv.
    repeat (apply andb_prop in Hv; destruct Hv as [Hv ?]).
    assert (Flat : finite (Prim2SF (toRadians lat))).
    { apply (toRadians_finite 7 lat 90); try assumption; [lia|].
      split; [exact I | apply Z.leb_le; vm_compute; reflexivity]. }
    assert (Flon : finite (Prim2SF (toRadians lon))).
    { apply (toRadians_finite 8 lon 180); try assumption; [lia|].
      split; [exact I | apply Z.leb_le; vm_compute; reflexivity]. }
    cbv zeta. rewrite (sub_diag _ Flat), (sub_diag _ Flon).
    change (0 / 2) with 0. rewrite Hs. change (0 * 0) with 0.
    set (c := Math_cos M (toRadians lat)) in *.
    assert (Hc : finite (Prim2SF c)).
    { rewrite leb_spec in Hlo, Hhi.
      destruct (Prim2SF c) as [s|s| |s m e];
        [exact I | destruct s; [now vm_compute in Hlo | now vm_compute in Hhi]
        | now vm_compute in Hlo | exact I]. }
    assert (W : within 0 (Prim2SF c)).
    { apply (within_of_bounds 0 c 1); try assumption.
      split; [exact I | apply Z.leb_le; vm_compute; reflexivity]. }
    destruct (square_sign c W) as [Fsq Ssq].
    assert (Hz : c * c * 0 = 0).
    { apply Prim2SF_inj. rewrite (mul_zero_r _ Fsq).
      change (Prim2SF 0) with (S754_zero false).
      destruct (Prim2SF (c * c)) as [s|s| |s m e]; try contradiction; now subst s. }
    rewrite Hz. change (0 * 0) with 0. change (0 + 0) with 0.
    change (JS.Math_sqrt 0) with 0. change (1 - 0) with 1.
    change (JS.Math_sqrt 1) with 1. rewrite Ha. reflexivity. }
  split; [exact H2|].
  unfold calculate3DDistance. rewrite H2.
  destruct (JS.isNaN elev || JS.isNaN elev || negb (JS.isFinite elev)
            || negb (JS.isFinite elev)) eqn:E; [reflexivity|].
  apply orb_false_elim in E. destruct E as [_ E]. apply negb_false_iff in E.
  cbv zeta. rewrite (sub_diag _ (finite_of_isFinite _ E)).
  change (JS.Math_abs 0) with 0. change (km zeroDistance * 1000) with 0.
  rewrite Hp. reflexivity.
Qed.

Lemma distance_to_itself_is_zero_witness :
  calculate2DDistance ReferenceMath.math 44.4734245277 (-70.88862750833)
                      44.4734245277 (-70.88862750833) = Some zeroDistance
  /\ calculate3DDistance ReferenceMath.math 44.4734245277 (-70.88862750833) 312.5
                         44.4734245277 (-70.88862750833) 312.5 = Some zeroDistance.
Proof.
  apply (distance_to_itself_is_zero ReferenceMath.math); vm_compute; reflexivity.
Defined.

End SelfDistanceProperties.

(** ** The value of a rounded number *)

Module RoundedValue.

Import FloatValue Rounding FloatOrderFacts FloatSubtraction ProductFacts.
Local Open Scope Z_scope.

(** Rounding [q * 2^e] to the exponent [t] of its magnitude keeps the
    quotient of [q] by [2^(t - e)] or takes the next integer. *)
Lemma binary_round_aux_value (s : bool) (q : positive) (e : Z) (l : location) :
  let D := Zpos (digits2_pos q) + e in
  let t := fexp prec emax D in
  -1074 <= e -> e <= t -> D <= 1023 ->
  exists n : Z,
    Zpos q / 2 ^ (t - e) <= n <= Zpos q / 2 ^ (t - e) + 1
    /\ scaled (binary_round_aux prec emax s (Zpos q) e l)
       = cond_Zopp s (n * 2 ^ (t + 1074))
    /\ finite (binary_round_aux prec emax s (Zpos q) e l).
Proof.
  intros D t He Hprec Hmag. unfold binary_round_aux.
  pose proof (shr_fexp_spec (Zpos q) e l ltac:(lia)) as [Hm1 He1].
  destruct (shr_fexp prec emax (Zpos q) e l) as [mrs1 e1]. cbn [fst snd] in Hm1, He1.
  change (Zdigits2 (Zpos q)) with (Zpos (digits2_pos q)) in Hm1, He1.
  fold D in Hm1, He1. fold t in Hm1, He1.
  assert (Ht : t = Z.max (D - 53) (-1074)) by (unfold t; apply fexp_eq).
  rewrite Z.max_r in Hm1, He1 by lia.
  replace (e + (t - e)) with t in He1 by lia. subst e1.
  pose proof (digits_bounds q) as [_ Hq].
  set (dq := Zpos (digits2_pos q)) in *.
  assert (Hdq : 0 < dq) by (subst dq; lia).
  set (k := t - e) in *.
  assert (Hk : 0 <= k) by lia.
  assert (Hpk : 0 < 2 ^ k) by (apply Z.pow_pos_nonneg; lia).
  assert (Hm1nn : 0 <= shr_m mrs1).
  { rewrite Hm1. apply Z.div_pos; lia. }
  assert (Hm1up : shr_m mrs1 < 2 ^ 53).
  { rewrite Hm1. apply Z.div_lt_upper_bound; [lia|].
    rewrite <- Z.pow_add_r by lia.
    eapply Z.lt_le_trans; [exact Hq|]. apply Z.pow_le_mono_r; lia. }
  pose proof (round_nearest_even_range (shr_m mrs1) (loc_of_shr_record mrs1)) as Hr.
  set (m2 := round_nearest_even (shr_m mrs1) (loc_of_shr_record mrs1)) in *.
  rewrite Hm1 in Hr.
  pose proof (shr_fexp_spec m2 t loc_Exact ltac:(lia)) as [Hm3 He3].
  destruct (shr_fexp prec emax m2 t loc_Exact) as [mrs2 e2]. cbn [fst snd] in Hm3, He3.
  rewrite Zdigits2_nonneg in Hm3, He3 by lia.
  rewrite fexp_eq in Hm3, He3.
  exists m2. split; [exact Hr|].
  destruct (Z.eq_dec m2 0) as [Z0|NZ].
  { rewrite Z0 in Hm3. rewrite Z.div_0_l in Hm3 by (apply Z.pow_nonzero; lia).
    rewrite Hm3, Z0. split; [now destruct s | exact I]. }
  destruct (Z.eqb_spec m2 0) as [|_]; [contradiction|].
  assert (Hm2 : 0 < m2 <= 2 ^ 53) by lia.
  destruct (Z.eq_dec m2 (2 ^ 53)) as [Etop|Ntop].
  - rewrite Etop in Hm3, He3. rewrite Z.log2_pow2 in Hm3, He3 by lia.
    replace (Z.max 0 (Z.max (53 + 1 + t - 53) (-1074) - t)) with 1 in Hm3, He3 by lia.
    change (2 ^ 53 / 2 ^ 1) with (2 ^ 52) in Hm3. rewrite Hm3. subst e2.
    change (2 ^ 52) with 4503599627370496. cbv iota.
    change (emax - prec) with 971.
    destruct (Z.leb_spec (t + 1) 971); [|lia].
    split; [|exact I]. unfold scaled. f_equal. rewrite Etop.
    replace (t + 1 + 1074) with (1 + (t + 1074)) by lia.
    rewrite Z.pow_add_r by lia. lia.
  - assert (Hlog : Z.log2 m2 <= 52).
    { assert (Z.log2 m2 < 53); [|lia]. apply Z.log2_lt_pow2; lia. }
    replace (Z.max 0 (Z.max (Z.log2 m2 + 1 + t - 53) (-1074) - t)) with 0 in Hm3, He3 by lia.
    rewrite Z.pow_0_r, Z.div_1_r in Hm3. rewrite Z.add_0_r in He3. subst e2.
    rewrite Hm3. destruct m2 as [|p|p]; try lia.
    change (emax - prec) with 971.
    destruct (Z.leb_spec t 971); [|lia].
    split; [reflexivity | exact I].
Qed.

(** The same for [binary_round], which first aligns the mantissa: the
    result is a multiple [n * 2^t] of the unit of its magnitude, at most
    one unit above the exact value and less than one unit below it. *)
Lemma binary_round_value (s : bool) (m : positive) (e : Z) :
  let t := fexp prec emax (mag m e) in
  -1074 <= e -> mag m e <= 1023 ->
  exists n : Z,
    0 <= n
    /\ scaled (binary_round prec emax s m e) = cond_Zopp s (n * 2 ^ (t + 1074))
    /\ finite (binary_round prec emax s m e)
    /\ n * 2 ^ (t + 1074) <= Zpos m * 2 ^ (e + 1074) + 2 ^ (t + 1074)
    /\ Zpos m * 2 ^ (e + 1074) < (n + 1) * 2 ^ (t + 1074).
Proof.
  intros t He Hmag. unfold binary_round. fold (mag m e). fold t.
  assert (Ht : t = Z.max (mag m e - 53) (-1074)) by (unfold t; apply fexp_eq).
  assert (Hpt : 0 < 2 ^ (t + 1074)) by (apply Z.pow_pos_nonneg; lia).
  destruct (Z.le_gt_cases t e) as [Hle|Hgt].
  - destruct (shl_align_le m e t Hle) as [Hm Hz].
    destruct (shl_align m e t) as [mz ez]. cbn [fst snd] in Hm, Hz. subst ez.
    assert (Hd : Zpos (digits2_pos mz) + t = mag m e).
    { unfold mag. rewrite !Zdigits2_log2, Hm. rewrite Z.log2_mul_pow2 by lia. lia. }
    destruct (binary_round_aux_value s mz t loc_Exact) as [n [Hn [Hs Hf]]];
      rewrite ?Hd; fold t; try lia.
    rewrite Hd in Hn, Hs. fold t in Hn, Hs.
    rewrite Z.sub_diag, Z.pow_0_r, Z.div_1_r in Hn.
    exists n. split; [lia|]. split; [exact Hs|]. split; [exact Hf|].
    assert (Hx : Zpos m * 2 ^ (e + 1074) = Zpos mz * 2 ^ (t + 1074)).
    { rewrite Hm. replace (e + 1074) with ((e - t) + (t + 1074)) by lia.
      rewrite Z.pow_add_r by lia. ring. }
    rewrite Hx. nia.
  - assert (Hs : shl_align m e t = (m, e)).
    { unfold shl_align. destruct (t - e) eqn:E; try reflexivity. lia. }
    rewrite Hs.
    destruct (binary_round_aux_value s m e loc_Exact) as [n [Hn [Hv Hf]]];
      fold (mag m e); fold t; try lia.
    fold (mag m e) in Hn, Hv. fold t in Hn, Hv.
    set (k := t - e) in *.
    assert (Hpk : 0 < 2 ^ k) by (apply Z.pow_pos_nonneg; lia).
    assert (Hq : 0 <= Zpos m / 2 ^ k) by (apply Z.div_pos; lia).
    exists n. split; [lia|]. split; [exact Hv|]. split; [exact Hf|].
    assert (Hg : 2 ^ (t + 1074) = 2 ^ k * 2 ^ (e + 1074)).
    { rewrite <- Z.pow_add_r by lia. f_equal. lia. }
    assert (Hpe : 0 < 2 ^ (e + 1074)) by (apply Z.pow_pos_nonneg; lia).
    pose proof (Z.div_mod (Zpos m) (2 ^ k) ltac:(lia)) as Hdm.
    pose proof (Z.mod_pos_bound (Zpos m) (2 ^ k) Hpk) as Hmod.
    rewrite Hg. split; nia.
Qed.

(** Rounding the integer [z], in units of [2^e]: for a value below
    [2^(T + 53)] in magnitude the result is finite, its sign is the sign of
    [z], and it is a multiple of a unit [2^t] not above [2^T], at most
    one unit above the magnitude of [z] and less than one unit below it. *)
Lemma binary_normalize_value (z e T : Z) :
  -1074 <= e -> -1074 <= T <= 970 ->
  Z.abs z * 2 ^ (e + 1074) < 2 ^ (T + 53 + 1074) ->
  let r := binary_normalize prec emax z e false in
  finite r
  /\ exists t n : Z,
       -1074 <= t <= T /\ 0 <= n
       /\ scaled r = Z.sgn z * (n * 2 ^ (t + 1074))
       /\ n * 2 ^ (t + 1074) <= Z.abs z * 2 ^ (e + 1074) + 2 ^ (t + 1074)
       /\ Z.abs z * 2 ^ (e + 1074) < (n + 1) * 2 ^ (t + 1074).
Proof.
  intros He HT Hz r.
  assert (Hmag : forall m : positive,
            Zpos m * 2 ^ (e + 1074) < 2 ^ (T + 53 + 1074) -> mag m e <= T + 53).
  { intros m H. unfold mag. pose proof (digits_bounds m) as [Hlo _].
    set (d := Zpos (digits2_pos m)) in *.
    assert (Hd : 0 < d) by (subst d; lia).
    assert (H1 : 2 ^ (d - 1) * 2 ^ (e + 1074) < 2 ^ (T + 53 + 1074)).
    { eapply Z.le_lt_trans; [|exact H].
      apply Z.mul_le_mono_nonneg_r; [apply Z.pow_nonneg; lia | exact Hlo]. }
    rewrite <- Z.pow_add_r in H1 by lia.
    apply Z.pow_lt_mono_r_iff in H1; lia. }
  destruct z as [|m|m]; subst r; unfold binary_normalize.
  - split; [exact I|]. exists (-1074), 0. cbn. repeat split; lia.
  - change (Z.abs (Zpos m)) with (Zpos m) in *.
    pose proof (Hmag m Hz) as Hm.
    destruct (binary_round_value false m e He ltac:(lia)) as [n [Hn [Hs [Hf [Hup Hlo]]]]].
    split; [exact Hf|].
    exists (fexp prec emax (mag m e)), n. rewrite fexp_eq in *.
    split; [lia|]. split; [exact Hn|]. split; [|split; assumption].
    rewrite Hs. unfold cond_Zopp. change (Z.sgn (Zpos m)) with 1. lia.
  - change (Z.abs (Zneg m)) with (Zpos m) in *.
    pose proof (Hmag m Hz) as Hm.
    destruct (binary_round_value true m e He ltac:(lia)) as [n [Hn [Hs [Hf [Hup Hlo]]]]].
    split; [exact Hf|].
    exists (fexp prec emax (mag m e)), n. rewrite fexp_eq in *.
    split; [lia|]. split; [exact Hn|]. split; [|split; assumption].
    rewrite Hs. unfold cond_Zopp. change (Z.sgn (Zneg m)) with (-1). lia.
Qed.

End RoundedValue.

(** ** The value of a difference and of a sum *)

Module DifferenceValue.

Import FloatValue Rounding FloatOrderFacts FloatSubtraction ProductFacts RoundedValue.
Local Open Scope Z_scope.

(** An exact result, in the terms of [binary_normalize_value]. *)
Lemma exact_value (v T : Z) :
  -1074 <= T ->
  exists t n : Z,
    -1074 <= t <= T /\ 0 <= n
    /\ v = Z.sgn v * (n * 2 ^ (t + 1074))
    /\ n * 2 ^ (t + 1074) <= Z.abs v + 2 ^ (t + 1074)
    /\ Z.abs v < (n + 1) * 2 ^ (t + 1074).
Proof.
  intros HT. exists (-1074), (Z.abs v). change (2 ^ (-1074 + 1074)) with 1.
  repeat split; try lia.
Qed.

(** The difference of two finite numbers whose exact difference is below
    [2^(T + 53)] in magnitude: it is finite, has the sign of the exact
    difference, and is a multiple of a unit not above [2^T], at most one
    unit above the exact magnitude and less than one unit below it. *)
Lemma SFsub_value (x y : spec_float) (T : Z) :
  valid_binary x = true -> valid_binary y = true ->
  finite x -> finite y -> -1074 <= T <= 970 ->
  Z.abs (scaled x - scaled y) < 2 ^ (T + 53 + 1074) ->
  finite (SFsub prec emax x y)
  /\ exists t n : Z,
       -1074 <= t <= T /\ 0 <= n
       /\ scaled (SFsub prec emax x y)
          = Z.sgn (scaled x - scaled y) * (n * 2 ^ (t + 1074))
       /\ n * 2 ^ (t + 1074) <= Z.abs (scaled x - scaled y) + 2 ^ (t + 1074)
       /\ Z.abs (scaled x - scaled y) < (n + 1) * 2 ^ (t + 1074).
Proof.
  intros Vx Vy Fx Fy HT Hd.
  destruct x as [sx|sx| |sx mx ex]; try contradiction;
    destruct y as [sy|sy| |sy my ey]; try contradiction.
  - split; [now destruct sx, sy|].
    replace (scaled (SFsub prec emax (S754_zero sx) (S754_zero sy))) with 0
      by (now destruct sx, sy).
    change (scaled (S754_zero sx) - scaled (S754_zero sy)) with 0.
    apply (exact_value 0 T). lia.
  - split; [exact I|].
    assert (E : scaled (SFsub prec emax (S754_zero sx) (S754_finite sy my ey))
                = scaled (S754_zero sx) - scaled (S754_finite sy my ey)).
    { unfold SFsub, scaled. destruct sy; unfold cond_Zopp, negb; lia. }
    rewrite E. apply exact_value. lia.
  - split; [exact I|].
    assert (E : scaled (SFsub prec emax (S754_finite sx mx ex) (S754_zero sy))
                = scaled (S754_finite sx mx ex) - scaled (S754_zero sy)).
    { unfold SFsub, scaled. lia. }
    rewrite E. apply exact_value. lia.
  - pose proof (valid_finite_bounds _ _ _ Vx) as [Bx _].
    pose proof (valid_finite_bounds _ _ _ Vy) as [By _].
    unfold SFsub. cbv zeta.
    pose proof (aligned_difference sy sx my mx ey ex ltac:(lia) ltac:(lia)) as H.
    cbv zeta in H.
    set (z := cond_Zopp sx _ - cond_Zopp sy _) in *.
    set (ez := Z.min ex ey) in *.
    assert (Hez : -1074 <= ez) by (subst ez; lia).
    assert (Hp : 0 < 2 ^ (ez + 1074)) by (apply Z.pow_pos_nonneg; lia).
    rewrite <- H in *.
    assert (Ha : Z.abs (z * 2 ^ (ez + 1074)) = Z.abs z * 2 ^ (ez + 1074)).
    { rewrite Z.abs_mul. f_equal. lia. }
    assert (Hs : Z.sgn (z * 2 ^ (ez + 1074)) = Z.sgn z).
    { rewrite Z.sgn_mul. rewrite (Z.sgn_pos (2 ^ (ez + 1074))) by lia. lia. }
    rewrite Ha in *. rewrite Hs.
    exact (binary_normalize_value z ez T Hez HT Hd).
Qed.

End DifferenceValue.

Module WrapFacts.

Import FloatValue Rounding FloatOrderFacts FloatSubtraction ProductFacts RoundedValue
       DifferenceValue SortFacts SelfDistanceFacts.
Local Open Scope Z_scope.

(** A sum is the difference with the opposite. *)
Lemma SFadd_as_sub (x y : spec_float) :
  SFadd prec emax x y = SFsub prec emax x (SFopp y).
Proof.
  destruct x as [sx|sx| |sx mx ex]; destruct y as [sy|sy| |sy my ey];
    try reflexivity; try (destruct sx, sy; reflexivity);
    try (destruct sy; reflexivity).
Qed.

Lemma add_as_sub (x y : float) : (x + y = x - (- y))%float.
Proof.
  apply Prim2SF_inj. rewrite add_spec, sub_spec, opp_spec. apply SFadd_as_sub.
Qed.

(** Subtracting a finite non-zero number from a number gives a number. *)
Lemma SFsub_not_nan (x : spec_float) (s : bool) (m : positive) (e : Z) :
  valid_binary x = true -> valid_binary (S754_finite s m e) = true ->
  not_nan x -> not_nan (SFsub prec emax x (S754_finite s m e)).
Proof.
  intros Vx Vy Nx. unfold not_nan in *.
  destruct x as [sx|sx| |sx mx ex]; try discriminate; [contradiction|].
  pose proof (valid_finite_bounds _ _ _ Vx) as [Bx _].
  pose proof (valid_finite_bounds _ _ _ Vy) as [By _].
  unfold SFsub. cbv zeta.
  set (ez := Z.min ex e). assert (Hez : -1074 <= ez) by (subst ez; lia).
  destruct (cond_Zopp sx _ - cond_Zopp s _) as [|p|p]; unfold binary_normalize;
    [discriminate| |].
  - destruct (binary_round_pos false p ez) as [H|[m' [e' [H _]]]];
      [unfold mag; pose proof (Pos2Z.is_pos (digits2_pos p)); lia | |];
      rewrite H; discriminate.
  - destruct (binary_round_pos true p ez) as [H|[m' [e' [H _]]]];
      [unfold mag; pose proof (Pos2Z.is_pos (digits2_pos p)); lia | |];
      rewrite H; discriminate.
Qed.

Lemma isNaN_spec (x : float) : JS.isNaN x = false <-> not_nan (Prim2SF x).
Proof.
  split; [apply not_nan_of_isNaN|]. unfold JS.isNaN, not_nan. intros H.
  destruct (is_nan x) eqn:E; [|reflexivity]. apply is_nan_spec in E. contradiction.
Qed.

Lemma finite_not_nan (x : float) : finite (Prim2SF x) -> JS.isNaN x = false.
Proof.
  intros F. apply isNaN_spec. intros E. now rewrite E in F.
Qed.

(** A number between two finite bounds is finite. *)
Lemma isFinite_of_bounds (x : float) :
  JS.isNaN x = false -> - 2 ^ 2100 < key x < 2 ^ 2100 -> JS.isFinite x = true.
Proof.
  intros N H. unfold JS.isFinite. unfold JS.isNaN in N. rewrite N. cbn [orb].
  unfold is_infinity. rewrite eqb_spec, abs_spec. unfold key in H.
  destruct (Prim2SF x) as [s|s| |s m e]; try reflexivity.
  destruct s; unfold scaled, cond_Zopp in H; lia.
Qed.

Lemma finite_key_bounds (x : float) :
  finite (Prim2SF x) -> - 2 ^ 2100 < key x < 2 ^ 2100.
Proof.
  intros F. unfold key. pose proof (Prim2SF_valid x) as V.
  destruct (Prim2SF x) as [s|s| |s m e]; try contradiction.
  - change (scaled (S754_zero s)) with 0%Z.
    assert (0 < 2 ^ 2100)%Z by (apply Z.pow_pos_nonneg; lia). lia.
  - pose proof (valid_finite_bounds _ _ _ V) as [B [Hm _]].
    pose proof (scaled_finite_lt_infinity m e ltac:(lia) Hm) as H.
    pose proof (scaled_finite_pos m e ltac:(lia)) as Hp.
    unfold scaled. destruct s; unfold cond_Zopp; lia.
Qed.

Local Open Scope float_scope.

(** The difference of two finite numbers below [2^53] in magnitude is
    finite and within one unit of the exact difference. *)
Lemma sub_near (x y : float) :
  finite (Prim2SF x) -> finite (Prim2SF y) ->
  (Z.abs (key x - key y) < 2 ^ 53 * 2 ^ 1074)%Z ->
  finite (Prim2SF (x - y))
  /\ (key x - key y - 2 ^ 1074 <= key (x - y) <= key x - key y + 2 ^ 1074)%Z.
Proof.
  intros Fx Fy H. unfold key in *. rewrite sub_spec.
  destruct (SFsub_value (Prim2SF x) (Prim2SF y) 0 (Prim2SF_valid x) (Prim2SF_valid y)
              Fx Fy ltac:(lia)) as [F [t [n [Ht [Hn [Hs [Hup Hlo]]]]]]].
  { rewrite <- Z.pow_add_r in H by lia. exact H. }
  split; [exact F|].
  change (SF64sub (Prim2SF x) (Prim2SF y)) with (SFsub prec emax (Prim2SF x) (Prim2SF y)).
  rewrite Hs.
  assert (Hg : (0 < 2 ^ (t + 1074) <= 2 ^ 1074)%Z).
  { split; [apply Z.pow_pos_nonneg; lia | apply Z.pow_le_mono_r; lia]. }
  set (d := (scaled (Prim2SF x) - scaled (Prim2SF y))%Z) in *.
  destruct (Z.sgn_spec d) as [[Hd ->]|[[Hd ->]|[Hd ->]]]; lia.
Qed.

End WrapFacts.

(** ** The wrapping loops of [validateAndNormalize] *)

Module WhileFacts.

(** What holds before a loop and is kept by its body holds after it, with
    the negation of its condition. *)
Lemma while_inv (P : float -> Prop) (cond : float -> bool) (body : float -> float) :
  (forall y, P y -> cond y = true -> P (body y)) ->
  forall fuel x r, P x -> while fuel cond body x = Some r -> P r /\ cond r = false.
Proof.
  intros Hstep fuel. induction fuel as [|fuel IH]; intros x r Hx; simpl; [discriminate|].
  destruct (cond x) eqn:E.
  - apply IH. now apply Hstep.
  - intros H. injection H as <-. now split.
Qed.

(** A loop whose body decreases a measure that is positive while the
    condition holds comes to an end. *)
Lemma while_decreasing (P : float -> Prop) (mu : float -> Z) (cond : float -> bool)
    (body : float -> float) :
  (forall y, P y -> cond y = true ->
     (0 < mu y)%Z /\ P (body y) /\ (mu (body y) <= mu y - 1)%Z) ->
  forall n x, P x -> (mu x <= Z.of_nat n)%Z ->
  exists r, while (S n) cond body x = Some r.
Proof.
  intros Hstep n. induction n as [|n IH]; intros x Hx Hmu.
  - simpl. destruct (cond x) eqn:E; [|eauto].
    destruct (Hstep x Hx E) as [H _]. lia.
  - change (while (S (S n)) cond body x)
      with (if cond x then while (S n) cond body (body x) else Some x).
    destruct (cond x) eqn:E; [|eauto].
    destruct (Hstep x Hx E) as [_ [HP Hd]]. apply IH; [assumption | lia].
Qed.

(** More fuel does not change the result of a loop that ends. *)
Lemma while_more_fuel (cond : float -> bool) (body : float -> float) :
  forall fuel fuel' x r,
    (fuel <= fuel')%nat -> while fuel cond body x = Some r ->
    while fuel' cond body x = Some r.
Proof.
  intros fuel. induction fuel as [|fuel IH]; intros fuel' x r Hle; simpl; [discriminate|].
  destruct fuel' as [|fuel']; [lia|]. simpl.
  destruct (cond x); [|trivial]. apply IH. lia.
Qed.

End WhileFacts.

Module WrapSteps.

Import FloatValue Rounding FloatOrderFacts FloatSubtraction ProductFacts RoundedValue
       DifferenceValue SortFacts SelfDistanceFacts WrapFacts.
Local Open Scope float_scope.

Lemma key_360 : key 360 = (360 * 2 ^ 1074)%Z.
Proof. vm_compute. reflexivity. Qed.

Lemma key_m360 : key (-360) = (- (360 * 2 ^ 1074))%Z.
Proof. vm_compute. reflexivity. Qed.

Lemma key_180 : key 180 = (180 * 2 ^ 1074)%Z.
Proof. vm_compute. reflexivity. Qed.

Lemma key_m180 : key (-180) = (- (180 * 2 ^ 1074))%Z.
Proof. vm_compute. reflexivity. Qed.

Lemma key_90 : key 90 = (90 * 2 ^ 1074)%Z.
Proof. vm_compute. reflexivity. Qed.

Lemma key_m90 : key (-90) = (- (90 * 2 ^ 1074))%Z.
Proof. vm_compute. reflexivity. Qed.

Lemma unit_pos : (0 < 2 ^ 1074)%Z.
Proof. apply Z.pow_pos_nonneg; lia. Qed.

(** One turn down: [l - 360] for [180 < l <= 2^52]. *)
Lemma step_down (l : float) :
  finite (Prim2SF l) -> (180 <? l) = true -> (key l <= 2 ^ 52 * 2 ^ 1074)%Z ->
  finite (Prim2SF (l - 360))
  /\ (key l - 361 * 2 ^ 1074 <= key (l - 360) <= key l - 359 * 2 ^ 1074)%Z.
Proof.
  intros F C B. pose proof unit_pos as U.
  rewrite (ltb_key 180 l eq_refl (finite_not_nan l F)), key_180 in C.
  apply Z.ltb_lt in C.
  destruct (sub_near l 360 F I) as [Fr Hr].
  - rewrite key_360. change (2 ^ 53)%Z with (2 * 2 ^ 52)%Z. lia.
  - rewrite key_360 in Hr. split; [exact Fr | lia].
Qed.

(** One turn up: [l + 360] for [-2^52 <= l < -180]. *)
Lemma step_up (l : float) :
  finite (Prim2SF l) -> (l <? -180) = true -> (- (2 ^ 52 * 2 ^ 1074) <= key l)%Z ->
  finite (Prim2SF (l + 360))
  /\ (key l + 359 * 2 ^ 1074 <= key (l + 360) <= key l + 361 * 2 ^ 1074)%Z.
Proof.
  intros F C B. pose proof unit_pos as U.
  rewrite (ltb_key l (-180) (finite_not_nan l F) eq_refl), key_m180 in C.
  apply Z.ltb_lt in C. rewrite add_as_sub. change (- (360)) with (-360).
  destruct (sub_near l (-360) F I) as [Fr Hr].
  - rewrite key_m360. change (2 ^ 53)%Z with (2 * 2 ^ 52)%Z. lia.
  - rewrite key_m360 in Hr. split; [exact Fr | lia].
Qed.

(** A turn up from below -180 does not pass 180, whatever the size of the
    number. *)
Lemma step_up_bound (l : float) :
  JS.isNaN l = false -> (l <? -180) = true ->
  JS.isNaN (l + 360) = false /\ (key (l + 360) <= 180 * 2 ^ 1074)%Z.
Proof.
  intros N C. pose proof unit_pos as U.
  rewrite (ltb_key l (-180) N eq_refl), key_m180 in C. apply Z.ltb_lt in C.
  rewrite add_as_sub. change (- (360)) with (-360).
  assert (Nr : JS.isNaN (l - -360) = false).
  { apply isNaN_spec. rewrite sub_spec.
    change (Prim2SF (-360)) with (S754_finite true 6333186975989760 (-44)).
    apply SFsub_not_nan; [apply Prim2SF_valid | reflexivity | now apply isNaN_spec]. }
  split; [exact Nr|].
  destruct (Z.le_gt_cases (key l) (- (360 * 2 ^ 1074))) as [Hlow|Hhigh].
  - pose proof (sub_pos_iff_ltb (-360) l) as H.
    rewrite (ltb_key (-360) l eq_refl N), key_m360 in H.
    rewrite (ltb_key 0 (l - -360) eq_refl Nr) in H.
    change (key 0) with 0%Z in H.
    destruct (Z.ltb_spec 0 (key (l - -360))) as [Hp|Hn];
      destruct (Z.ltb_spec (- (360 * 2 ^ 1074)) (key l)); try discriminate; lia.
  - assert (F : finite (Prim2SF l)).
    { apply finite_of_isFinite. apply isFinite_of_bounds; [exact N|].
      assert (360 * 2 ^ 1074 < 2 ^ 2100)%Z by (apply Z.ltb_lt; vm_compute; reflexivity).
      lia. }
    unfold key in *. rewrite sub_spec.
    change (SF64sub (Prim2SF l) (Prim2SF (-360)))
      with (SFsub prec emax (Prim2SF l) (Prim2SF (-360))).
    destruct (SFsub_value (Prim2SF l) (Prim2SF (-360)) (-45) (Prim2SF_valid l)
                (Prim2SF_valid (-360)) F I ltac:(lia))
      as [_ [t [n [Ht [Hn [Hs [Hup _]]]]]]].
    { fold (key (-360)). rewrite key_m360.
      change (2 ^ (-45 + 53 + 1074))%Z with (256 * 2 ^ 1074)%Z. lia. }
    fold (key (-360)) in Hs, Hup. rewrite key_m360 in Hs, Hup. rewrite Hs.
    set (d := (scaled (Prim2SF l) - - (360 * 2 ^ 1074))%Z) in *.
    assert (Hd : (0 < d < 180 * 2 ^ 1074)%Z) by (subst d; lia).
    rewrite Z.sgn_pos by lia. rewrite Z.abs_eq in Hup by lia.
    set (g := (2 ^ (t + 1074))%Z) in *.
    assert (Hg : (0 < g)%Z) by (apply Z.pow_pos_nonneg; lia).
    assert (Hu : (2 ^ 1074 = 2 ^ (- t) * g)%Z).
    { subst g. rewrite <- Z.pow_add_r by lia. f_equal. lia. }
    set (c := (2 ^ (- t))%Z) in *.
    assert (Hc : (0 < c)%Z) by (apply Z.pow_pos_nonneg; lia).
    rewrite Hu in *.
    assert (n < 180 * c + 1)%Z by nia.
    nia.
Qed.

End WrapSteps.

Module WrapProperties.

Import FloatValue Rounding FloatOrderFacts FloatSubtraction ProductFacts RoundedValue
       DifferenceValue SortFacts SelfDistanceFacts WrapFacts WhileFacts WrapSteps.
Import CoordinateConverter.
Local Open Scope float_scope.

Lemma not_finite_is_rejected (fuel : nat) (lat lon : float) :
  JS.isNaN lat || JS.isNaN lon || negb (JS.isFinite lat) || negb (JS.isFinite lon) = true ->
  validateAndNormalize fuel lat lon = Some None.
Proof. intros H. unfold validateAndNormalize. now rewrite H. Qed.

(** X22. Whatever [validateAndNormalize] returns is valid: when it returns
    coordinates, the latitude is the one given and the pair passes
    [validateCoordinates], so the longitude is in [-180, 180], however
    many turns the loops took and whatever the rounding of each. *)
Theorem validateAndNormalize_result_is_valid (fuel : nat) (lat lon : float) (r : LatLon) :
  validateAndNormalize fuel lat lon = Some (Some r) ->
  exists normalizedLon,
    r = mkLatLon lat normalizedLon
    /\ CoordinateParser.validateCoordinates lat normalizedLon = true.
Proof.
  unfold validateAndNormalize. pose proof unit_pos as U.
  destruct (JS.isNaN lat || JS.isNaN lon || negb (JS.isFinite lat)
            || negb (JS.isFinite lon)) eqn:E; [discriminate|].
  repeat (apply orb_false_elim in E; destruct E as [E ?]).
  rename E into Nlat, H1 into Nlon, H0 into Flat, H into Flon.
  apply negb_false_iff in Flat, Flon.
  destruct (while fuel (fun l => JS.gtb l 180) (fun l => l - 360) lon) as [lon1|] eqn:W1;
    [|discriminate].
  destruct (while fuel (fun l => l <? -180) (fun l => l + 360) lon1) as [lon2|] eqn:W2;
    [|discriminate].
  destruct ((lat <? -90) || JS.gtb lat 90) eqn:R; [discriminate|].
  intros H. injection H as <-. exists lon2. split; [reflexivity|].
  apply orb_false_elim in R. destruct R as [R1 R2]. unfold JS.gtb in R2.
  (* the first loop *)
  destruct (while_inv (fun y => JS.isNaN y = false) (fun l => JS.gtb l 180)
              (fun l => l - 360)) with (fuel := fuel) (x := lon) (r := lon1)
    as [N1 C1]; try assumption.
  { intros y Ny _. apply isNaN_spec. rewrite sub_spec.
    change (Prim2SF 360) with (S754_finite false 6333186975989760 (-44)).
    apply SFsub_not_nan; [apply Prim2SF_valid | reflexivity | now apply isNaN_spec]. }
  unfold JS.gtb in C1. rewrite (ltb_key 180 lon1 eq_refl N1), key_180 in C1.
  apply Z.ltb_ge in C1.
  (* the second loop *)
  destruct (while_inv (fun y => JS.isNaN y = false /\ (key y <= 180 * 2 ^ 1074)%Z)
              (fun l => l <? -180) (fun l => l + 360))
    with (fuel := fuel) (x := lon1) (r := lon2) as [[N2 B2] C2]; try assumption.
  { intros y [Ny _] Cy. now apply step_up_bound. }
  { now split. }
  rewrite (ltb_key lon2 (-180) N2 eq_refl), key_m180 in C2. apply Z.ltb_ge in C2.
  rewrite (ltb_key lat (-90) Nlat eq_refl), key_m90 in R1. apply Z.ltb_ge in R1.
  rewrite (ltb_key 90 lat eq_refl Nlat), key_90 in R2. apply Z.ltb_ge in R2.
  unfold CoordinateParser.validateCoordinates, JS.geb.
  rewrite (leb_key (-90) lat eq_refl Nlat), (leb_key lat 90 Nlat eq_refl),
    (leb_key (-180) lon2 eq_refl N2), (leb_key lon2 180 N2 eq_refl).
  rewrite key_m90, key_90, key_m180, key_180, Nlat, N2, Flat.
  assert (F2 : JS.isFinite lon2 = true).
  { apply isFinite_of_bounds; [exact N2|].
    assert (180 * 2 ^ 1074 < 2 ^ 2100)%Z by (apply Z.ltb_lt; vm_compute; reflexivity).
    lia. }
  rewrite F2.
  repeat (apply andb_true_intro; split); try reflexivity; apply Z.leb_le; lia.
Qed.

Lemma validateAndNormalize_result_is_valid_witness :
  exists normalizedLon,
    mkLatLon 45 (-160) = mkLatLon 45 normalizedLon
    /\ CoordinateParser.validateCoordinates 45 normalizedLon = true.
Proof.
  apply (validateAndNormalize_result_is_valid 5 45 920). vm_compute. reflexivity.
Defined.

(** A longitude of at most [2^52] in magnitude is brought back in a
    number of turns that its size bounds. *)
Lemma wrapping_loops_end (lon : float) :
  finite (Prim2SF lon) -> (Z.abs (key lon) <= 2 ^ 52 * 2 ^ 1074)%Z ->
  exists fuel lon1 lon2,
    while fuel (fun l => JS.gtb l 180) (fun l => l - 360) lon = Some lon1
    /\ while fuel (fun l => l <? -180) (fun l => l + 360) lon1 = Some lon2.
Proof.
  intros F B. pose proof unit_pos as U.
  set (u := (2 ^ 1074)%Z) in *.
  set (P := fun y : float => finite (Prim2SF y)
                              /\ (- (2 ^ 52 * u) <= key y <= 2 ^ 52 * u)%Z).
  assert (Hdiv : forall a b : Z, (b <= a - 359 * u -> b / (359 * u) <= a / (359 * u) - 1)%Z).
  { intros a b H.
    replace (a / (359 * u) - 1)%Z with ((a - 1 * (359 * u)) / (359 * u))%Z.
    - apply Z.div_le_mono; lia.
    - replace (a - 1 * (359 * u))%Z with (a + -1 * (359 * u))%Z by lia.
      rewrite Z.div_add by lia. lia. }
  assert (Hpos : forall a : Z, (0 < a -> 0 < a / (359 * u) + 1)%Z).
  { intros a H. assert (0 <= a / (359 * u))%Z by (apply Z.div_pos; lia). lia. }
  (* the first loop *)
  set (mu1 := fun y : float => ((key y - 180 * u) / (359 * u) + 1)%Z).
  assert (S1 : forall y, P y -> JS.gtb y 180 = true ->
                 (0 < mu1 y)%Z /\ P (y - 360) /\ (mu1 (y - 360)%float <= mu1 y - 1)%Z).
  { intros y [Fy By] C. unfold JS.gtb in C.
    destruct (step_down y Fy C ltac:(lia)) as [Fr Hr]. fold u in Hr.
    rewrite (ltb_key 180 y eq_refl (finite_not_nan y Fy)), key_180 in C.
    apply Z.ltb_lt in C. fold u in C.
    split; [apply Hpos; lia|]. split; [split; [exact Fr | lia]|].
    unfold mu1. pose proof (Hdiv (key y - 180 * u) (key (y - 360)%float - 180 * u))%Z. lia. }
  destruct (while_decreasing P mu1 _ _ S1 (Z.to_nat (mu1 lon)) lon) as [lon1 W1];
    [split; [exact F | lia] | lia |].
  destruct (while_inv P _ _ (fun y Py C => proj1 (proj2 (S1 y Py C))) _ lon lon1
              ltac:(split; [exact F | lia]) W1) as [[F1 B1] _].
  (* the second loop *)
  set (mu2 := fun y : float => ((- (180 * u) - key y) / (359 * u) + 1)%Z).
  assert (S2 : forall y, P y -> (y <? -180) = true ->
                 (0 < mu2 y)%Z /\ P (y + 360) /\ (mu2 (y + 360)%float <= mu2 y - 1)%Z).
  { intros y [Fy By] C.
    destruct (step_up y Fy C ltac:(lia)) as [Fr Hr]. fold u in Hr.
    rewrite (ltb_key y (-180) (finite_not_nan y Fy) eq_refl), key_m180 in C.
    apply Z.ltb_lt in C. fold u in C.
    split; [apply Hpos; lia|]. split; [split; [exact Fr | lia]|].
    unfold mu2.
    pose proof (Hdiv (- (180 * u) - key y) (- (180 * u) - key (y + 360)%float))%Z. lia. }
  destruct (while_decreasing P mu2 _ _ S2 (Z.to_nat (mu2 lon1)) lon1) as [lon2 W2];
    [split; [exact F1 | lia] | lia |].
  exists (S (Nat.max (Z.to_nat (mu1 lon)) (Z.to_nat (mu2 lon1)))), lon1, lon2.
  split; [eapply while_more_fuel; [|exact W1] | eapply while_more_fuel; [|exact W2]]; lia.
Qed.

(** X23. A longitude of at most [2^52] (about 4.5e15) in magnitude is always
    normalized: with enough turns of the loops [validateAndNormalize]
    returns, and more turns do not change its result. *)
Theorem validateAndNormalize_returns (lat lon : float) :
  (abs lon <=? 4503599627370496) = true ->
  exists fuel result,
    forall fuel', (fuel <= fuel')%nat ->
      validateAndNormalize fuel' lat lon = Some result.
Proof.
  intros B.
  destruct (JS.isNaN lat || JS.isNaN lon || negb (JS.isFinite lat)
            || negb (JS.isFinite lon)) eqn:E.
  { exists 0%nat, None. intros fuel' _. now apply not_finite_is_rejected. }
  assert (F : finite (Prim2SF lon)
              /\ (Z.abs (key lon) <= 2 ^ 52 * 2 ^ 1074)%Z).
  { rewrite leb_spec, abs_spec in B. unfold key.
    pose proof (Prim2SF_valid lon) as V.
    change (Prim2SF 4503599627370496) with (S754_finite false 4503599627370496 0) in B.
    destruct (Prim2SF lon) as [s|s| |s m e]; try discriminate.
    - split; [exact I|]. change (scaled (S754_zero s)) with 0%Z.
      pose proof unit_pos. change (Z.abs 0) with 0%Z. lia.
    - split; [exact I|].
      change (SFabs (S754_finite s m e)) with (S754_finite false m e) in B.
      rewrite SFleb_scaled in B;
        [|exact (valid_any_sign s false m e V) | reflexivity | discriminate | discriminate].
      apply Z.leb_le in B.
      change (scaled (S754_finite false 4503599627370496 0))
        with (4503599627370496 * 2 ^ 1074)%Z in B.
      change (2 ^ 52)%Z with 4503599627370496%Z.
      pose proof (valid_finite_bounds _ _ _ V) as [Be _].
      pose proof (scaled_finite_pos m e ltac:(lia)).
      unfold scaled in *. destruct s; unfold cond_Zopp in *; lia. }
  destruct F as [F Bk].
  destruct (wrapping_loops_end lon F Bk) as [fuel [lon1 [lon2 [W1 W2]]]].
  exists fuel,
    (if (lat <? -90) || JS.gtb lat 90 then None else Some (mkLatLon lat lon2)).
  intros fuel' Hle. unfold validateAndNormalize. rewrite E.
  rewrite (while_more_fuel _ _ fuel fuel' lon lon1 Hle W1).
  rewrite (while_more_fuel _ _ fuel fuel' lon1 lon2 Hle W2).
  now destruct ((lat <? -90) || JS.gtb lat 90).
Qed.

Lemma validateAndNormalize_returns_witness :
  exists fuel result,
    forall fuel', (fuel <= fuel')%nat ->
      validateAndNormalize fuel' 45 (-123456789.25) = Some result.
Proof.
  apply (validateAndNormalize_returns 45 (-123456789.25)). reflexivity.
Defined.

End WrapProperties.

(** ** Blank input *)

Module BlankInput.

Import Str Text CoordinateParser CoordinateLines RoundTripFacts.
Local Open Scope string_scope.

Lemma dropWhile_all (p : ascii -> bool) (l : list ascii) :
  Forall (fun c => p c = true) l -> dropWhile p l = [].
Proof.
  induction 1 as [|c l Hc _ IH]; simpl; [reflexivity|]. now rewrite Hc.
Qed.

Lemma trim_blank (s : string) :
  Forall (fun c => is_space c = true) (list_ascii_of_string s) -> trim s = "".
Proof.
  intros H. unfold trim. now rewrite (dropWhile_all _ _ H).
Qed.

Lemma split_runs_blank (sep : ascii -> bool) (keep : string -> bool) (l : list ascii) :
  keep "" = false -> Forall (fun c => sep c = true) l ->
  forall skipping, filter keep (split_runs sep l [] skipping) = [].
Proof.
  intros Hk. induction 1 as [|c l Hc _ IH]; intros skipping; simpl.
  - now rewrite Hk.
  - rewrite Hc. destruct skipping; simpl; rewrite ?Hk; apply IH.
Qed.

Lemma split_char_blank (c0 : ascii) (l : list ascii) :
  Forall (fun c => is_space c = true) l ->
  forall cur, Forall (fun c => is_space c = true) cur ->
  filter (fun line => truthy (trim line)) (split_char c0 l cur) = [].
Proof.
  induction 1 as [|c l Hc _ IH]; intros cur Hcur; simpl.
  - rewrite trim_blank; [reflexivity|].
    rewrite list_ascii_of_string_of_list_ascii. now apply Forall_rev.
  - destruct (Ascii.eqb c c0); simpl.
    + rewrite trim_blank by (rewrite list_ascii_of_string_of_list_ascii; now apply Forall_rev).
      simpl. apply IH. constructor.
    + apply IH. now constructor.
Qed.

End BlankInput.

Module BlankInputProperties.

Import Str Text CoordinateParser CoordinateLines BlankInput.
Local Open Scope string_scope.

(** X24. Input that holds nothing but white space (spaces, tabs, line breaks)
    is rejected everywhere: [parseCoordinate] and
    [parseCoordinateWithElevation] return [null], [parseMultipleCoordinates]
    returns no point and [detectFormat] answers "unknown". *)
Theorem blank_input_is_rejected (input : string) :
  Forall (fun c => is_space c = true) (list_ascii_of_string input) ->
  parseCoordinate input = None
  /\ parseCoordinateWithElevation input = None
  /\ parseMultipleCoordinates input = []
  /\ detectFormat input = "unknown".
Proof.
  intros H. split; [|split; [|split]].
  - unfold parseCoordinate. destruct input; [reflexivity|].
    now rewrite (trim_blank _ H).
  - unfold parseCoordinateWithElevation, parts_of.
    rewrite split_runs_blank; [reflexivity | reflexivity |].
    eapply Forall_impl; [|exact H]. intros c Hc. unfold is_delimiter. now rewrite Hc.
  - unfold parseMultipleCoordinates. destruct (negb (truthy input)); [reflexivity|].
    rewrite split_char_blank; [reflexivity | exact H | constructor].
  - unfold detectFormat. destruct (negb (truthy input)); [reflexivity|].
    now rewrite (trim_blank _ H).
Qed.

Lemma blank_input_is_rejected_witness :
  parseCoordinate (String " " (String (ascii_of_nat 9) (String (ascii_of_nat 10) " "))) = None
  /\ parseCoordinateWithElevation
       (String " " (String (ascii_of_nat 9) (String (ascii_of_nat 10) " "))) = None
  /\ parseMultipleCoordinates
       (String " " (String (ascii_of_nat 9) (String (ascii_of_nat 10) " "))) = []
  /\ detectFormat (String " " (String (ascii_of_nat 9) (String (ascii_of_nat 10) " ")))
     = "unknown".
Proof.
  apply blank_input_is_rejected. repeat constructor.
Defined.

End BlankInputProperties.
